(** * Shallow embedding of the SAT toolkit: SAT -> 3-SAT reducer, witness
    verifier and the two CDCL solver variants.

    Sources:
    - src/Code/reductionSAT_3SAT.cpp    (module [Reducer])
    - src/Code/SATVerifcator.cpp         (module [Verifier])
    - src/Code/SATSolverOverOptmised.cpp (watched-literal CDCL, [Asg1], [CDCL1])
    - src/Code/SATSOLverOPtimsed2.cpp    (re-scan CDCL, [Asg2], [CDCL2])

    C++ [int] is modelled as [Z]. Where a value the input sets directly can
    leave the [int] range (a variable number, a size given to [resize]),
    the arithmetic wraps modulo 2^32 ([wrap32]). The sizes of containers
    ([clauses.size()], [literals.size()]) are taken below 2^31: reaching
    2^31 would take a vector of 8 GiB. [double] is Rocq's primitive
    IEEE-754 binary64 float, so the activity arithmetic is bit-exact. *)

From stdpp Require Import base list gmap.
From Stdlib Require Import ZArith Lia PrimFloat SpecFloat FloatOps Sorted.
From Stdlib Require String Ascii.

Set Warnings "-inexact-float".
Open Scope Z_scope.

(** C++ [int]: its range, and the value of an [int] expression whose exact
    result leaves it, taken modulo 2^32 (two's complement, as GCC and Clang
    compile signed overflow). *)
Definition INT_MIN : Z := -2147483648.
Definition INT_MAX : Z := 2147483647.

Definition in_int (z : Z) : bool := (INT_MIN <=? z) && (z <=? INT_MAX).

Definition wrap32 (z : Z) : Z := (z + 2 ^ 31) mod 2 ^ 32 - 2 ^ 31.

(** [vector::resize(n)] and the [vector(n, v)] constructor take the [int]
    [n] converted to [size_t]: a negative [n] becomes a size above
    [max_size()] and [std::length_error] is thrown. *)
Definition resize_fails (n : Z) : bool := wrap32 n <? 0.

(* ===================================================================== *)
(** * SAT -> 3-SAT reducer (reductionSAT_3SAT.cpp) *)
(* ===================================================================== *)
Module Reducer.

(** [struct Clause { vector<int> literals; }] *)
Definition Clause := list Z.

(** [struct CNFFormula] *)
Record CNFFormula := mkCNF {
  numVars : Z;
  numClauses : Z;
  clauses : list Clause
}.

(** [struct ReductionStats], integer fields only (ratios and time are
    derived doubles and wall-clock readings). *)
Record ReductionStats := mkStats {
  originalVars : Z;
  originalClauses : Z;
  reducedVars : Z;
  reducedClauses : Z;
  auxVarsAdded : Z;
  totalLiteralsOriginal : Z;
  totalLiteralsReduced : Z
}.

(** [reduceSize1(lit)]: mints [y = nextAuxVar++], [z = nextAuxVar++].
    The [int] counter is threaded explicitly; [++] and the negations [-y],
    [-z] are [int] arithmetic. *)
Definition reduceSize1 (lit : Z) (nextAuxVar : Z) : list Clause * Z :=
  let y := nextAuxVar in
  let z := wrap32 (nextAuxVar + 1) in
  ([[lit; y; z]; [lit; y; wrap32 (- z)]; [lit; wrap32 (- y); z];
    [lit; wrap32 (- y); wrap32 (- z)]], wrap32 (z + 1)).

(** [reduceSize2(lit1, lit2)] *)
Definition reduceSize2 (lit1 lit2 : Z) (nextAuxVar : Z) : list Clause * Z :=
  let y := nextAuxVar in
  ([[lit1; lit2; y]; [lit1; lit2; wrap32 (- y)]], wrap32 (nextAuxVar + 1)).

(** [k] turns of [auxVars.push_back(nextAuxVar++)]: the values pushed, in
    order, and the new counter. *)
Fixpoint mint (k : nat) (nextAuxVar : Z) : list Z * Z :=
  match k with
  | O => ([], nextAuxVar)
  | S k' =>
      let (ys, n) := mint k' (wrap32 (nextAuxVar + 1)) in
      (nextAuxVar :: ys, n)
  end.

(** [for (int i = 0; i < n; i++) body(i)] collecting the bodies. *)
Definition for_upto {A} (n : nat) (body : nat -> A) : list A :=
  map body (seq 0 n).

(** [reduceSizeK(lits)]: [k - 3] auxiliaries [auxVars], the first clause,
    the [k - 4] intermediate clauses and the last clause, with C++ vector
    indexing [lits[i]] as [nth i lits 0]. *)
Definition reduceSizeK (lits : list Z) (nextAuxVar : Z) : list Clause * Z :=
  let k := length lits in
  if (k <? 4)%nat then ([], nextAuxVar) else
  let (auxVars, next) := mint (k - 3) nextAuxVar in
  let first := [nth 0 lits 0; nth 1 lits 0; nth 0 auxVars 0] in
  let middle := for_upto (k - 4) (fun i =>
                  [wrap32 (- nth i auxVars 0); nth (i + 2) lits 0; nth (i + 1) auxVars 0]) in
  let last := [wrap32 (- nth (k - 4) auxVars 0); nth (k - 2) lits 0; nth (k - 1) lits 0] in
  ([first] ++ middle ++ [last], next).

(** One iteration of the clause loop of [reduce]: the clauses appended to
    [reduced.clauses] and the new value of [nextAuxVar]. *)
Definition reduce_clause (nextAuxVar : Z) (clause : Clause) : list Clause * Z :=
  match clause with
  | [] => ([], nextAuxVar)                       (* size == 0: continue *)
  | [l] => reduceSize1 l nextAuxVar
  | [l1; l2] => reduceSize2 l1 l2 nextAuxVar
  | [_; _; _] => ([clause], nextAuxVar)
  | _ => reduceSizeK clause nextAuxVar
  end.

(** The loop [for (const auto& clause : original.clauses)]. *)
Fixpoint reduce_loop (nextAuxVar : Z) (cs : list Clause) : list Clause * Z :=
  match cs with
  | [] => ([], nextAuxVar)
  | c :: cs' =>
      let (out, n1) := reduce_clause nextAuxVar c in
      let (rest, n2) := reduce_loop n1 cs' in
      (out ++ rest, n2)
  end.

Definition total_literals (cs : list Clause) : Z :=
  fold_left (fun acc c => acc + Z.of_nat (length c)) cs 0.

(** [SATto3SATReducer::reduce]: the reduced formula and its statistics.
    [original.numVars] is an [int]: the [Z] field is read as [wrap32] of
    it, the identity on every [int]. [nextAuxVar = original.numVars + 1],
    [reduced.numVars = nextAuxVar - 1] and [auxVarsAdded] are [int]
    arithmetic. *)
Definition reduce (original : CNFFormula) : CNFFormula * ReductionStats :=
  let N := wrap32 (numVars original) in
  let (out, nextAuxVar) := reduce_loop (wrap32 (N + 1)) (clauses original) in
  let reduced := mkCNF (wrap32 (nextAuxVar - 1)) (Z.of_nat (length out)) out in
  (reduced,
   mkStats N (Z.of_nat (length (clauses original)))
           (numVars reduced) (numClauses reduced)
           (wrap32 (numVars reduced - N))
           (total_literals (clauses original)) (total_literals out)).

(** Semantics of CNF over an assignment of the variables to booleans. *)
Definition lit_true (a : Z -> bool) (l : Z) : bool :=
  if 0 <? l then a l else negb (a (- l)).

Definition clause_true (a : Z -> bool) (c : Clause) : bool :=
  existsb (lit_true a) c.

Definition cnf_true (a : Z -> bool) (cs : list Clause) : bool :=
  forallb (clause_true a) cs.

Definition satisfiable (cs : list Clause) : Prop :=
  exists a, cnf_true a cs = true.

(** The per-size replacement rules as the specification's table states
    them (section 4.6), with the auxiliaries numbered from [n]. The chain
    for [k >= 4] is written as the spec draws it: [(x1 v x2 v y1)], then
    [(~y_i v x_{i+2} v y_{i+1})], closing with [(~y_{k-3} v x_{k-1} v x_k)]. *)
Fixpoint spec_chain_tail (y : Z) (xs : list Z) : list Clause :=
  match xs with
  | [a; b] => [[- y; a; b]]
  | a :: xs' => [- y; a; y + 1] :: spec_chain_tail (y + 1) xs'
  | [] => []
  end.

Definition spec_rule (n : Z) (c : Clause) : list Clause :=
  match c with
  | [] => [[]]
  | [x] => [[x; n; n + 1]; [x; n; - (n + 1)]; [x; - n; n + 1]; [x; - n; - (n + 1)]]
  | [a; b] => [[a; b; n]; [a; b; - n]]
  | [_; _; _] => [c]
  | x1 :: x2 :: xs => [x1; x2; n] :: spec_chain_tail n xs
  end.

(** Number of fresh variables per the table. *)
Definition spec_aux (k : nat) : Z :=
  match k with
  | 0%nat => 0 | 1%nat => 2 | 2%nat => 1 | 3%nat => 0
  | _ => Z.of_nat k - 3
  end.

(** The whole reduction per the table: auxiliaries minted consecutively
    from [n] in clause order. *)
Fixpoint spec_reduce (n : Z) (cs : list Clause) : list Clause :=
  match cs with
  | [] => []
  | c :: cs' => spec_rule n c ++ spec_reduce (n + spec_aux (length c)) cs'
  end.

(** Number of fresh variables the table uses for a list of clauses. *)
Definition aux_total (cs : list Clause) : Z :=
  fold_right (fun c acc => spec_aux (length c) + acc) 0 cs.

(** Every number of a clause list taken as a C++ [int]. *)
Definition wrap_clauses (cs : list Clause) : list Clause := map (map wrap32) cs.

(** Number of clauses the table emits for an original clause of size [k]. *)
Definition spec_out (k : nat) : Z :=
  match k with
  | 0%nat => 1 | 1%nat => 4 | 2%nat => 2 | 3%nat => 1
  | _ => Z.of_nat k - 2
  end.

(** Projection of an assignment onto the original variables [1..N]. *)
Definition restrict (N : Z) (a : Z -> bool) : Z -> bool :=
  fun v => if v <=? N then a v else false.

(** The formula invariant of the data model: every literal has its variable
    in [1, N]. *)
Definition wf_formula (F : CNFFormula) : Prop :=
  0 <= numVars F /\
  Forall (fun c : Clause => Forall (fun l => 1 <= Z.abs l <= numVars F) c) (clauses F).

(** Number of unit clauses of a clause list. *)
Definition unit_clauses (cs : list Clause) : Z :=
  Z.of_nat (length (List.filter (fun c : Clause => Nat.eqb (length c) 1) cs)).

End Reducer.

(* ===================================================================== *)
(** * Witness verifier (SATVerifcator.cpp) *)
(* ===================================================================== *)
Module Verifier.

(** [struct Clause { vector<int> literals; }] *)
Definition Clause := list Z.

(** [struct CNFInstance] *)
Record CNFInstance := mkInstance {
  inumVars : Z;
  inumClauses : Z;
  iclauses : list Clause
}.

(** [struct Solution]: [vector<int8_t> assignment] with -1 unset, 0 false,
    1 true, index 0 unused. *)
Record Solution := mkSolution {
  assignment : list Z;
  snumVars : Z
}.

(** [std::vector::operator[]] on an index already checked in range. *)
Definition at_ (v : list Z) (i : Z) : Z := nth (Z.to_nat i) v 0.

(** [Clause::isSatisfied(assignment)]: the first literal whose variable is
    in range, set, and of the matching sign makes the clause true. *)
Fixpoint isSatisfied (literals : Clause) (a : list Z) : bool :=
  match literals with
  | [] => false
  | lit :: rest =>
      let var := Z.abs lit in
      let sign := 0 <? lit in
      if (var <? Z.of_nat (length a)) && negb (at_ a var =? -1) then
        let varValue := at_ a var =? 1 in
        if Bool.eqb varValue sign then true else isSatisfied rest a
      else isSatisfied rest a
  end.

(** The solution [Solution(int vars)] builds when [resize] succeeds:
    [vars + 1] entries [-1]. *)
Definition Solution_init (vars : Z) : Solution :=
  mkSolution (repeat (-1) (Z.to_nat (vars + 1))) vars.

(** [Solution(int vars)]: [assignment.resize(vars + 1, -1)], which throws
    [std::length_error] ([None]) when the [int] [vars + 1] is negative. *)
Definition Solution_new (vars : Z) : option Solution :=
  if resize_fails (vars + 1) then None else Some (Solution_init vars).

(** [Solution::setLiteral(lit)] *)
Definition setLiteral (lit : Z) (s : Solution) : Solution :=
  let var := Z.abs lit in
  let value := 0 <? lit in
  if (0 <=? var) && (var <? Z.of_nat (length (assignment s))) then
    mkSolution (<[Z.to_nat var := if value then 1 else 0]> (assignment s)) (snumVars s)
  else s.

(** The literal loop of [SolutionParser::parse] on one [v] line:
    [while (iss >> lit) { if (lit == 0) break; solution.setLiteral(lit); }]. *)
Fixpoint read_v_line (lits : list Z) (s : Solution) : Solution :=
  match lits with
  | [] => s
  | lit :: rest => if lit =? 0 then s else read_v_line rest (setLiteral lit s)
  end.

(** [SolutionParser::parse] once the file is split into its [v] lines:
    [None] when the [Solution] constructor throws. *)
Definition parse_solution (numVars : Z) (vlines : list (list Z)) : option Solution :=
  option_map (fun s0 => fold_left (fun s l => read_v_line l s) vlines s0)
    (Solution_new numVars).

(** Result of [SATVerifier::verify]: the verdict and the counters and
    index list the message is built from. *)
Record VerifyResult := mkResult {
  isSat : bool;
  satisfiedClauses : Z;
  unsatisfiedClauses : Z;
  unsatisfiedIndices : list Z
}.

(** The clause loop of [verify], from index [i], with its counters. *)
Fixpoint verify_loop (a : list Z) (i : Z) (cs : list Clause)
    (sat unsat : Z) (idx : list Z) : Z * Z * list Z :=
  match cs with
  | [] => (sat, unsat, idx)
  | c :: cs' =>
      if isSatisfied c a then verify_loop a (i + 1) cs' (sat + 1) unsat idx
      else
        let idx' := idx ++ [i] in
        if (10 <? length idx')%nat then (sat, unsat + 1, idx')
        else verify_loop a (i + 1) cs' sat (unsat + 1) idx'
  end.

(** [SATVerifier::verify(instance, solution)] *)
Definition verify (inst : CNFInstance) (sol : Solution) : VerifyResult :=
  match iclauses inst with
  | [] => mkResult true 0 0 []
  | cs =>
      match verify_loop (assignment sol) 0 cs 0 0 [] with
      | (sat, unsat, idx) => mkResult (unsat =? 0) sat unsat idx
      end
  end.

End Verifier.

(* ===================================================================== *)
(** * Data shared by the two solver files *)
(* ===================================================================== *)
(** [Lit], [Clause], [Assignment], [TimeoutManager] and the VSIDS helpers
    are written the same way in SATSolverOverOptmised.cpp and
    SATSOLverOPtimsed2.cpp; only [Assignment::assign] differs (modules
    [Asg1] and [Asg2] below). *)
Module Solver.

(** [struct Lit { int var; bool sign; }]; [Lit()] is [Lit(0, true)]. *)
Record Lit := mkLit { var : Z; sign : bool }.
Definition Lit_default : Lit := mkLit 0 true.

(** [Lit::toInt] *)
Definition toInt (l : Lit) : Z := if sign l then var l else - var l.

(** [struct Clause { vector<Lit> literals; int id; }] *)
Record Clause := mkClause { literals : list Lit; id : Z }.

(** The clause lines of [CNFParser::parse]: [Lit(abs(lit), lit > 0)] for
    each literal; an empty line is dropped, the others are numbered. *)
Fixpoint parse_clauses (clauseId : Z) (lines : list (list Z)) : list Clause :=
  match lines with
  | [] => []
  | l :: ls =>
      let lits := map (fun lit => mkLit (Z.abs lit) (0 <? lit)) l in
      match lits with
      | [] => parse_clauses clauseId ls
      | _ => mkClause lits clauseId :: parse_clauses (clauseId + 1) ls
      end
  end.

(** [struct Assignment { vector<int8_t> values; vector<int> trail; }] *)
Record Assignment := mkAsg { values : list Z; trail : list Z }.

(** [Assignment(int maxVars)]: [values.resize(maxVars + 1, -1)], when it
    does not throw ([resize_fails (maxVars + 1)] is tested by the [solve]
    functions that build one). *)
Definition Assignment_init (maxVars : Z) : Assignment :=
  mkAsg (repeat (-1) (Z.to_nat (maxVars + 1))) [].

(** [values[i]] on an index already checked in range. *)
Definition at_ (v : list Z) (i : Z) : Z := nth (Z.to_nat i) v 0.

(** The guard [var > 0 && var < values.size()]. *)
Definition in_range (a : Assignment) (v : Z) : bool :=
  (0 <? v) && (v <? Z.of_nat (length (values a))).

(** [Assignment::contains] *)
Definition contains (a : Assignment) (v : Z) : bool :=
  in_range a v && negb (at_ (values a) v =? -1).

(** [Assignment::getValue] *)
Definition getValue (a : Assignment) (v : Z) : bool := at_ (values a) v =? 1.

(** [Assignment::unassign]: clears the value, leaves the trail alone. *)
Definition unassign (a : Assignment) (v : Z) : Assignment :=
  if in_range a v then mkAsg (<[Z.to_nat v := -1]> (values a)) (trail a)
  else a.

(** The loop of [Assignment::backtrackTo(position)]:
    [while (trail.size() > position) { unassign(trail.back()); trail.pop_back(); }].
    The comparison is between [size_t] and [int], so a negative [position]
    is converted to a huge unsigned value and nothing is popped. Each turn
    pops one entry, so [length trail] turns are enough. *)
Fixpoint backtrack_loop (fuel : nat) (position : Z) (a : Assignment) : Assignment :=
  match fuel with
  | O => a
  | S f =>
      if (0 <=? position) && (position <? Z.of_nat (length (trail a))) then
        let a1 := unassign a (List.last (trail a) 0) in
        backtrack_loop f position (mkAsg (values a1) (removelast (trail a)))
      else a
  end.

Definition backtrackTo (a : Assignment) (position : Z) : Assignment :=
  backtrack_loop (length (trail a)) position a.

(** Solver state: the assignment, the VSIDS fields [activity] and [varInc]
    of [FastCDCLSolver], and the [checkCounter] of the [TimeoutManager]. *)
Record St := mkSt {
  asg : Assignment;
  activity : list float;
  varInc : float;
  checkCounter : Z
}.

Definition set_asg (a : Assignment) (s : St) : St :=
  mkSt a (activity s) (varInc s) (checkCounter s).

(** Outcome of a computation on the state: a value and the new state, the
    [runtime_error("TIMEOUT")] thrown by [TimeoutManager::check], or
    [OutOfFuel] when a bounded loop of the model ran out of turns (a
    result of the model, never of the C++ code; the fuel given below is
    enough on well-formed input, and every concrete run below ends in
    [Ok]), or the [std::length_error] thrown by a [resize] of the
    solver's constructor. *)
Inductive Res (A : Type) : Type :=
| Ok (x : A) (s : St)
| Timeout
| OutOfFuel
| LengthError.
Arguments Ok {A} x s.
Arguments Timeout {A}.
Arguments OutOfFuel {A}.
Arguments LengthError {A}.

Definition M (A : Type) : Type := St -> Res A.

Definition ret {A} (x : A) : M A := fun s => Ok x s.

Definition bind {A B} (m : M A) (k : A -> M B) : M B :=
  fun s => match m s with
           | Ok x s' => k x s'
           | Timeout => Timeout
           | OutOfFuel => OutOfFuel
           | LengthError => LengthError
           end.

Notation "'let*' x ':=' m 'in' k" := (bind m (fun x => k))
  (at level 200, x name, m at level 100, k at level 200).

Definition get : M St := fun s => Ok s s.
Definition modify (f : St -> St) : M unit := fun s => Ok tt (f s).
Definition out_of_fuel {A} : M A := fun _ => OutOfFuel.

(** [TimeoutManager::check]: [if (++checkCounter % 10000 == 0)] the clock
    is read and [elapsed > timeoutSeconds] throws. The clock is an input of
    the program: [expired c] is the outcome of that comparison when it is
    made at counter value [c]. *)
Definition tm_check (expired : Z -> bool) : M unit :=
  fun s =>
    let c := checkCounter s + 1 in
    if (c mod 10000 =? 0) && expired c then Timeout
    else Ok tt (mkSt (asg s) (activity s) (varInc s) c).

(** [FastCDCLSolver::bumpActivity] *)
Definition bumpActivity (v : Z) (s : St) : St :=
  let act := activity s in
  if (v <=? 0) || (Z.of_nat (length act) <=? v) then s
  else
    let x := (nth (Z.to_nat v) act 0 + varInc s)%float in
    let act1 := <[Z.to_nat v := x]> act in
    if PrimFloat.ltb 1e100 x then
      mkSt (asg s) (map (fun y => y * 1e-100)%float act1)
           (varInc s * 1e-100)%float (checkCounter s)
    else mkSt (asg s) act1 (varInc s) (checkCounter s).

(** [FastCDCLSolver::decayActivities]: [varInc /= varDecay], [varDecay = 0.95]. *)
Definition decayActivities (s : St) : St :=
  mkSt (asg s) (activity s) (varInc s / 0.95)%float (checkCounter s).

(** The loop of [FastCDCLSolver::selectVariable]: the first unset variable
    of highest activity, compared strictly against [bestScore]. *)
Fixpoint select_loop (a : Assignment) (act : list float) (i : Z) (n : nat)
    (bestVar : Z) (bestScore : float) : Z :=
  match n with
  | O => bestVar
  | S n' =>
      let x := nth (Z.to_nat i) act 0%float in
      if negb (contains a i) && PrimFloat.ltb bestScore x
      then select_loop a act (i + 1) n' i x
      else select_loop a act (i + 1) n' bestVar bestScore
  end.

(** [selectVariable]: [bestVar = -1], [bestScore = -1], [i] from 1 to [numVars]. *)
Definition selectVariable (numVars : Z) (s : St) : Z :=
  select_loop (asg s) (activity s) 1 (Z.to_nat numVars) (-1) (-1)%float.

(** The fallback loop of [solve]: the first [i] in [1..numVars] that is not
    set, or [-1]. *)
Fixpoint first_unset (a : Assignment) (i : Z) (n : nat) : Z :=
  match n with
  | O => -1
  | S n' => if negb (contains a i) then i else first_unset a (i + 1) n'
  end.

(** The clause test of the totality check of the watched-literal [solve]
    (and of [NaiveSolver::isSatisfied]): some literal is set with its sign. *)
Definition clause_sat (a : Assignment) (c : Clause) : bool :=
  existsb (fun lit => contains a (var lit) && Bool.eqb (getValue a (var lit)) (sign lit))
    (literals c).

(** The [v] line written by [saveSolutionToFile]: for [i] in [1..numVars]
    that is set, [i] if true and [-i] if false. *)
Definition solution_line (a : Assignment) (numVars : Z) : list Z :=
  List.concat (map (fun k : nat =>
    let i := Z.of_nat k in
    if contains a i then [if getValue a i then i else - i] else [])
    (seq 1 (Z.to_nat numVars))).

(** Initial state built by the [FastCDCLSolver] constructor and a fresh
    [TimeoutManager]: [assignment(nv)], [activity.resize(nv + 1, 0.0)],
    [varInc = 1.0], [checkCounter = 0]. *)
Definition init_state (numVars : Z) : St :=
  mkSt (Assignment_init numVars) (repeat 0%float (Z.to_nat (numVars + 1))) 1%float 0.

(** Result of one turn of the [while] loop of [solve]: [continue] with the
    new [conflicts] and [decisions], or [return] of the pair. *)
Inductive Step :=
| Continue (conflicts decisions : Z)
| Return (r : bool * Assignment).

End Solver.

(** [Assignment::assign] of SATSolverOverOptmised.cpp: no test on the
    current value, the variable is pushed on the trail in any case. *)
Module Asg1.
Import Solver.
Definition assign (a : Assignment) (v : Z) (value : bool) : Assignment :=
  if in_range a v then
    mkAsg (<[Z.to_nat v := if value then 1 else 0]> (values a)) (trail a ++ [v])
  else a.
End Asg1.

(** [Assignment::assign] of SATSOLverOPtimsed2.cpp: only when
    [values[var] == -1]. *)
Module Asg2.
Import Solver.
Definition assign (a : Assignment) (v : Z) (value : bool) : Assignment :=
  if in_range a v then
    if at_ (values a) v =? -1 then
      mkAsg (<[Z.to_nat v := if value then 1 else 0]> (values a)) (trail a ++ [v])
    else a
  else a.
End Asg2.

(* ===================================================================== *)
(** * Watched-literal CDCL (SATSolverOverOptmised.cpp, [FastCDCLSolver]) *)
(* ===================================================================== *)
Module CDCL1.
Import Solver.

Section Solve.
(** The solver's fields [clauses] and [numVars], and the clock. *)
Variable expired : Z -> bool.
Variable clauses : list Clause.
Variable numVars : Z.

(** [litToIdx] *)
Definition litToIdx (lit : Z) : Z := if 0 <? lit then 2 * lit else 2 * (- lit) + 1.

(** [watches[idx].push_back(i)] *)
Definition push_watch (idx i : Z) (w : list (list Z)) : list (list Z) :=
  alter (fun l => l ++ [i]) (Z.to_nat idx) w.

(** The loop of [initWatches] from clause index [i]. *)
Fixpoint initWatches_loop (i : Z) (cs : list Clause) (w : list (list Z)) : list (list Z) :=
  match cs with
  | [] => w
  | c :: cs' =>
      let w1 := match literals c with
                | l0 :: _ => push_watch (litToIdx (toInt l0)) i w
                | [] => w
                end in
      let w2 := match literals c with
                | _ :: l1 :: _ => push_watch (litToIdx (toInt l1)) i w1
                | _ => w1
                end in
      initWatches_loop (i + 1) cs' w2
  end.

(** [initWatches]: [watches.resize(2 * numVars + 2)], then literals 0 and 1
    of every clause. *)
Definition watches : list (list Z) :=
  initWatches_loop 0 clauses (repeat [] (Z.to_nat (2 * numVars + 2))).

(** The literal loop of [propagate] on one clause: [satisfied], the last
    unset literal seen, and [unassignedCount]. *)
Fixpoint scan (a : Assignment) (lits : list Lit) (u : Lit) (cnt : Z) : bool * Lit * Z :=
  match lits with
  | [] => (false, u, cnt)
  | lit :: rest =>
      if contains a (var lit) then
        if Bool.eqb (getValue a (var lit)) (sign lit) then (true, u, cnt)
        else scan a rest u cnt
      else scan a rest lit (cnt + 1)
  end.

(** The [for] loop over [watchList]: [None] is the conflict ([return
    false]), otherwise the queue with the pushed literals. *)
Fixpoint visit (ws : list Z) (queue : list Z) : M (option (list Z)) :=
  match ws with
  | [] => ret (Some queue)
  | clauseIdx :: ws' =>
      let* s := get in
      let c := nth (Z.to_nat clauseIdx) clauses (mkClause [] (-1)) in
      match scan (asg s) (literals c) Lit_default 0 with
      | (true, _, _) => visit ws' queue
      | (false, u, cnt) =>
          if cnt =? 0 then ret None
          else if cnt =? 1 then
            let* _ := modify (fun s => bumpActivity (var u)
                        (set_asg (Asg1.assign (asg s) (var u) (sign u)) s)) in
            visit ws' (queue ++ [if sign u then - var u else var u])
          else visit ws' queue
      end
  end.

(** The [while (!propQueue.empty())] loop. One turn per dequeued literal;
    every literal but the first is pushed by an assignment of an unset
    variable. *)
Fixpoint prop_loop (fuel : nat) (queue : list Z) : M bool :=
  match queue with
  | [] => ret true
  | falseLit :: rest =>
      match fuel with
      | O => out_of_fuel
      | S f =>
          let* _ := tm_check expired in
          let* r := visit (nth (Z.to_nat (litToIdx falseLit)) watches []) rest in
          match r with
          | None => ret false
          | Some q => prop_loop f q
          end
      end
  end.

(** [propagate]: the queue starts with the negation of the last trail entry. *)
Definition propagate : M bool :=
  let* s := get in
  let a := asg s in
  let queue := match trail a with
               | [] => []
               | _ => let v := List.last (trail a) 0 in
                      [if getValue a v then - v else v]
               end in
  prop_loop (S (length (values a))) queue.

(** [tm->check()] then [propagate(tm)], as at the top of each turn. *)
Definition check_propagate : M bool :=
  let* _ := tm_check expired in propagate.

(** The turn of [solve] after propagation, with [decisions] already
    incremented. *)
Definition after_propagate (ok : bool) (conflicts decisions : Z) : M Step :=
  let* s := get in
  let a := asg s in
  if negb ok then
    let conflicts := conflicts + 1 in
    if Z.of_nat (length (trail a)) <=? 1 then ret (Return (false, a))
    else
      let a := backtrackTo a (Z.of_nat (length (trail a)) / 2) in
      let* _ := modify (set_asg a) in
      let* _ := if conflicts mod 50 =? 0 then modify decayActivities else ret tt in
      if 100 <? conflicts then
        let* _ := modify (set_asg (backtrackTo a 0)) in
        ret (Continue 0 decisions)
      else ret (Continue conflicts decisions)
  else
    if (Z.of_nat (length (trail a)) =? numVars) && forallb (clause_sat a) clauses
    then ret (Return (true, a))
    else
      let v := selectVariable numVars s in
      let v := if v =? -1 then first_unset a 1 (Z.to_nat numVars) else v in
      if v =? -1 then ret (Return (Z.of_nat (length (trail a)) =? numVars, a))
      else
        let polarity := if decisions mod 3 =? 0 then false else true in
        let* _ := modify (set_asg (Asg1.assign a v polarity)) in
        ret (Continue conflicts decisions).

(** One turn of [while (decisions < 1000000)]. *)
Definition body (conflicts decisions : Z) : M Step :=
  let* ok := check_propagate in
  after_propagate ok conflicts (decisions + 1).

(** The [while] loop; each turn increments [decisions], so 1000001 turns of
    fuel are enough. *)
Fixpoint solve_loop (fuel : nat) (conflicts decisions : Z) : M (bool * Assignment) :=
  match fuel with
  | O => out_of_fuel
  | S f =>
      if decisions <? 1000000 then
        let* st := body conflicts decisions in
        match st with
        | Return r => ret r
        | Continue c d => solve_loop f c d
        end
      else let* s := get in ret (false, asg s)
  end.

(** [FastCDCLSolver(cls, nv).solve(&tm)]: the constructor's
    [assignment(nv)], [activity.resize(nv + 1, 0.0)] and
    [watches.resize(2 * numVars + 2)] throw [std::length_error] when the
    [int] size is negative. *)
Definition solve : Res (bool * Assignment) :=
  if resize_fails (numVars + 1) || resize_fails (2 * numVars + 2) then LengthError
  else solve_loop (Z.to_nat 1000001) 0 0 (init_state numVars).

End Solve.
End CDCL1.

(* ===================================================================== *)
(** * Re-scan CDCL (SATSOLverOPtimsed2.cpp, [FastCDCLSolver]) *)
(* ===================================================================== *)
Module CDCL2.
Import Solver.

(** [Clause::isSatisfied(values)]: [lit.var < values.size()] compares an
    [int] with a [size_t], so a negative variable fails the test. *)
Definition isSatisfied (c : Clause) (v : list Z) : bool :=
  existsb (fun lit => (0 <=? var lit) && (var lit <? Z.of_nat (length v))
                      && negb (at_ v (var lit) =? -1)
                      && Bool.eqb (at_ v (var lit) =? 1) (sign lit))
    (literals c).

(** [Assignment::verifySolution] *)
Definition verifySolution (a : Assignment) (cs : list Clause) : bool :=
  forallb (fun c => isSatisfied c (values a)) cs.

Section Solve.
Variable expired : Z -> bool.
Variable clauses : list Clause.
Variable numVars : Z.

(** The literal loop of [unitPropagation] on one clause: the last unset
    literal, [unassignedCount] and [hasConflict]. *)
Fixpoint scan (a : Assignment) (lits : list Lit) (u : Lit) (cnt : Z) (hasConflict : bool)
    : Lit * Z * bool :=
  match lits with
  | [] => (u, cnt, hasConflict)
  | lit :: rest =>
      if negb (contains a (var lit)) then scan a rest lit (cnt + 1) false
      else if Bool.eqb (getValue a (var lit)) (sign lit) then (u, cnt, false)
      else scan a rest u cnt hasConflict
  end.

(** One pass of [for (const auto& clause : clauses)]: [None] is the
    conflict ([return false]), otherwise the new [changed]. *)
Fixpoint pass (cs : list Clause) (changed : bool) : M (option bool) :=
  match cs with
  | [] => ret (Some changed)
  | c :: cs' =>
      let* s := get in
      if isSatisfied c (values (asg s)) then pass cs' changed
      else
        match scan (asg s) (literals c) Lit_default 0 true with
        | (u, cnt, hasConflict) =>
            if hasConflict && (cnt =? 0) then ret None
            else if cnt =? 1 then
              let* _ := modify (fun s => bumpActivity (var u)
                          (set_asg (Asg2.assign (asg s) (var u) (sign u)) s)) in
              pass cs' true
            else pass cs' changed
        end
  end.

(** [while (changed) { if (tm) tm->check(); changed = false; ... }]; a pass
    that sets [changed] has assigned an unset variable, so
    [values.size() + 1] passes are enough. *)
Fixpoint up_loop (fuel : nat) : M bool :=
  match fuel with
  | O => out_of_fuel
  | S f =>
      let* _ := tm_check expired in
      let* r := pass clauses false in
      match r with
      | None => ret false
      | Some true => up_loop f
      | Some false => ret true
      end
  end.

(** [unitPropagation(tm)] *)
Definition unitPropagation : M bool :=
  let* s := get in up_loop (S (length (values (asg s)))).

Definition check_propagate : M bool :=
  let* _ := tm_check expired in unitPropagation.

(** The turn of [solve] after propagation, [decisions] already incremented. *)
Definition after_propagate (ok : bool) (conflicts decisions : Z) : M Step :=
  let* s := get in
  let a := asg s in
  let len := Z.of_nat (length (trail a)) in
  if negb ok then
    let conflicts := conflicts + 1 in
    if len <=? 1 then ret (Return (false, a))
    else
      let a := backtrackTo a (Z.max 0 (len - 5)) in
      let* _ := modify (set_asg a) in
      let* _ := if conflicts mod 100 =? 0 then modify decayActivities else ret tt in
      if 200 * (1 + conflicts / 1000) <? conflicts then
        let* _ := modify (set_asg (backtrackTo a 0)) in
        ret (Continue 0 decisions)
      else ret (Continue conflicts decisions)
  else if len =? numVars then
    if verifySolution a clauses then ret (Return (true, a))
    else if 0 <? len then
      let* _ := modify (set_asg (backtrackTo a (len / 2))) in
      ret (Continue conflicts decisions)
    else ret (Return (false, a))
  else
    let v := selectVariable numVars s in
    let v := if v =? -1 then first_unset a 1 (Z.to_nat numVars) else v in
    if v =? -1 then
      if verifySolution a clauses then ret (Return (true, a)) else ret (Return (false, a))
    else
      let polarity := decisions mod 2 =? 0 in
      let* _ := modify (set_asg (Asg2.assign a v polarity)) in
      ret (Continue conflicts decisions).

(** One turn of [while (decisions < maxDecisions)]. *)
Definition body (conflicts decisions : Z) : M Step :=
  let* ok := check_propagate in
  after_propagate ok conflicts (decisions + 1).

(** [maxDecisions = 5000000] *)
Fixpoint solve_loop (fuel : nat) (conflicts decisions : Z) : M (bool * Assignment) :=
  match fuel with
  | O => out_of_fuel
  | S f =>
      if decisions <? 5000000 then
        let* st := body conflicts decisions in
        match st with
        | Return r => ret r
        | Continue c d => solve_loop f c d
        end
      else let* s := get in ret (false, asg s)
  end.

(** [FastCDCLSolver(cls, nv).solve(&tm)]: [assignment(nv)] and
    [activity.resize(nv + 1, 0.0)] throw [std::length_error] when the
    [int] [nv + 1] is negative. *)
Definition solve : Res (bool * Assignment) :=
  if resize_fails (numVars + 1) then LengthError
  else solve_loop (Z.to_nat 5000001) 0 0 (init_state numVars).

End Solve.
End CDCL2.

(* ===================================================================== *)
(** * NaiveSolver and MOMSSolver (both solver files) *)
(* ===================================================================== *)
(** The four classes share one recursive search, [dpll]; they differ in
    the satisfaction test ([isSatisfied] or [verifySolution]), in
    [Assignment::assign] ([Asg1] or [Asg2]) and in the choice of the
    branching variable (first unset variable, or [selectVariableMOMS]).
    [nodesExplored] is a statistics counter that no branch reads, and is
    left out. *)
Module DPLL.
Import Solver.

Section Search.
Variable expired : Z -> bool.
Variable isSat : Assignment -> bool.
Variable assign : Assignment -> Z -> bool -> Assignment.
Variable select : Assignment -> Z.

(** [dpll(clauses, assignment, numVars, tm)]. Each level of the recursion
    sets one more variable, so [fuel] bounds the depth; running out of it is
    a limit of the model, [OutOfFuel]. *)
Fixpoint dpll (fuel : nat) : M bool :=
  match fuel with
  | O => out_of_fuel
  | S f =>
      let* _ := tm_check expired in
      let* s := get in
      if isSat (asg s) then ret true
      else
        let var := select (asg s) in
        if var =? -1 then ret false
        else
          let* _ := modify (fun s => set_asg (assign (asg s) var true) s) in
          let* r := dpll f in
          if r then ret true
          else
            let* _ := modify (fun s => set_asg (unassign (asg s) var) s) in
            let* _ := modify (fun s => set_asg (assign (asg s) var false) s) in
            let* r := dpll f in
            if r then ret true
            else
              let* _ := modify (fun s => set_asg (unassign (asg s) var) s) in
              ret false
  end.

(** [solve(clauses, numVars, tm)]: a fresh [Assignment(numVars)] (which
    throws [std::length_error] when the [int] [numVars + 1] is negative)
    and a fresh [TimeoutManager]; the depth is at most [numVars + 1]. *)
Definition solve (numVars : Z) : Res (bool * Assignment) :=
  if resize_fails (numVars + 1) then LengthError
  else
  (let* r := dpll (Z.to_nat numVars + 2) in
   let* s := get in
   ret (r, asg s)) (init_state numVars).

End Search.

(** [NaiveSolver::isSatisfied] of SATSolverOverOptmised.cpp. *)
Definition naive_isSatisfied (clauses : list Clause) (a : Assignment) : bool :=
  forallb (clause_sat a) clauses.

(** The variable loop of [NaiveSolver::dpll]: the first [i] in
    [1..numVars] with [!assignment.contains(i)], or [-1]. *)
Definition naive_select (numVars : Z) (a : Assignment) : Z :=
  first_unset a 1 (Z.to_nat numVars).

(** [litCount[lit.toInt()]++]: [operator[]] inserts [0] for a new key. *)
Definition count_lit (m : gmap Z Z) (k : Z) : gmap Z Z :=
  <[k := default 0 (m !! k) + 1]> m.

(** The counting loop of [selectVariableMOMS]: for every clause that
    [clauseSat] does not find satisfied, each literal of an unset variable
    is counted. *)
Definition litCount (clauseSat : Assignment -> Clause -> bool)
    (clauses : list Clause) (a : Assignment) : gmap Z Z :=
  fold_left (fun m c =>
    if clauseSat a c then m
    else fold_left (fun m lit =>
           if negb (contains a (var lit)) then count_lit m (toInt lit) else m)
         (literals c) m)
    clauses ∅.

(** [for (const auto& [lit, count] : litCount) if (count > maxCount) ...] *)
Fixpoint best_loop (entries : list (Z * Z)) (bestLit maxCount : Z) : Z :=
  match entries with
  | [] => bestLit
  | (lit, count) :: rest =>
      if maxCount <? count then best_loop rest lit count
      else best_loop rest bestLit maxCount
  end.

(** [selectVariableMOMS]. The iteration order of the [unordered_map] is
    not fixed by the language; [order m] lists the entries of [m] in that
    order. *)
Definition selectVariableMOMS (order : gmap Z Z -> list (Z * Z))
    (clauseSat : Assignment -> Clause -> bool) (clauses : list Clause)
    (a : Assignment) : Z :=
  let m := litCount clauseSat clauses a in
  if decide (m = ∅) then -1
  else
    match order m with
    | [] => -1
    | (lit, count) :: _ => Z.abs (best_loop (order m) lit count)
    end.

(** The clause test inlined in [selectVariableMOMS] of
    SATSOLverOPtimsed2.cpp: [clause.isSatisfied(assignment.values)]. *)
Definition isSatisfied2 (a : Assignment) (c : Clause) : bool :=
  CDCL2.isSatisfied c (values a).

(** The four [solve] functions. *)
Definition naive1_solve (expired : Z -> bool) (clauses : list Clause) (numVars : Z) :=
  solve expired (naive_isSatisfied clauses) Asg1.assign (naive_select numVars) numVars.

Definition naive2_solve (expired : Z -> bool) (clauses : list Clause) (numVars : Z) :=
  solve expired (fun a => CDCL2.verifySolution a clauses) Asg2.assign
    (naive_select numVars) numVars.

Definition moms1_solve (order : gmap Z Z -> list (Z * Z)) (expired : Z -> bool)
    (clauses : list Clause) (numVars : Z) :=
  solve expired (naive_isSatisfied clauses) Asg1.assign
    (selectVariableMOMS order clause_sat clauses) numVars.

Definition moms2_solve (order : gmap Z Z -> list (Z * Z)) (expired : Z -> bool)
    (clauses : list Clause) (numVars : Z) :=
  solve expired (fun a => CDCL2.verifySolution a clauses) Asg2.assign
    (selectVariableMOMS order isSatisfied2 clauses) numVars.

End DPLL.

(** * Clause size statistics of the reducer *)
Module ReducerStats.
Import Reducer.

(** [CNFFormula::getClauseSizeDistribution]: [dist[clause.size()]++] for
    each clause, [operator[]] inserting 0 for a new size. *)
Definition getClauseSizeDistribution (F : CNFFormula) : gmap Z Z :=
  fold_left (fun dist (c : Clause) =>
    <[Z.of_nat (length c) := default 0 (dist !! Z.of_nat (length c)) + 1]> dist)
    (clauses F) ∅.

End ReducerStats.

(** * Text input and output *)
Module TextIO.
Import String Ascii.

(** The character ['\n'] ([endl] writes it, then flushes). *)
Definition nl_char : ascii := ascii_of_nat 10.
Definition nl : string := String nl_char EmptyString.

(** [isspace] in the "C" locale: space, [\t], [\n], [\v], [\f], [\r]. *)
Definition isspace (c : ascii) : bool :=
  let n := nat_of_ascii c in
  Nat.eqb n 32 || ((9 <=? n)%nat && (n <=? 13)%nat).

Definition isdigit (c : ascii) : bool :=
  let n := nat_of_ascii c in (48 <=? n)%nat && (n <=? 57)%nat.

Definition digit_val (c : ascii) : Z := Z.of_nat (nat_of_ascii c) - 48.

Definition digit_char (d : Z) : ascii := ascii_of_nat (Z.to_nat (48 + d)).

(** [while (getline(file, line))]: the file split at ['\n']; the text after
    the last ['\n'] is one more line when it is not empty. *)
Fixpoint lines_from (s : string) (cur : string) : list string :=
  match s with
  | EmptyString => match cur with EmptyString => [] | _ => [cur] end
  | String c s' =>
      if Ascii.eqb c nl_char then cur :: lines_from s' EmptyString
      else lines_from s' (cur ++ String c EmptyString)
  end.

Definition getlines (s : string) : list string := lines_from s EmptyString.

(** The [sentry] of a formatted extraction skips white space. *)
Fixpoint skip_ws (s : string) : string :=
  match s with
  | String c s' => if isspace c then skip_ws s' else s
  | EmptyString => EmptyString
  end.

(** The characters of a word, up to the next white space. *)
Fixpoint skip_word (s : string) : string :=
  match s with
  | String c s' => if isspace c then s else skip_word s'
  | EmptyString => EmptyString
  end.

(** The digits read by [num_get], accumulated in base 10. *)
Fixpoint read_digits (s : string) (acc : Z) : Z * string :=
  match s with
  | String c s' => if isdigit c then read_digits s' (10 * acc + digit_val c) else (acc, s)
  | EmptyString => (acc, EmptyString)
  end.

(** An [istringstream]: the unread text, or [None] once [failbit] is set. *)
Definition istream := option string.

(** [iss >> s] for a [string s] (whose value is not used). *)
Definition read_word (st : istream) : istream :=
  match st with
  | None => None
  | Some s =>
      match skip_ws s with
      | EmptyString => None
      | s1 => Some (skip_word s1)
      end
  end.

(** [iss >> n] for an [int n]: the new stream and the new value of [n].
    A failed stream, or only white space left, fails without touching [n];
    otherwise [num_get] reads an optional sign and the digits: no digit
    stores 0 and fails, a value outside [int] stores [INT_MIN] or
    [INT_MAX] and fails (libstdc++'s [operator>>(int&)]). *)
Definition read_int (st : istream) (n : Z) : istream * Z :=
  match st with
  | None => (None, n)
  | Some s =>
      match skip_ws s with
      | EmptyString => (None, n)
      | String c s' as s1 =>
          let '(neg, s2) :=
            if Ascii.eqb c "-"%char then (true, s')
            else if Ascii.eqb c "+"%char then (false, s') else (false, s1) in
          match s2 with
          | String d _ =>
              if isdigit d then
                let '(v, s3) := read_digits s2 0 in
                let v := if neg then - v else v in
                if v <? INT_MIN then (None, INT_MIN)
                else if INT_MAX <? v then (None, INT_MAX)
                else (Some s3, v)
              else (None, 0)
          | EmptyString => (None, 0)
          end
      end
  end.

(** [while (iss >> lit && lit != 0) push(lit)]. Every successful read
    takes at least one character, so [String.length line + 1] turns are
    enough. *)
Fixpoint read_lits (fuel : nat) (st : istream) (lit : Z) : list Z :=
  match fuel with
  | O => []
  | S f =>
      let '(st', lit') := read_int st lit in
      match st' with
      | Some _ => if lit' =? 0 then [] else lit' :: read_lits f st' lit'
      | None => []
      end
  end.

Definition line_lits (line : string) : list Z :=
  read_lits (S (String.length line)) (Some line) 0.

(** [iss >> p >> cnf >> numVars >> numClauses] on a [p] line. *)
Definition read_header (line : string) (numVars numClauses : Z) : Z * Z :=
  let st := read_word (read_word (Some line)) in
  let '(st, numVars) := read_int st numVars in
  let '(_, numClauses) := read_int st numClauses in
  (numVars, numClauses).

(** [operator<<] on a non-negative integer: its decimal digits, most
    significant first (the fuel, one more than [log2 n], is enough). *)
Fixpoint show_digits (fuel : nat) (n : Z) (acc : string) : string :=
  match fuel with
  | O => acc
  | S f =>
      let acc' := String (digit_char (n mod 10)) acc in
      if n <? 10 then acc' else show_digits f (n / 10) acc'
  end.

Definition show_nonneg (n : Z) : string := show_digits (S (Z.to_nat (Z.log2 n))) n EmptyString.

(** [operator<<] on an [int] or a [long long]. *)
Definition show_Z (z : Z) : string :=
  if z <? 0 then String "-"%char (show_nonneg (- z)) else show_nonneg z.

End TextIO.


(* ===================================================================== *)
(** * File formats of the reducer (reductionSAT_3SAT.cpp) *)
(* ===================================================================== *)
Module ReducerIO.
Import String Ascii.
Import TextIO Reducer.

(** One turn of the [getline] loop of [CNFParser::parse]: empty and [c]
    lines are skipped, a [p] line sets the two counts, any other line is
    read as a clause, kept when it has a literal. *)
Definition parse_line (formula : CNFFormula) (line : string) : CNFFormula :=
  match line with
  | EmptyString => formula
  | String c _ =>
      if Ascii.eqb c "c"%char then formula
      else if Ascii.eqb c "p"%char then
        let '(nv, nc) := read_header line (numVars formula) (numClauses formula) in
        mkCNF nv nc (clauses formula)
      else
        match line_lits line with
        | [] => formula
        | lits => mkCNF (numVars formula) (numClauses formula) (clauses formula ++ [lits])
        end
  end.

(** [CNFParser::parse] on the contents of the file. *)
Definition CNFParser_parse (file : string) : CNFFormula :=
  fold_left parse_line (getlines file) (mkCNF 0 0 []).

(** [for (int lit : lits) file << lit << " ";] *)
Fixpoint show_lits (lits : list Z) : string :=
  match lits with
  | [] => EmptyString
  | l :: ls => show_Z l ++ " " ++ show_lits ls
  end.

(** Lines each ended by [endl]. *)
Fixpoint unlines (ls : list string) : string :=
  match ls with
  | [] => EmptyString
  | l :: ls' => l ++ nl ++ unlines ls'
  end.

(** [CNFWriter::write]: the text of the file. In
    [formula.numVars - formula.clauses.size()] the [int] is converted to
    [size_t]: the difference is taken modulo 2^64 and printed unsigned. *)
Definition CNFWriter_write (formula : CNFFormula) : string :=
  unlines
    (["c Formule 3-SAT générée par réduction";
      "c Variables originales: " ++
        show_nonneg ((numVars formula - Z.of_nat (List.length (clauses formula))) mod 2 ^ 64);
      "c Variables totales (avec auxiliaires): " ++ show_Z (numVars formula);
      "p cnf " ++ show_Z (numVars formula) ++ " " ++ show_Z (numClauses formula)]%string ++
     map (fun c => show_lits c ++ "0")%string (clauses formula)).

(** [line.substr(pos)]: [std::out_of_range] ([None]) when [pos] is past
    the end. *)
Fixpoint substr (pos : nat) (s : string) : option string :=
  match pos, s with
  | O, _ => Some s
  | S p, String _ s' => substr p s'
  | S _, EmptyString => None
  end.

(** One line of [SolutionConverter::convertSolution]: the text written for
    it, or [None] when [line.substr(2)] throws. Empty and [c] lines are
    copied; a [v] line keeps the literals read before the first [0] whose
    variable is at most [originalVars]; other lines are dropped.
    ([abs(INT_MIN)] is undefined in C++; it is [Z.abs] here, as in
    [Verifier.setLiteral].) *)
Definition convert_line (originalVars : Z) (line : string) : option string :=
  match line with
  | EmptyString => Some (line ++ nl)
  | String c _ =>
      if Ascii.eqb c "c"%char then Some (line ++ nl)
      else if Ascii.eqb c "v"%char then
        match substr 2 line with
        | None => None
        | Some rest =>
            let kept := List.filter (fun lit => Z.leb (Z.abs lit) originalVars) (line_lits rest) in
            Some ("v " ++ show_lits kept ++ "0" ++ nl)
        end
      else Some EmptyString
  end%string.

(** [SolutionConverter::convertSolution]: the text of the output file,
    [None] when the exception of [substr] escapes. *)
Fixpoint convert_lines (originalVars : Z) (lines : list string) : option string :=
  match lines with
  | [] => Some EmptyString
  | l :: ls =>
      match convert_line originalVars l, convert_lines originalVars ls with
      | Some t, Some u => Some (t ++ u)%string
      | _, _ => None
      end
  end.

Definition convertSolution (solution3SAT : string) (originalVars : Z) : option string :=
  convert_lines originalVars (getlines solution3SAT).

End ReducerIO.

(* ===================================================================== *)
(** * File formats of the verifier (SATVerifcator.cpp) *)
(* ===================================================================== *)
Module VerifierIO.
Import String Ascii.
Import TextIO Verifier.

(** One turn of the [getline] loop of [CNFParser::parse]. *)
Definition parse_line (instance : CNFInstance) (line : string) : CNFInstance :=
  match line with
  | EmptyString => instance
  | String c _ =>
      if Ascii.eqb c "c"%char then instance
      else if Ascii.eqb c "p"%char then
        let '(nv, nc) := read_header line (inumVars instance) (inumClauses instance) in
        mkInstance nv nc (iclauses instance)
      else
        match line_lits line with
        | [] => instance
        | lits => mkInstance (inumVars instance) (inumClauses instance) (iclauses instance ++ [lits])
        end
  end.

(** [CNFParser::parse] on the contents of the file. *)
Definition CNFParser_parse (file : string) : CNFInstance :=
  fold_left parse_line (getlines file) (mkInstance 0 0 []).

(** One turn of the [getline] loop of [SolutionParser::parse]; [None] once
    [line.substr(2)] has thrown [std::out_of_range]. *)
Definition solution_line (sol : option Solution) (line : string) : option Solution :=
  match sol with
  | None => None
  | Some s =>
      match line with
      | EmptyString => Some s
      | String c _ =>
          if Ascii.eqb c "c"%char then Some s
          else if Ascii.eqb c "v"%char then
            match ReducerIO.substr 2 line with
            | None => None
            | Some rest => Some (read_v_line (line_lits rest) s)
            end
          else Some s
      end
  end.

(** [SolutionParser::parse(filename, numVars)] on the contents of the file;
    [None] when it throws. *)
Definition SolutionParser_parse (file : string) (numVars : Z) : option Solution :=
  fold_left solution_line (getlines file) (Solution_new numVars).

(** The [try] block of [main] in single-file mode: the verdict of
    [SATVerifier::verify] (exit code 0 when true, 1 when false), or [None]
    when an exception is caught (exit code 1). *)
Definition main_verdict (cnfFile solFile : string) : option bool :=
  let instance := CNFParser_parse cnfFile in
  match SolutionParser_parse solFile (inumVars instance) with
  | None => None
  | Some solution => Some (isSat (verify instance solution))
  end.

(** A directory entry: [is_regular_file()], [path().filename().string()]
    and [path().string()]. *)
Record Entry := mkEntry { is_regular_file : bool; filename : string; path : string }.

(** [filename.substr(filename.size() - n)]: [None] when [n] exceeds the
    size (the unsigned subtraction wraps to a position past the end). *)
Definition suffix (n : nat) (s : string) : option string :=
  if (n <=? String.length s)%nat then ReducerIO.substr (String.length s - n) s else None.

(** The scan of [FileUtils::findCNFFiles]: the paths pushed, and whether an
    exception ended the loop (it is caught and the scan stops there). The
    conditions are evaluated left to right with [&&]. *)
Fixpoint scan_entries (es : list Entry) : list string :=
  match es with
  | [] => []
  | e :: es' =>
      if is_regular_file e then
        let f := filename e in
        if (4 <? String.length f)%nat then
          match suffix 4 f with
          | None => []
          | Some s4 =>
              if String.eqb s4 ".cnf" then
                match suffix 8 f with
                | None => []
                | Some s8 =>
                    if String.eqb s8 ".cnf.sol" then scan_entries es'
                    else path e :: scan_entries es'
                end
              else scan_entries es'
          end
        else scan_entries es'
      else scan_entries es'
  end.

(** [std::sort] with [std::string]'s [operator<] (bytes compared as
    [unsigned char]): the sorted permutation, computed by insertion. *)
Fixpoint insert_sorted (x : string) (l : list string) : list string :=
  match l with
  | [] => [x]
  | y :: l' => if String.leb x y then x :: l else y :: insert_sorted x l'
  end.

Definition sort_strings (l : list string) : list string := fold_right insert_sorted [] l.

(** [FileUtils::findCNFFiles] on the entries of the directory, in the
    order of [directory_iterator]. *)
Definition findCNFFiles (entries : list Entry) : list string :=
  sort_strings (scan_entries entries).

End VerifierIO.

(* ===================================================================== *)
(** * File formats of the solvers (both solver files) *)
(* ===================================================================== *)
Module SolverIO.
Import String Ascii.
Import TextIO Solver.

(** One turn of the [getline] loop of [CNFParser::parse], on
    [(clauses, numVars, clauseId)]. The local [numClauses] is read but its
    value is never used. *)
Definition parse_line (st : list Clause * Z * Z) (line : string) : list Clause * Z * Z :=
  let '(clauses, numVars, clauseId) := st in
  match line with
  | EmptyString => st
  | String c _ =>
      if Ascii.eqb c "c"%char then st
      else if Ascii.eqb c "p"%char then
        let '(nv, _) := read_header line numVars 0 in (clauses, nv, clauseId)
      else
        match map (fun lit => mkLit (Z.abs lit) (0 <? lit)) (line_lits line) with
        | [] => st
        | literals => (clauses ++ [mkClause literals clauseId], numVars, clauseId + 1)
        end
  end.

(** [CNFParser::parse]: [{clauses, numVars}]. *)
Definition CNFParser_parse (file : string) : list Clause * Z :=
  let '(clauses, numVars, _) := fold_left parse_line (getlines file) ([], 0, 0) in
  (clauses, numVars).

(** [q = a / b] rounded to nearest, ties to even ([b > 0]). *)
Definition round_div (a b : Z) : Z :=
  let q := a / b in
  let r := a mod b in
  if 2 * r <? b then q
  else if b <? 2 * r then q + 1
  else if Z.even q then q else q + 1.

(** Three decimal digits of [0 <= n < 1000]. *)
Definition pad3 (n : Z) : string :=
  String (digit_char (n / 100)) (String (digit_char (n / 10 mod 10))
    (String (digit_char (n mod 10)) EmptyString)).

(** [out << fixed << setprecision(3) << time] (glibc's ["%.3f"]): the
    exact binary value [m * 2^e] rounded to a multiple of [1/1000], ties
    to even. A NaN prints as [nan] (the sign bit of a NaN is not
    observable on Rocq's floats; [time] is a count of milliseconds divided
    by [1000.0] and is never a NaN). *)
Definition show_fixed3 (x : float) : string :=
  match Prim2SF x with
  | S754_zero s => (if s then "-" else "") ++ "0.000"
  | S754_infinity s => (if s then "-" else "") ++ "inf"
  | S754_nan => "nan"
  | S754_finite s m e =>
      let q := round_div (Z.pos m * 1000 * 2 ^ Z.max e 0) (2 ^ Z.max (- e) 0) in
      (if s then "-" else "") ++ show_nonneg (q / 1000) ++ "." ++ pad3 (q mod 1000)
  end%string.

(** [saveSolutionToFile(assignment, numVars, inputFile, time, nodes)]: the
    text of [inputFile + ".sol"]. *)
Definition saveSolutionToFile (assignment : Assignment) (numVars : Z)
    (inputFile : string) (time : float) (nodes : Z) : string :=
  ReducerIO.unlines
    ["c Solution pour " ++ inputFile;
     "c Temps: " ++ show_fixed3 time ++ "s";
     "c Noeuds: " ++ show_Z nodes;
     "v " ++ ReducerIO.show_lits (solution_line assignment numVars) ++ "0"]%string.

End SolverIO.

(* ===================================================================== *)
(** * C++ [int] arithmetic *)
(* ===================================================================== *)

Lemma in_int_spec (z : Z) : in_int z = true <-> INT_MIN <= z <= INT_MAX.
Proof. unfold in_int. rewrite andb_true_iff, !Z.leb_le. split; intros H; exact H. Qed.

Lemma wrap32_spec (x : Z) : wrap32 x = x - 2 ^ 32 * ((x + 2 ^ 31) / 2 ^ 32).
Proof. unfold wrap32. rewrite Z.mod_eq by lia. lia. Qed.

Lemma wrap32_shift (x k : Z) : wrap32 (x + 2 ^ 32 * k) = wrap32 x.
Proof.
  unfold wrap32. replace (x + 2 ^ 32 * k + 2 ^ 31) with (x + 2 ^ 31 + k * 2 ^ 32) by lia.
  rewrite Z_mod_plus_full. reflexivity.
Qed.

Lemma wrap32_add_l (x c : Z) : wrap32 (wrap32 x + c) = wrap32 (x + c).
Proof.
  rewrite (wrap32_spec x).
  replace (x - 2 ^ 32 * ((x + 2 ^ 31) / 2 ^ 32) + c)
    with (x + c + 2 ^ 32 * (- ((x + 2 ^ 31) / 2 ^ 32))) by lia.
  apply wrap32_shift.
Qed.

Lemma wrap32_sub_l (x c : Z) : wrap32 (wrap32 x - c) = wrap32 (x - c).
Proof. rewrite <- !Z.add_opp_r. apply wrap32_add_l. Qed.

Lemma wrap32_opp (x : Z) : wrap32 (- wrap32 x) = wrap32 (- x).
Proof.
  rewrite (wrap32_spec x).
  replace (- (x - 2 ^ 32 * ((x + 2 ^ 31) / 2 ^ 32)))
    with (- x + 2 ^ 32 * ((x + 2 ^ 31) / 2 ^ 32)) by lia.
  apply wrap32_shift.
Qed.

Lemma wrap32_id (x : Z) : in_int x = true -> wrap32 x = x.
Proof.
  intros H. apply in_int_spec in H. unfold INT_MIN, INT_MAX in H. unfold wrap32.
  rewrite Z.mod_small by lia. lia.
Qed.

Lemma wrap32_range (x : Z) : in_int (wrap32 x) = true.
Proof.
  apply in_int_spec. unfold wrap32, INT_MIN, INT_MAX.
  pose proof (Z.mod_pos_bound (x + 2 ^ 31) (2 ^ 32) ltac:(lia)). lia.
Qed.

Lemma resize_ok (n : Z) : 0 <= n <= INT_MAX -> resize_fails n = false.
Proof.
  intros H. unfold resize_fails. rewrite wrap32_id by (apply in_int_spec; unfold INT_MIN in *; lia).
  apply Z.ltb_ge. lia.
Qed.

(** For an [int] [n], [resize(n + 1)] succeeds exactly for [-1 <= n < INT_MAX]. *)
Lemma resize_succ_ok (n : Z) :
  in_int n = true -> resize_fails (n + 1) = false <-> -1 <= n < INT_MAX.
Proof.
  intros H. apply in_int_spec in H. unfold resize_fails.
  destruct (Z.eq_dec n INT_MAX) as [->|Hne]; [split; [discriminate|lia]|].
  rewrite wrap32_id by (apply in_int_spec; unfold INT_MIN, INT_MAX in *; lia).
  rewrite Z.ltb_ge. unfold INT_MAX in *. lia.
Qed.

Lemma wrap32_idem (x : Z) : wrap32 (wrap32 x) = wrap32 x.
Proof. apply wrap32_id, wrap32_range. Qed.

Lemma wrap32_le (x : Z) : INT_MIN <= x -> wrap32 x <= x.
Proof.
  intros H. unfold INT_MIN in H. rewrite wrap32_spec.
  pose proof (Z.div_pos (x + 2 ^ 31) (2 ^ 32) ltac:(lia) ltac:(lia)). lia.
Qed.

Lemma wrap32_nonzero (x : Z) : 0 < x < 2 ^ 32 -> wrap32 x <> 0 /\ wrap32 (- x) <> 0.
Proof.
  intros H. rewrite !wrap32_spec. split; intros E.
  - assert (x = 2 ^ 32 * ((x + 2 ^ 31) / 2 ^ 32)) as E' by lia. lia.
  - assert (x = - (2 ^ 32 * ((- x + 2 ^ 31) / 2 ^ 32))) as E' by lia. lia.
Qed.

(* ===================================================================== *)
(** * Facts about the reducer *)
(* ===================================================================== *)
Module ReducerFacts.
Import Reducer.

Example reduce_size5 :
  fst (reduce_loop 6 [[1; 2; 3; 4; 5]]) = [[1; 2; 6]; [-6; 3; 7]; [-7; 4; 5]].
Proof. reflexivity. Qed.

(** ** Lemmas on the reducer *)

Lemma nth_for_upto {A} (n i : nat) (f : nat -> A) (d : A) :
  (i < n)%nat -> nth i (for_upto n f) d = f i.
Proof.
  intros Hi. unfold for_upto.
  rewrite (nth_indep _ d (f 0%nat)) by (rewrite length_map, length_seq; lia).
  rewrite map_nth, seq_nth by lia. reflexivity.
Qed.

Lemma spec_chain_tail_index (m : nat) : forall (y : Z) (xs : list Z),
  length xs = (m + 2)%nat ->
  spec_chain_tail y xs =
    map (fun i => [- (y + Z.of_nat i); nth i xs 0; y + Z.of_nat i + 1]) (seq 0 m)
    ++ [[- (y + Z.of_nat m); nth m xs 0; nth (m + 1) xs 0]].
Proof.
  induction m as [|m IH]; intros y xs Hlen.
  - destruct xs as [|a [|b [|c xs]]]; simpl in Hlen; try lia.
    simpl. rewrite Z.add_0_r. reflexivity.
  - destruct xs as [|a [|b [|c xs]]]; simpl in Hlen; try lia.
    change (spec_chain_tail y (a :: b :: c :: xs))
      with ([- y; a; y + 1] :: spec_chain_tail (y + 1) (b :: c :: xs)).
    rewrite (IH (y + 1) (b :: c :: xs)) by (simpl; lia).
    cbn [seq map app]. rewrite <- seq_shift, map_map.
    f_equal; [simpl; rewrite Z.add_0_r; reflexivity|].
    f_equal.
    + apply map_ext. intros i.
      replace (y + Z.of_nat (S i)) with (y + 1 + Z.of_nat i) by lia. reflexivity.
    + replace (y + Z.of_nat (S m)) with (y + 1 + Z.of_nat m) by lia. reflexivity.
Qed.

(** [k] increments of the counter mint [n, n + 1, ..., n + k - 1], each
    taken as an [int]. *)
Lemma mint_spec (k : nat) : forall n : Z,
  mint k (wrap32 n) =
    (map (fun i => wrap32 (n + Z.of_nat i)) (seq 0 k), wrap32 (n + Z.of_nat k)).
Proof.
  induction k as [|k IH]; intros n; simpl mint.
  - rewrite Z.add_0_r. reflexivity.
  - rewrite wrap32_add_l, IH. cbn [seq map]. rewrite <- seq_shift, map_map.
    rewrite Z.add_0_r. f_equal; [f_equal; apply map_ext; intros i|]; f_equal; lia.
Qed.

Lemma nth_map_seq {A} (k i : nat) (f : nat -> A) (d : A) :
  (i < k)%nat -> nth i (map f (seq 0 k)) d = f i.
Proof. intros Hi. exact (nth_for_upto k i f d Hi). Qed.

Lemma nth_wrap32 (l : list Z) : forall i : nat,
  Forall (fun x => in_int x = true) l -> wrap32 (nth i l 0) = nth i l 0.
Proof.
  induction l as [|x l IH]; intros i Hl; [destruct i; reflexivity|].
  inversion Hl as [|? ? Hx Hl']; subst.
  destruct i as [|i]; simpl; [apply wrap32_id; exact Hx|apply IH; exact Hl'].
Qed.

Lemma spec_aux_ge4 (k : nat) : (4 <= k)%nat -> spec_aux k = Z.of_nat k - 3.
Proof. intros H. destruct k as [|[|[|[|k]]]]; try lia. reflexivity. Qed.

Lemma reduceSizeK_wrap (x1 x2 : Z) (xs : list Z) (n : Z) :
  (2 <= length xs)%nat -> Forall (fun x => in_int x = true) (x1 :: x2 :: xs) ->
  reduceSizeK (x1 :: x2 :: xs) (wrap32 n) =
    (wrap_clauses (spec_rule n (x1 :: x2 :: xs)),
     wrap32 (n + spec_aux (length (x1 :: x2 :: xs)))).
Proof.
  intros Hlen Hint.
  inversion Hint as [|? ? H1 Hint']; subst. inversion Hint' as [|? ? H2 Hxs]; subst.
  assert (exists m, length xs = (m + 2)%nat) as [m Hm]
    by (exists (length xs - 2)%nat; lia).
  unfold reduceSizeK. simpl length. rewrite Hm.
  replace (S (S (m + 2)) <? 4)%nat with false by (symmetry; apply Nat.ltb_ge; lia).
  replace (S (S (m + 2)) - 3)%nat with (S m) by lia.
  replace (S (S (m + 2)) - 4)%nat with m by lia.
  replace (S (S (m + 2)) - 2)%nat with (S (S m)) by lia.
  replace (S (S (m + 2)) - 1)%nat with (S (S (S m))) by lia.
  rewrite mint_spec. cbv beta iota.
  destruct xs as [|a [|b xs']]; [simpl in Hm; lia|simpl in Hm; lia|].
  change (spec_rule n (x1 :: x2 :: a :: b :: xs'))
    with ([x1; x2; n] :: spec_chain_tail n (a :: b :: xs')).
  rewrite (spec_chain_tail_index m n (a :: b :: xs') Hm).
  unfold wrap_clauses. cbn [map app]. rewrite map_app, map_map. cbn [map].
  rewrite !(nth_map_seq (S m)) by lia.
  change (nth 0 (x1 :: x2 :: a :: b :: xs') 0) with x1.
  change (nth 1 (x1 :: x2 :: a :: b :: xs') 0) with x2.
  change (nth (S (S m)) (x1 :: x2 :: a :: b :: xs') 0) with (nth m (a :: b :: xs') 0).
  change (nth (S (S (S m))) (x1 :: x2 :: a :: b :: xs') 0) with (nth (S m) (a :: b :: xs') 0).
  rewrite (nth_wrap32 _ m Hxs), (nth_wrap32 _ (m + 1) Hxs), Nat.add_1_r.
  rewrite (wrap32_id x1 H1), (wrap32_id x2 H2), wrap32_opp.
  change (Z.of_nat 0) with 0. rewrite Z.add_0_r.
  f_equal.
  - f_equal. f_equal; try reflexivity.
    unfold for_upto. apply map_ext_in. intros i Hi. apply in_seq in Hi.
    rewrite !(nth_map_seq (S m)) by lia.
    replace (i + 2)%nat with (S (S i)) by lia.
    change (nth (S (S i)) (x1 :: x2 :: a :: b :: xs') 0) with (nth i (a :: b :: xs') 0).
    rewrite wrap32_opp, (nth_wrap32 _ i Hxs).
    replace (n + Z.of_nat (i + 1)) with (n + Z.of_nat i + 1) by lia.
    reflexivity.
  - f_equal. rewrite spec_aux_ge4 by (cbn [length] in *; lia). cbn [length] in *. lia.
Qed.

Lemma spec_chain_tail_len3 (y : Z) (xs : list Z) :
  Forall (fun cl : Clause => length cl = 3%nat) (spec_chain_tail y xs).
Proof.
  revert y. induction xs as [|a xs IH]; intros y; [constructor|].
  destruct xs as [|b [|c xs]]; simpl; try constructor; auto.
  apply (IH (y + 1)).
Qed.

(** One clause of the loop, with the counter at [n] taken as an [int] and
    literals that are [int]s: the table's clauses for the auxiliaries
    [n, n + 1, ...], every number taken as an [int]. *)
Lemma reduce_clause_wrap (n : Z) (c : Clause) :
  c <> [] -> Forall (fun x => in_int x = true) c ->
  reduce_clause (wrap32 n) c =
    (wrap_clauses (spec_rule n c), wrap32 (n + spec_aux (length c))).
Proof.
  intros Hc Hint.
  destruct c as [|x1 [|x2 [|x3 [|x4 xs]]]]; [congruence| | | |].
  - inversion Hint as [|? ? H1 _]; subst.
    unfold reduce_clause, reduceSize1, spec_rule, spec_aux, wrap_clauses. cbn [length map].
    rewrite !wrap32_add_l, !wrap32_opp, (wrap32_id x1 H1).
    replace (n + 1 + 1) with (n + 2) by lia. reflexivity.
  - inversion Hint as [|? ? H1 Hint']; subst. inversion Hint' as [|? ? H2 _]; subst.
    unfold reduce_clause, reduceSize2, spec_rule, spec_aux, wrap_clauses. cbn [length map].
    rewrite !wrap32_add_l, !wrap32_opp, (wrap32_id x1 H1), (wrap32_id x2 H2).
    reflexivity.
  - inversion Hint as [|? ? H1 Hint']; subst. inversion Hint' as [|? ? H2 Hint'']; subst.
    inversion Hint'' as [|? ? H3 _]; subst.
    unfold reduce_clause, spec_rule, spec_aux, wrap_clauses. cbn [length map].
    rewrite (wrap32_id x1 H1), (wrap32_id x2 H2), (wrap32_id x3 H3), Z.add_0_r.
    reflexivity.
  - change (reduce_clause (wrap32 n) (x1 :: x2 :: x3 :: x4 :: xs))
      with (reduceSizeK (x1 :: x2 :: x3 :: x4 :: xs) (wrap32 n)).
    apply reduceSizeK_wrap; [simpl; lia|exact Hint].
Qed.

Lemma spec_rule_len3 (n : Z) (c : Clause) :
  c <> [] -> Forall (fun cl : Clause => length cl = 3%nat) (spec_rule n c).
Proof.
  intros Hc.
  destruct c as [|x1 [|x2 [|x3 [|x4 xs]]]]; [congruence| | | |];
    try (repeat constructor; fail).
  change (spec_rule n (x1 :: x2 :: x3 :: x4 :: xs))
    with ([x1; x2; n] :: spec_chain_tail n (x3 :: x4 :: xs)).
  constructor; [reflexivity|apply spec_chain_tail_len3].
Qed.

Lemma aux_total_cons (c : Clause) (cs : list Clause) :
  aux_total (c :: cs) = spec_aux (length c) + aux_total cs.
Proof. reflexivity. Qed.

Lemma spec_aux_nonneg (k : nat) : 0 <= spec_aux k.
Proof. destruct k as [|[|[|[|k]]]]; simpl; lia. Qed.

Lemma aux_total_nonneg (cs : list Clause) : 0 <= aux_total cs.
Proof.
  induction cs as [|c cs IH]; [reflexivity|].
  rewrite aux_total_cons. pose proof (spec_aux_nonneg (length c)). lia.
Qed.

(** The clause loop: the table's clauses for the auxiliaries [n, n + 1,
    ...] minted in clause order, every number taken as an [int]. *)
Lemma reduce_loop_wrap (cs : list Clause) : forall n : Z,
  Forall (fun c : Clause => c <> []) cs ->
  Forall (Forall (fun x => in_int x = true)) cs ->
  reduce_loop (wrap32 n) cs = (wrap_clauses (spec_reduce n cs), wrap32 (n + aux_total cs)).
Proof.
  induction cs as [|c cs IH]; intros n Hne Hint; simpl reduce_loop.
  - rewrite Z.add_0_r. reflexivity.
  - inversion Hne as [|? ? Hc Hcs]; subst. inversion Hint as [|? ? Hic Hics]; subst.
    rewrite reduce_clause_wrap by assumption.
    rewrite IH by assumption. cbn [spec_reduce]. unfold wrap_clauses. rewrite map_app.
    rewrite aux_total_cons. f_equal. f_equal. lia.
Qed.

Lemma reduce_clause_nil (n : Z) : reduce_clause n [] = ([], n).
Proof. reflexivity. Qed.

Lemma spec_chain_tail_length (xs : list Z) : forall y : Z,
  (2 <= length xs)%nat -> length (spec_chain_tail y xs) = (length xs - 1)%nat.
Proof.
  induction xs as [|a xs IH]; intros y Hl; simpl in Hl; [lia|].
  destruct xs as [|b [|c xs]]; [simpl in Hl; lia|reflexivity|].
  change (spec_chain_tail y (a :: b :: c :: xs))
    with ([- y; a; y + 1] :: spec_chain_tail (y + 1) (b :: c :: xs)).
  cbn [length]. rewrite IH by (simpl; lia). simpl. lia.
Qed.

Lemma for_upto_length {A} (n : nat) (f : nat -> A) : length (for_upto n f) = n.
Proof. unfold for_upto. rewrite length_map, length_seq. reflexivity. Qed.

(** The counter after one clause, started at [n] taken as an [int]. *)
Lemma reduce_clause_next (n : Z) (c : Clause) :
  snd (reduce_clause (wrap32 n) c) = wrap32 (n + spec_aux (length c)).
Proof.
  destruct c as [|x1 [|x2 [|x3 [|x4 xs]]]].
  - cbn. rewrite Z.add_0_r. reflexivity.
  - unfold reduce_clause, reduceSize1. cbn [snd length spec_aux].
    rewrite !wrap32_add_l, <- Z.add_assoc, wrap32_add_l. reflexivity.
  - unfold reduce_clause, reduceSize2. cbn [snd length spec_aux].
    rewrite wrap32_add_l. reflexivity.
  - cbn. rewrite Z.add_0_r. reflexivity.
  - change (reduce_clause (wrap32 n) (x1 :: x2 :: x3 :: x4 :: xs))
      with (reduceSizeK (x1 :: x2 :: x3 :: x4 :: xs) (wrap32 n)).
    unfold reduceSizeK. cbn [length]. cbn [Nat.ltb Nat.leb].
    replace (S (S (S (S (length xs)))) - 3)%nat with (S (length xs)) by lia.
    rewrite mint_spec. cbn [snd]. f_equal. unfold spec_aux. lia.
Qed.

(** The number of clauses written for one clause, whatever the counter. *)
Lemma reduce_clause_length (n : Z) (c : Clause) :
  Z.of_nat (length (fst (reduce_clause n c))) =
    (if Nat.eqb (length c) 0 then 0 else spec_out (length c)).
Proof.
  destruct c as [|x1 [|x2 [|x3 [|x4 xs]]]]; try reflexivity.
  change (reduce_clause n (x1 :: x2 :: x3 :: x4 :: xs))
    with (reduceSizeK (x1 :: x2 :: x3 :: x4 :: xs) n).
  unfold reduceSizeK. cbn [length]. cbn [Nat.ltb Nat.leb].
  destruct (mint _ n) as [ys nx]. cbn [fst].
  rewrite length_app, length_app, for_upto_length. unfold spec_out. cbn [length Nat.eqb].
  lia.
Qed.

(** Every clause written for one clause has three literals. *)
Lemma reduce_clause_len3 (n : Z) (c : Clause) :
  Forall (fun cl : Clause => length cl = 3%nat) (fst (reduce_clause n c)).
Proof.
  destruct c as [|x1 [|x2 [|x3 [|x4 xs]]]]; try (repeat constructor; fail).
  change (reduce_clause n (x1 :: x2 :: x3 :: x4 :: xs))
    with (reduceSizeK (x1 :: x2 :: x3 :: x4 :: xs) n).
  unfold reduceSizeK. cbn [length]. cbn [Nat.ltb Nat.leb].
  destruct (mint _ n) as [ys nx]. cbn [fst].
  apply Forall_app. split; [repeat constructor|]. apply Forall_app. split; [|repeat constructor].
  apply List.Forall_forall. intros cl Hcl. unfold for_upto in Hcl.
  apply in_map_iff in Hcl as [i [<- _]]. reflexivity.
Qed.

Lemma reduce_loop_next (cs : list Clause) : forall n : Z,
  snd (reduce_loop (wrap32 n) cs) = wrap32 (n + aux_total cs).
Proof.
  induction cs as [|c cs IH]; intros n; simpl reduce_loop.
  - rewrite Z.add_0_r. reflexivity.
  - pose proof (reduce_clause_next n c) as H.
    destruct (reduce_clause (wrap32 n) c) as [out n1]. cbn [snd] in H. subst n1.
    specialize (IH (n + spec_aux (length c))).
    destruct (reduce_loop (wrap32 (n + spec_aux (length c))) cs) as [rest n2].
    cbn [snd] in IH |- *. rewrite IH, aux_total_cons. f_equal. lia.
Qed.

Lemma reduce_loop_length (cs : list Clause) : forall n : Z,
  Z.of_nat (length (fst (reduce_loop n cs))) =
    fold_right (fun c acc =>
      (if Nat.eqb (length c) 0 then 0 else spec_out (length c)) + acc) 0 cs.
Proof.
  induction cs as [|c cs IH]; intros n; [reflexivity|].
  simpl reduce_loop. pose proof (reduce_clause_length n c) as H1.
  destruct (reduce_clause n c) as [out n1]. specialize (IH n1).
  destruct (reduce_loop n1 cs) as [rest n2]. cbn [fst] in H1, IH |- *.
  cbn [fold_right]. rewrite length_app. lia.
Qed.

Lemma reduce_loop_len3 (cs : list Clause) : forall n : Z,
  Forall (fun cl : Clause => length cl = 3%nat) (fst (reduce_loop n cs)).
Proof.
  induction cs as [|c cs IH]; intros n; simpl; [constructor|].
  pose proof (reduce_clause_len3 n c) as H1.
  destruct (reduce_clause n c) as [out n1] eqn:E.
  specialize (IH n1). destruct (reduce_loop n1 cs) as [rest n2]. simpl in H1, IH |- *.
  apply Forall_app. split; assumption.
Qed.

(** The table uses at most as many auxiliaries as it writes clauses. *)
Lemma aux_le_out (cs : list Clause) (n : Z) :
  aux_total cs <= Z.of_nat (length (fst (reduce_loop n cs))).
Proof.
  rewrite reduce_loop_length.
  induction cs as [|c cs IH]; [reflexivity|]. rewrite aux_total_cons. cbn [fold_right].
  destruct c as [|x1 [|x2 [|x3 [|x4 xs]]]]; cbn [length spec_aux spec_out Nat.eqb];
    lia.
Qed.

Lemma total_literals_fold (cs : list Clause) (a : Z) :
  fold_left (fun acc c => acc + Z.of_nat (length c)) cs a =
    a + fold_right (fun c acc => Z.of_nat (length c) + acc) 0 cs.
Proof.
  revert a. induction cs as [|c cs IH]; intros a; simpl; [lia|].
  rewrite IH. lia.
Qed.

Lemma unit_clauses_cons (c : Clause) (cs : list Clause) :
  unit_clauses (c :: cs) = (if Nat.eqb (length c) 1 then 1 else 0) + unit_clauses cs.
Proof.
  unfold unit_clauses. simpl. destruct (Nat.eqb (length c) 1); simpl; lia.
Qed.

Lemma reduce_fst_clauses (F : CNFFormula) :
  clauses (fst (reduce F)) = fst (reduce_loop (wrap32 (numVars F + 1)) (clauses F)).
Proof.
  unfold reduce. rewrite wrap32_add_l.
  destruct (reduce_loop (wrap32 (numVars F + 1)) (clauses F)); reflexivity.
Qed.

Lemma spec_chain_tail_lits (P : Z -> Prop) (xs : list Z) : forall y : Z,
  (2 <= List.length xs)%nat -> Forall P xs ->
  (forall z, y <= z < y + Z.of_nat (List.length xs) - 1 -> P z /\ P (- z)) ->
  Forall (Forall P) (spec_chain_tail y xs).
Proof.
  induction xs as [|a xs IH]; intros y Hl Hx Hz; cbn [List.length] in Hl; [lia|].
  inversion Hx as [|? ? Ha Hxs]; subst.
  destruct xs as [|b [|c xs]]; [cbn in Hl; lia| |].
  - inversion Hxs as [|? ? Hb _]; subst. cbn.
    destruct (Hz y) as [_ Hy]; [cbn [List.length] in *; lia|].
    repeat constructor; assumption.
  - change (spec_chain_tail y (a :: b :: c :: xs))
      with ([- y; a; y + 1] :: spec_chain_tail (y + 1) (b :: c :: xs)).
    cbn [List.length] in Hz.
    destruct (Hz y) as [_ Hy]; [lia|]. destruct (Hz (y + 1)) as [Hy1 _]; [lia|].
    constructor; [repeat constructor; assumption|].
    apply IH; [cbn; lia|exact Hxs|]. intros z Hzr. apply Hz. cbn [List.length] in *. lia.
Qed.

Lemma spec_rule_lits (P : Z -> Prop) (n : Z) (c : Clause) :
  c <> [] -> Forall P c ->
  (forall y, n <= y < n + spec_aux (List.length c) -> P y /\ P (- y)) ->
  Forall (Forall P) (spec_rule n c).
Proof.
  intros Hne Hc Hy.
  destruct c as [|x1 [|x2 [|x3 [|x4 xs]]]]; [congruence| | | |].
  - inversion Hc; subst. cbn in Hy.
    destruct (Hy n) as [Hn Hn']; [lia|]. destruct (Hy (n + 1)) as [Hn1 Hn1']; [lia|].
    cbn. repeat constructor; assumption.
  - inversion Hc as [|? ? H1 H2]; inversion H2; subst. cbn in Hy.
    destruct (Hy n) as [Hn Hn']; [lia|]. cbn. repeat constructor; assumption.
  - cbn. constructor; [exact Hc|constructor].
  - change (spec_rule n (x1 :: x2 :: x3 :: x4 :: xs))
      with ([x1; x2; n] :: spec_chain_tail n (x3 :: x4 :: xs)).
    inversion Hc as [|? ? H1 H2]; inversion H2 as [|? ? H3 H4]; subst.
    cbn [List.length spec_aux] in Hy.
    destruct (Hy n) as [Hn _]; [lia|].
    constructor; [repeat constructor; assumption|].
    apply spec_chain_tail_lits; [cbn; lia|exact H4|].
    intros z Hz. apply Hy. cbn [List.length] in Hz. lia.
Qed.

Lemma spec_reduce_lits (P : Z -> Prop) (cs : list Clause) : forall n : Z,
  Forall (fun c : Clause => c <> []) cs -> Forall (Forall P) cs ->
  (forall y, n <= y < n + aux_total cs -> P y /\ P (- y)) ->
  Forall (Forall P) (spec_reduce n cs).
Proof.
  induction cs as [|c cs IH]; intros n Hne Hcs Hy; [constructor|].
  inversion Hne as [|? ? Hc Hne']; inversion Hcs as [|? ? Hpc Hcs']; subst.
  rewrite aux_total_cons in Hy. pose proof (spec_aux_nonneg (length c)).
  pose proof (aux_total_nonneg cs).
  cbn [spec_reduce]. apply Forall_app. split.
  - apply spec_rule_lits; [exact Hc|exact Hpc|]. intros y Hr. apply Hy. lia.
  - apply IH; [exact Hne'|exact Hcs'|]. intros y Hr. apply Hy. lia.
Qed.

Lemma wrap_clauses_id (cs : list Clause) :
  Forall (Forall (fun x => in_int x = true)) cs -> wrap_clauses cs = cs.
Proof.
  unfold wrap_clauses. induction 1 as [|c cs Hc _ IH]; [reflexivity|].
  cbn [map]. rewrite IH. f_equal.
  induction Hc as [|x c Hx _ IHc]; [reflexivity|]. cbn [map]. rewrite IHc, wrap32_id by exact Hx.
  reflexivity.
Qed.

(** Without overflow of the counter the reduced clauses are exactly the
    table's. *)
Lemma reduce_fst_exact (F : CNFFormula) :
  in_int (numVars F) = true -> numVars F + aux_total (clauses F) <= INT_MAX ->
  Forall (fun c : Clause => c <> []) (clauses F) ->
  Forall (Forall (fun x => in_int x = true)) (clauses F) ->
  clauses (fst (reduce F)) = spec_reduce (numVars F + 1) (clauses F).
Proof.
  intros HN Hmax Hne Hint.
  rewrite reduce_fst_clauses, reduce_loop_wrap by assumption. cbn [fst].
  apply wrap_clauses_id, spec_reduce_lits; [exact Hne|exact Hint|].
  apply in_int_spec in HN. intros y Hy.
  split; apply in_int_spec; unfold INT_MIN, INT_MAX in *; lia.
Qed.

(** Any model of the literal clauses [cs] and of the literals [± y] for the
    auxiliaries taken as [int]s bounds every literal of the output. *)
Lemma reduce_loop_lits (P : Z -> Prop) (cs : list Clause) (n : Z) :
  Forall (fun c : Clause => c <> []) cs ->
  Forall (Forall (fun x => in_int x = true)) cs -> Forall (Forall P) cs ->
  (forall j, 0 <= j < aux_total cs -> P (wrap32 (n + j)) /\ P (wrap32 (- (n + j)))) ->
  Forall (Forall P) (fst (reduce_loop (wrap32 n) cs)).
Proof.
  intros Hne Hint HP Hy.
  rewrite reduce_loop_wrap by assumption. cbn [fst]. unfold wrap_clauses.
  assert (H : Forall (Forall (fun z => P (wrap32 z))) (spec_reduce n cs)).
  { apply spec_reduce_lits; [exact Hne| |].
    - clear Hy Hne. induction Hint as [|c cs Hc _ IH]; [constructor|].
      inversion HP as [|? ? Hpc HP']; subst. constructor; [|exact (IH HP')].
      clear IH HP HP'. induction Hc as [|x c Hx _ IHc]; [constructor|].
      inversion Hpc as [|? ? Hpx Hpc']; subst.
      constructor; [rewrite wrap32_id by exact Hx; exact Hpx|exact (IHc Hpc')].
    - intros y Hr. specialize (Hy (y - n) ltac:(lia)).
      replace (n + (y - n)) with y in Hy by lia. exact Hy. }
  apply List.Forall_map. eapply Forall_impl; [exact H|].
  intros c Hc. apply List.Forall_map. exact Hc.
Qed.

(** C3 (amended). Per-clause rules of the reducer, with C++ [int]
    arithmetic. For a counter [n] and literals that are [int]s, every
    non-empty clause is replaced by the clauses of the specification's table
    for the auxiliaries [n, n + 1, ...] (size 1: four clauses over two fresh
    variables; size 2: two clauses over one; size 3: unchanged; size k >= 4:
    the k - 2 chain clauses over k - 3 fresh variables), each of three
    literals, with every number taken modulo 2^32 as an [int]; the fresh
    variables are minted consecutively from N + 1 in clause order; they are
    exactly the table's as long as N plus the number of auxiliaries stays at
    most [INT_MAX]; and the clause 1 2 3 4 5 with N = 5 yields (1 2 6),
    (-6 3 7), (-7 4 5). *)
Theorem reduce_per_size_rules :
  (forall (n : Z) (c : Clause), in_int n = true -> c <> [] ->
     Forall (fun x => in_int x = true) c ->
     reduce_clause n c = (wrap_clauses (spec_rule n c), wrap32 (n + spec_aux (length c))) /\
     Forall (fun cl : Clause => length cl = 3%nat) (fst (reduce_clause n c))) /\
  (forall F : CNFFormula, Forall (fun c : Clause => c <> []) (clauses F) ->
     Forall (Forall (fun x => in_int x = true)) (clauses F) ->
     clauses (fst (reduce F)) = wrap_clauses (spec_reduce (numVars F + 1) (clauses F))) /\
  (forall F : CNFFormula, in_int (numVars F) = true ->
     numVars F + aux_total (clauses F) <= INT_MAX ->
     Forall (fun c : Clause => c <> []) (clauses F) ->
     Forall (Forall (fun x => in_int x = true)) (clauses F) ->
     clauses (fst (reduce F)) = spec_reduce (numVars F + 1) (clauses F)) /\
  clauses (fst (reduce (mkCNF 5 1 [[1; 2; 3; 4; 5]]))) =
    [[1; 2; 6]; [-6; 3; 7]; [-7; 4; 5]].
Proof.
  split; [|split; [|split]].
  - intros n c Hn Hc Hint. split; [|apply reduce_clause_len3].
    rewrite <- (wrap32_id n Hn) at 1. apply reduce_clause_wrap; assumption.
  - intros F Hne Hint. rewrite reduce_fst_clauses, reduce_loop_wrap by assumption.
    reflexivity.
  - intros F. apply reduce_fst_exact.
  - reflexivity.
Qed.

(** C3 (counterexample). With N = [INT_MAX] the counter overflows: the unit
    clause (1) is replaced by clauses over [INT_MIN] and [INT_MIN + 1], not
    over N + 1 and N + 2, and the reduced formula has [INT_MIN + 1]
    variables. *)
Lemma reduce_per_size_rules_counterexample :
  let R := fst (reduce (mkCNF INT_MAX 1 [[1]])) in
  clauses R = [[1; INT_MIN; INT_MIN + 1]; [1; INT_MIN; INT_MAX];
               [1; INT_MIN; INT_MIN + 1]; [1; INT_MIN; INT_MAX]] /\
  clauses R <> spec_reduce (INT_MAX + 1) [[1]] /\
  numVars R = INT_MIN + 1.
Proof. vm_compute. split; [reflexivity|split; [discriminate|reflexivity]]. Qed.

Lemma reduce_per_size_rules_witness :
  (in_int 8 = true /\ [7] <> [] /\ Forall (fun x => in_int x = true) [7]) /\
  reduce_clause 8 [7] = (wrap_clauses (spec_rule 8 [7]), wrap32 (8 + spec_aux 1)) /\
  clauses (fst (reduce (mkCNF 7 1 [[7]]))) = wrap_clauses (spec_reduce 8 [[7]]) /\
  (in_int 7 = true /\ 7 + aux_total [[7]] <= INT_MAX) /\
  clauses (fst (reduce (mkCNF 7 1 [[7]]))) = spec_reduce 8 [[7]].
Proof.
  assert (H8 : in_int 8 = true) by reflexivity.
  assert (H7 : [7] <> []) by discriminate.
  assert (Hi : Forall (fun x => in_int x = true) [7]) by (constructor; [reflexivity|constructor]).
  assert (Hne : Forall (fun c : Clause => c <> []) [[7]]) by (constructor; [exact H7|constructor]).
  assert (Hii : Forall (Forall (fun x => in_int x = true)) [[7]]) by (constructor; [exact Hi|constructor]).
  assert (HN : in_int 7 = true) by reflexivity.
  assert (Hm : 7 + aux_total [[7]] <= INT_MAX) by (vm_compute; discriminate).
  split; [auto|split; [|split; [|split; [auto|]]]].
  - exact (proj1 (proj1 reduce_per_size_rules 8 [7] H8 H7 Hi)).
  - exact (proj1 (proj2 reduce_per_size_rules) (mkCNF 7 1 [[7]]) Hne Hii).
  - exact (proj1 (proj2 (proj2 reduce_per_size_rules)) (mkCNF 7 1 [[7]]) HN Hm Hne Hii).
Defined.

(** C7 (code defect). An empty clause of the original is not preserved: the
    [size == 0] branch of [reduce] drops it, so the reduced formula of the
    single empty clause has no clause at all; every output clause of any
    input has exactly three literals. *)
Theorem reduce_drops_empty_clause :
  clauses (fst (reduce (mkCNF 1 1 [[]]))) = [] /\
  forall F : CNFFormula,
    Forall (fun cl : Clause => length cl = 3%nat) (clauses (fst (reduce F))).
Proof.
  split; [reflexivity|].
  intros F. rewrite reduce_fst_clauses. apply reduce_loop_len3.
Qed.

(** Pure counting behind the statistics: auxiliaries and clauses written
    against the literals [L] and unit clauses [U] of the input. *)
Lemma reduce_counts_bounds (cs : list Clause) :
  let L := fold_right (fun c acc => Z.of_nat (length c) + acc) 0 cs in
  let U := unit_clauses cs in
  let O := fold_right (fun c acc =>
             (if Nat.eqb (length c) 0 then 0 else spec_out (length c)) + acc) 0 cs in
  aux_total cs <= L + U /\ O <= L + 3 * U /\ aux_total cs <= 2 * L /\ O <= 4 * L.
Proof.
  cbv zeta. unfold aux_total.
  induction cs as [|c cs IH]; [unfold unit_clauses; simpl; lia|].
  rewrite unit_clauses_cons. simpl.
  assert (Hu : 0 <= unit_clauses cs) by (unfold unit_clauses; lia).
  destruct c as [|x1 [|x2 [|x3 [|x4 xs]]]]; simpl length; cbn -[Z.of_nat];
    unfold spec_aux, spec_out in *; simpl Z.of_nat in *; lia.
Qed.

(** C8 (counterexample). A single unit clause [(1)] with N = 1 has L = 1
    literal, yet the reduction adds two variables and emits four clauses. *)
Lemma reduce_stats_unit_counterexample :
  let st := snd (reduce (mkCNF 1 1 [[1]])) in
  ~ (reducedVars st - originalVars st <= totalLiteralsOriginal st /\
  reducedClauses st <= totalLiteralsOriginal st).
Proof. intros st [H1 H2]. vm_compute in H1. apply H1. reflexivity. Qed.

(** C8 (amended). With L total literals and U unit clauses in the original,
    ReducedVars - OriginalVars <= L + U and ReducedClauses <= L + 3 U; in
    particular both are <= L when there is no unit clause, and always
    ReducedVars - OriginalVars <= 2 L and ReducedClauses <= 4 L. *)
Theorem reduce_stats_bounds (F : CNFFormula) :
  let st := snd (reduce F) in
  let L := totalLiteralsOriginal st in
  let U := unit_clauses (clauses F) in
  reducedVars st - originalVars st <= L + U /\
  reducedClauses st <= L + 3 * U /\
  reducedVars st - originalVars st <= 2 * L /\
  reducedClauses st <= 4 * L.
Proof.
  unfold reduce. cbv zeta.
  pose proof (wrap32_range (numVars F)) as HN. apply in_int_spec in HN.
  pose proof (reduce_loop_next (clauses F) (wrap32 (numVars F) + 1)) as H1.
  pose proof (reduce_loop_length (clauses F) (wrap32 (wrap32 (numVars F) + 1))) as H2.
  pose proof (aux_total_nonneg (clauses F)) as Ha.
  destruct (reduce_loop (wrap32 (wrap32 (numVars F) + 1)) (clauses F)) as [out nx].
  cbn [fst snd] in H1, H2 |- *. subst nx.
  rewrite wrap32_sub_l.
  replace (wrap32 (numVars F) + 1 + aux_total (clauses F) - 1)
    with (wrap32 (numVars F) + aux_total (clauses F)) by lia.
  pose proof (wrap32_le (wrap32 (numVars F) + aux_total (clauses F))
                ltac:(unfold INT_MIN in *; lia)) as Hw.
  unfold total_literals. rewrite total_literals_fold, H2.
  pose proof (reduce_counts_bounds (clauses F)) as Hb. cbv zeta in Hb. cbn [reducedVars originalVars reducedClauses totalLiteralsOriginal numVars numClauses]. lia.
Qed.

(** ** Equisatisfiability of the clause rules *)

Lemma lit_true_pos (a : Z -> bool) (v : Z) : 0 < v -> lit_true a v = a v.
Proof. intros H. unfold lit_true. destruct (Z.ltb_spec 0 v); [reflexivity|lia]. Qed.

Lemma lit_true_neg (a : Z -> bool) (v : Z) : 0 < v -> lit_true a (- v) = negb (a v).
Proof.
  intros H. unfold lit_true. destruct (Z.ltb_spec 0 (- v)); [lia|].
  rewrite Z.opp_involutive. reflexivity.
Qed.

Lemma chain_back (a : Z -> bool) (xs : list Z) : forall y : Z,
  0 < y -> (2 <= length xs)%nat ->
  cnf_true a (spec_chain_tail y xs) = true -> a y = true ->
  clause_true a xs = true.
Proof.
  induction xs as [|x xs IH]; intros y Hy Hl Hc Ha; simpl in Hl; [lia|].
  destruct xs as [|x2 [|x3 xs]]; [simpl in Hl; lia| |].
  - unfold cnf_true, clause_true in *. simpl in Hc |- *.
    rewrite lit_true_neg, Ha in Hc by exact Hy. simpl in Hc.
    destruct (lit_true a x), (lit_true a x2); simpl in *; congruence.
  - change (spec_chain_tail y (x :: x2 :: x3 :: xs))
      with ([- y; x; y + 1] :: spec_chain_tail (y + 1) (x2 :: x3 :: xs)) in Hc.
    unfold cnf_true in Hc. simpl in Hc. apply andb_prop in Hc as [H1 H2].
    unfold clause_true in H1 |- *. simpl in H1 |- *.
    rewrite lit_true_neg, Ha in H1 by exact Hy. simpl in H1.
    rewrite orb_false_r in H1.
    destruct (lit_true a x) eqn:Ex; [reflexivity|]. simpl in H1 |- *.
    rewrite lit_true_pos in H1 by lia.
    apply (IH (y + 1)); [lia|simpl; lia|exact H2|exact H1].
Qed.

Lemma spec_rule_back (a : Z -> bool) (n : Z) (c : Clause) :
  0 < n -> c <> [] -> cnf_true a (spec_rule n c) = true -> clause_true a c = true.
Proof.
  intros Hn Hc H.
  destruct c as [|x1 [|x2 [|x3 [|x4 xs]]]]; [congruence| | | |].
  - unfold cnf_true, clause_true in *. simpl in H |- *.
    rewrite (lit_true_neg a n), (lit_true_neg a (n + 1)),
      (lit_true_pos a n), (lit_true_pos a (n + 1)) in H by lia.
    destruct (lit_true a x1), (a n), (a (n + 1)); simpl in *; congruence.
  - unfold cnf_true, clause_true in *. simpl in H |- *.
    rewrite (lit_true_neg a n), (lit_true_pos a n) in H by lia.
    destruct (lit_true a x1), (lit_true a x2), (a n); simpl in *; congruence.
  - unfold cnf_true in H. simpl in H. rewrite andb_true_r in H. exact H.
  - change (spec_rule n (x1 :: x2 :: x3 :: x4 :: xs))
      with ([x1; x2; n] :: spec_chain_tail n (x3 :: x4 :: xs)) in H.
    unfold cnf_true in H. cbn [forallb] in H. apply andb_prop in H as [H1 H2].
    unfold clause_true in H1 |- *. cbn [existsb] in H1 |- *.
    rewrite orb_false_r, (lit_true_pos a n) in H1 by exact Hn.
    destruct (lit_true a x1), (lit_true a x2); simpl in *; try reflexivity.
    apply (chain_back a (x3 :: x4 :: xs) n Hn ltac:(simpl; lia) H2 H1).
Qed.

Lemma spec_reduce_back (a : Z -> bool) (cs : list Clause) : forall n : Z,
  0 < n -> Forall (fun c : Clause => c <> []) cs ->
  cnf_true a (spec_reduce n cs) = true -> cnf_true a cs = true.
Proof.
  induction cs as [|c cs IH]; intros n Hn Hne H; [reflexivity|].
  inversion Hne as [|? ? Hc Hcs]; subst.
  simpl in H. unfold cnf_true in H |- *. rewrite forallb_app in H.
  apply andb_prop in H as [H1 H2]. simpl.
  rewrite (spec_rule_back a n c Hn Hc H1).
  apply (IH (n + spec_aux (length c))); [pose proof (spec_aux_nonneg (length c)); lia|exact Hcs|exact H2].
Qed.

Lemma clause_true_agree (a b : Z -> bool) (c : Clause) :
  Forall (fun l => lit_true a l = lit_true b l) c -> clause_true a c = clause_true b c.
Proof.
  induction 1 as [|l c Hl _ IH]; [reflexivity|].
  unfold clause_true in *. simpl. rewrite Hl, IH. reflexivity.
Qed.

Lemma lit_true_restrict (N : Z) (a : Z -> bool) (l : Z) :
  1 <= Z.abs l <= N -> lit_true (restrict N a) l = lit_true a l.
Proof.
  intros Hl. unfold lit_true, restrict.
  destruct (Z.ltb_spec 0 l).
  - destruct (Z.leb_spec l N); [reflexivity|lia].
  - destruct (Z.leb_spec (- l) N); [reflexivity|lia].
Qed.

(** Value given to the [j]-th fresh variable of clause [c]: true iff none of
    the first [j + 2] literals of [c] holds. *)
Definition chain_val (a : Z -> bool) (c : Clause) (j : Z) : bool :=
  negb (existsb (lit_true a) (firstn (Z.to_nat j + 2) c)).

(** Values of all fresh variables, walking the clauses as the reducer does. *)
Fixpoint aux_val (a : Z -> bool) (n : Z) (cs : list Clause) (v : Z) : bool :=
  match cs with
  | [] => false
  | c :: cs' =>
      if v <? n + spec_aux (length c) then chain_val a c (v - n)
      else aux_val a (n + spec_aux (length c)) cs' v
  end.

Definition extend (N : Z) (a : Z -> bool) (cs : list Clause) : Z -> bool :=
  fun v => if v <=? N then a v else aux_val a (N + 1) cs v.

Lemma chain_fwd (a b : Z -> bool) (xs : list Z) : forall (pre : list Z) (y : Z),
  0 < y -> (2 <= length xs)%nat ->
  Forall (fun l => lit_true b l = lit_true a l) xs ->
  (forall i : nat, (i < length xs - 1)%nat ->
     b (y + Z.of_nat i) = negb (existsb (lit_true a) (pre ++ firstn i xs))) ->
  existsb (lit_true a) (pre ++ xs) = true ->
  cnf_true b (spec_chain_tail y xs) = true.
Proof.
  induction xs as [|x xs IH]; intros pre y Hy Hl Hag Hb Hex; simpl in Hl; [lia|].
  inversion Hag as [|? ? Hx Hxs]; subst.
  destruct xs as [|x2 [|x3 xs]]; [simpl in Hl; lia| |].
  - inversion Hxs as [|? ? Hx2 _]; subst.
    specialize (Hb 0%nat ltac:(simpl; lia)). rewrite Z.add_0_r in Hb.
    simpl in Hb. rewrite app_nil_r in Hb.
    unfold cnf_true, clause_true. simpl.
    rewrite lit_true_neg, Hb, Hx, Hx2 by exact Hy.
    rewrite existsb_app in Hex. simpl in Hex.
    destruct (existsb (lit_true a) pre); simpl in *; [reflexivity|].
    destruct (lit_true a x), (lit_true a x2); simpl in *; congruence.
  - change (spec_chain_tail y (x :: x2 :: x3 :: xs))
      with ([- y; x; y + 1] :: spec_chain_tail (y + 1) (x2 :: x3 :: xs)).
    unfold cnf_true. simpl forallb. apply andb_true_intro. split.
    + unfold clause_true. simpl.
      pose proof (Hb 0%nat ltac:(simpl; lia)) as Hb0.
      pose proof (Hb 1%nat ltac:(simpl; lia)) as Hb1.
      rewrite Z.add_0_r in Hb0. simpl in Hb0, Hb1. rewrite app_nil_r in Hb0.
      replace (y + 1) with (y + Z.of_nat 1) by lia.
      rewrite (lit_true_neg b y), (lit_true_pos b (y + Z.of_nat 1)), Hb0, Hb1, Hx by lia.
      rewrite existsb_app. simpl.
      destruct (existsb (lit_true a) pre), (lit_true a x); reflexivity.
    + apply (IH (pre ++ [x]) (y + 1)); [lia|simpl; lia|exact Hxs| |].
      * intros i Hi. rewrite <- app_assoc.
        replace (y + 1 + Z.of_nat i) with (y + Z.of_nat (S i)) by lia.
        rewrite Hb by (simpl in *; lia). reflexivity.
      * rewrite <- app_assoc. exact Hex.
Qed.

Lemma lit_true_agree (a b : Z -> bool) (N l : Z) :
  (forall v, 1 <= v <= N -> b v = a v) -> 1 <= Z.abs l <= N ->
  lit_true b l = lit_true a l.
Proof.
  intros Hab Hl. unfold lit_true.
  destruct (Z.ltb_spec 0 l); [rewrite Hab by lia|rewrite Hab by lia]; reflexivity.
Qed.

Lemma spec_rule_fwd (a b : Z -> bool) (n : Z) (c : Clause) :
  0 < n -> c <> [] ->
  Forall (fun l => lit_true b l = lit_true a l) c ->
  (forall j : Z, 0 <= j < spec_aux (length c) -> b (n + j) = chain_val a c j) ->
  clause_true a c = true ->
  cnf_true b (spec_rule n c) = true.
Proof.
  intros Hn Hc Hag Hb Hcl.
  destruct c as [|x1 [|x2 [|x3 [|x4 xs]]]]; [congruence| | | |].
  - inversion Hag as [|? ? H1 _]; subst.
    unfold clause_true in Hcl. simpl in Hcl. rewrite orb_false_r in Hcl.
    unfold cnf_true, clause_true. simpl. rewrite H1, Hcl. reflexivity.
  - inversion Hag as [|? ? H1 H2']; subst. inversion H2' as [|? ? H2 _]; subst.
    unfold clause_true in Hcl. simpl in Hcl.
    unfold cnf_true, clause_true. simpl. rewrite H1, H2.
    destruct (lit_true a x1), (lit_true a x2); simpl in *; congruence.
  - change (spec_rule n [x1; x2; x3]) with [[x1; x2; x3]]. unfold cnf_true. cbn [forallb]. rewrite andb_true_r.
    rewrite (clause_true_agree b a); [exact Hcl|].
    exact Hag.
  - change (spec_rule n (x1 :: x2 :: x3 :: x4 :: xs))
      with ([x1; x2; n] :: spec_chain_tail n (x3 :: x4 :: xs)).
    assert (Haux : forall i : nat, (i < length (x3 :: x4 :: xs) - 1)%nat ->
      b (n + Z.of_nat i) =
      negb (existsb (lit_true a) ([x1; x2] ++ firstn i (x3 :: x4 :: xs)))).
    { intros i Hi. rewrite Hb.
      - unfold chain_val. rewrite Nat2Z.id.
        replace (i + 2)%nat with (S (S i)) by lia. reflexivity.
      - unfold spec_aux. simpl length in *. cbv iota. lia. }
    inversion Hag as [|? ? H1 H2']; subst. inversion H2' as [|? ? H2 Hrest]; subst.
    unfold cnf_true. cbn [forallb]. apply andb_true_intro. split.
    + unfold clause_true. cbn [existsb].
      pose proof (Haux 0%nat ltac:(simpl; lia)) as H0.
      rewrite Z.add_0_r in H0. rewrite (lit_true_pos b n Hn), H0, H1, H2.
      simpl. destruct (lit_true a x1), (lit_true a x2); reflexivity.
    + apply (chain_fwd a b (x3 :: x4 :: xs) [x1; x2] n Hn ltac:(simpl; lia)
               Hrest Haux Hcl).
Qed.

Lemma spec_reduce_fwd (a b : Z -> bool) (N : Z) (cs : list Clause) : forall n : Z,
  0 <= N < n ->
  Forall (fun c : Clause => c <> [] /\ Forall (fun l => 1 <= Z.abs l <= N) c) cs ->
  (forall v, v <= N -> b v = a v) ->
  (forall v, n <= v -> b v = aux_val a n cs v) ->
  cnf_true a cs = true ->
  cnf_true b (spec_reduce n cs) = true.
Proof.
  induction cs as [|c cs IH]; intros n Hn Hwf Hlow Hhigh Hsat; [reflexivity|].
  inversion Hwf as [|? ? [Hc Hlits] Hwf']; subst.
  unfold cnf_true in Hsat |- *. simpl in Hsat |- *.
  apply andb_prop in Hsat as [Hc1 Hcs].
  rewrite forallb_app. apply andb_true_intro. split.
  - apply (spec_rule_fwd a b n c); [lia|exact Hc| |  |exact Hc1].
    + eapply Forall_impl; [exact Hlits|]. intros l Hl.
      apply (lit_true_agree a b N l); [|exact Hl].
      intros v Hv. apply Hlow. lia.
    + intros j Hj. rewrite Hhigh by lia. simpl.
      destruct (Z.ltb_spec (n + j) (n + spec_aux (length c))); [|lia].
      f_equal. lia.
  - pose proof (spec_aux_nonneg (length c)).
    apply (IH (n + spec_aux (length c))); [lia|exact Hwf'|exact Hlow| |exact Hcs].
    intros v Hv. rewrite Hhigh by lia. simpl.
    destruct (Z.ltb_spec v (n + spec_aux (length c))); [lia|reflexivity].
Qed.

Lemma cnf_true_restrict (N : Z) (a : Z -> bool) (cs : list Clause) :
  Forall (fun c : Clause => Forall (fun l => 1 <= Z.abs l <= N) c) cs ->
  cnf_true (restrict N a) cs = cnf_true a cs.
Proof.
  induction 1 as [|c cs Hc _ IH]; [reflexivity|].
  unfold cnf_true in *. simpl. rewrite IH. f_equal.
  apply clause_true_agree. eapply Forall_impl; [exact Hc|].
  intros l Hl. apply lit_true_restrict. exact Hl.
Qed.

(** Equisatisfiability of the reduction on well-formed formulas without
    empty clauses (the formulas the DIMACS parser produces) whose auxiliary
    variables do not overflow an [int]: the reducer
    meets the equisatisfiability requirement, and the projection of any
    model of F' onto [1..N] is a model of F. *)
Lemma reduce_equisat_nonempty (F : CNFFormula) :
  wf_formula F -> Forall (fun c : Clause => c <> []) (clauses F) ->
  numVars F + aux_total (clauses F) <= INT_MAX ->
  (satisfiable (clauses F) <-> satisfiable (clauses (fst (reduce F)))) /\
  (forall a : Z -> bool, cnf_true a (clauses (fst (reduce F))) = true ->
     cnf_true (restrict (numVars F) a) (clauses F) = true).
Proof.
  intros [HN Hwf] Hne Hmax. pose proof (aux_total_nonneg (clauses F)).
  rewrite reduce_fst_exact; [| apply in_int_spec; unfold INT_MIN, INT_MAX in *; lia
    | exact Hmax | exact Hne | ].
  2:{ eapply Forall_impl; [exact Hwf|]. intros c Hc. eapply Forall_impl; [exact Hc|].
      intros l Hl. apply in_int_spec. unfold INT_MIN, INT_MAX in *; lia. }
  assert (Hback : forall a, cnf_true a (spec_reduce (numVars F + 1) (clauses F)) = true ->
            cnf_true a (clauses F) = true).
  { intros a Ha. apply (spec_reduce_back a _ (numVars F + 1)); [lia|exact Hne|exact Ha]. }
  split; [split|].
  - intros [a Ha]. exists (extend (numVars F) a (clauses F)).
    apply (spec_reduce_fwd a _ (numVars F)); [lia| | | |exact Ha].
    + apply Forall_and. split; [exact Hne|exact Hwf].
    + intros v Hv. unfold extend. destruct (Z.leb_spec v (numVars F)); [reflexivity|lia].
    + intros v Hv. unfold extend. destruct (Z.leb_spec v (numVars F)); [lia|reflexivity].
  - intros [a Ha]. exists a. apply Hback. exact Ha.
  - intros a Ha. rewrite cnf_true_restrict by exact Hwf. apply Hback. exact Ha.
Qed.

(** C2 (code defect). Equisatisfiability fails on an empty clause: the
    formula made of the empty clause (N = 1) is unsatisfiable, but [reduce]
    drops the clause and returns the empty, satisfiable formula; the
    projection of its model (all true) onto [1..N] does not satisfy F. *)
Theorem reduce_empty_clause_not_equisat :
  let F := mkCNF 1 1 [[]] in
  ~ satisfiable (clauses F) /\
  satisfiable (clauses (fst (reduce F))) /\
  cnf_true (fun _ => true) (clauses (fst (reduce F))) = true /\
  cnf_true (restrict (numVars F) (fun _ => true)) (clauses F) = false.
Proof.
  simpl. split; [|split; [|split]].
  - intros [a Ha]. discriminate Ha.
  - exists (fun _ => true). reflexivity.
  - reflexivity.
  - reflexivity.
Qed.

End ReducerFacts.

(* ===================================================================== *)
(** * Facts about the verifier *)
(* ===================================================================== *)
Module VerifierFacts.
Import Verifier.

Lemma verify_loop_unsat (a : list Z) (cs : list Clause) : forall i sat unsat idx,
  0 <= unsat ->
  match verify_loop a i cs sat unsat idx with
  | (_, u, _) => (u =? 0) = (unsat =? 0) && forallb (fun c => isSatisfied c a) cs
  end.
Proof.
  induction cs as [|c cs IH]; intros i sat unsat idx Hu; simpl.
  - rewrite andb_true_r. reflexivity.
  - destruct (isSatisfied c a) eqn:Ec; simpl.
    + apply IH. exact Hu.
    + rewrite andb_false_r.
      destruct (10 <? length (idx ++ [i]))%nat.
      * destruct (Z.eqb_spec (unsat + 1) 0); [lia|reflexivity].
      * specialize (IH (i + 1) sat (unsat + 1) (idx ++ [i]) ltac:(lia)).
        destruct (verify_loop a (i + 1) cs sat (unsat + 1) (idx ++ [i])) as [[s u] x].
        rewrite IH. destruct (Z.eqb_spec (unsat + 1) 0); [lia|reflexivity].
Qed.

(** The verdict of [verify] is the conjunction of the clause checks. *)
Lemma verify_verdict (inst : CNFInstance) (sol : Solution) :
  isSat (verify inst sol) =
    forallb (fun c => isSatisfied c (assignment sol)) (iclauses inst).
Proof.
  unfold verify. destruct (iclauses inst) as [|c cs] eqn:E; [reflexivity|].
  pose proof (verify_loop_unsat (assignment sol) (c :: cs) 0 0 0 [] ltac:(lia)) as H.
  destruct (verify_loop (assignment sol) 0 (c :: cs) 0 0 []) as [[s u] x].
  exact H.
Qed.

Lemma setLiteral_length (lit : Z) (s : Solution) :
  length (assignment (setLiteral lit s)) = length (assignment s).
Proof.
  unfold setLiteral.
  destruct ((0 <=? Z.abs lit) && (Z.abs lit <? Z.of_nat (length (assignment s)))); simpl;
    [apply length_insert|reflexivity].
Qed.

Lemma setLiteral_out_of_range (lit : Z) (s : Solution) :
  Z.of_nat (length (assignment s)) <= Z.abs lit -> setLiteral lit s = s.
Proof.
  intros H. unfold setLiteral.
  destruct (Z.ltb_spec (Z.abs lit) (Z.of_nat (length (assignment s)))); [lia|].
  rewrite andb_false_r. reflexivity.
Qed.

Lemma read_v_line_filter (n : Z) (lits : list Z) (Hn : 0 <= n) : forall s : Solution,
  Z.of_nat (length (assignment s)) = n + 1 ->
  read_v_line lits s = read_v_line (List.filter (fun l => Z.abs l <=? n) lits) s.
Proof.
  induction lits as [|l lits IH]; intros s Hs; [reflexivity|].
  simpl. destruct (Z.eqb_spec l 0) as [->|Hl].
  - simpl. assert (H0 : (Z.abs 0 <=? n) = true) by (apply Z.leb_le; lia).
    rewrite H0. reflexivity.
  - destruct (Z.leb_spec (Z.abs l) n).
    + simpl. destruct (Z.eqb_spec l 0); [congruence|].
      apply IH. rewrite setLiteral_length. exact Hs.
    + rewrite setLiteral_out_of_range by lia. apply IH. exact Hs.
Qed.

Lemma fold_read_v_lines (n : Z) (vlines : list (list Z)) (Hn : 0 <= n) :
  forall s : Solution,
  Z.of_nat (length (assignment s)) = n + 1 ->
  fold_left (fun s l => read_v_line l s) vlines s =
  fold_left (fun s l => read_v_line l s)
    (map (List.filter (fun l => Z.abs l <=? n)) vlines) s.
Proof.
  induction vlines as [|ln vlines IH]; intros s Hs; [reflexivity|].
  simpl. rewrite <- read_v_line_filter by assumption.
  apply IH.
  clear IH. revert s Hs. induction ln as [|l ln IHl]; intros s Hs; simpl; [exact Hs|].
  destruct (l =? 0); [exact Hs|]. apply IHl. rewrite setLiteral_length. exact Hs.
Qed.

(** C9 (code defect). On 11 falsified clauses (the unit clause (1) eleven
    times, variable 1 unset) the verifier's break test
    [unsatisfiedIndices.size() > 10] fires only after the eleventh index is
    pushed: the diagnostic list holds 11 indices, while the verdict is
    correctly false. *)
Theorem verify_collects_eleven_indices :
  let r := verify (mkInstance 1 11 (repeat [1] 11)) (Solution_init 1) in
  isSat r = false /\
  unsatisfiedIndices r = [0; 1; 2; 3; 4; 5; 6; 7; 8; 9; 10] /\
  length (unsatisfiedIndices r) = 11%nat.
Proof. vm_compute. repeat split. Qed.

(** C10. Evaluation is total over out-of-range indices: a literal whose
    variable is at or beyond the assignment's length never makes a clause
    true; a solution literal whose variable exceeds the declared count
    leaves the solution unchanged, so reading a solution file equals
    reading it with those literals removed; and [verify] returns, for any
    instance and solution, the verdict "every clause has a true literal". *)
Theorem verifier_total_out_of_range :
  (forall (lit : Z) (c : Clause) (a : list Z),
     Z.of_nat (length a) <= Z.abs lit -> isSatisfied (lit :: c) a = isSatisfied c a) /\
  (forall (s : Solution) (lit : Z),
     Z.of_nat (length (assignment s)) = snumVars s + 1 -> snumVars s < Z.abs lit ->
     setLiteral lit s = s) /\
  (forall (n : Z) (vlines : list (list Z)), 0 <= n ->
     parse_solution n vlines =
     parse_solution n (map (List.filter (fun l => Z.abs l <=? n)) vlines)) /\
  (forall (inst : CNFInstance) (sol : Solution),
     isSat (verify inst sol) =
       forallb (fun c => isSatisfied c (assignment sol)) (iclauses inst)).
Proof.
  split; [|split; [|split]].
  - intros lit c a H. simpl.
    destruct (Z.ltb_spec (Z.abs lit) (Z.of_nat (length a))); [lia|reflexivity].
  - intros s lit Hlen Hlit. apply setLiteral_out_of_range. lia.
  - intros n vlines Hn. unfold parse_solution, Solution_new.
    destruct (resize_fails (n + 1)); [reflexivity|]. cbn [option_map]. f_equal.
    apply fold_read_v_lines; [exact Hn|]. simpl. rewrite repeat_length. lia.
  - exact verify_verdict.
Qed.

Lemma verifier_total_out_of_range_witness :
  isSatisfied [5; 1] [-1; 1] = isSatisfied [1] [-1; 1] /\
  setLiteral 7 (Solution_init 1) = Solution_init 1 /\
  parse_solution 1 [[1; 7; 0]] = parse_solution 1 [[1; 0]].
Proof.
  split; [|split].
  - apply (proj1 verifier_total_out_of_range). vm_compute. discriminate.
  - apply (proj1 (proj2 verifier_total_out_of_range)); vm_compute; reflexivity.
  - exact (proj1 (proj2 (proj2 verifier_total_out_of_range)) 1 [[1; 7; 0]]
             ltac:(lia)).
Defined.

End VerifierFacts.

(* ===================================================================== *)
(** * Facts about the assignment shared by the solvers *)
(* ===================================================================== *)
Module SolverFacts.
Import Solver.

(** Reading back a written cell. *)
Lemma nth_insert_Z (l : list Z) (i j : nat) (x d : Z) :
  nth j (<[i := x]> l) d = if decide (i = j /\ (i < length l)%nat) then x else nth j l d.
Proof.
  revert i j. induction l as [|y l IH]; intros i j; simpl.
  - case_decide; [simpl in *; lia|done].
  - destruct i as [|i], j as [|j]; simpl; [| | |rewrite IH];
      repeat case_decide; try done; exfalso; lia.
Qed.

Lemma at_insert (l : list Z) (i j : Z) (x : Z) :
  0 <= i -> 0 <= j ->
  at_ (<[Z.to_nat i := x]> l) j = if (i =? j) && (i <? Z.of_nat (length l)) then x else at_ l j.
Proof.
  intros Hi Hj. unfold at_. rewrite nth_insert_Z.
  destruct (decide _) as [[H1 H2]|H];
    destruct (i =? j) eqn:E1, (i <? Z.of_nat (length l)) eqn:E2; simpl; try done;
    rewrite ?Z.eqb_eq, ?Z.eqb_neq, ?Z.ltb_lt, ?Z.ltb_ge in *; lia.
Qed.

(** [backtrackTo] keeps the values' length. *)
Lemma backtrack_loop_length (n : nat) : forall (p : Z) (a : Assignment),
  length (values (backtrack_loop n p a)) = length (values a).
Proof.
  induction n as [|n IH]; intros p a; simpl; [done|].
  destruct (_ && _); [|done]. rewrite IH. simpl. unfold unassign.
  destruct (in_range _ _); simpl; [apply length_insert|done].
Qed.

Lemma backtrackTo_length (a : Assignment) (p : Z) :
  length (values (backtrackTo a p)) = length (values a).
Proof. apply backtrack_loop_length. Qed.

(** [backtrackTo a p], for [p >= 0], truncates the trail to its first [p]
    entries. *)
Lemma backtrack_loop_trail (n : nat) : forall (p : Z) (a : Assignment),
  0 <= p -> length (trail a) = n ->
  trail (backtrack_loop n p a) = take (Z.to_nat p) (trail a).
Proof.
  induction n as [|n IH]; intros p a Hp Hn; simpl.
  - destruct (trail a); [by rewrite take_nil|simpl in Hn; lia].
  - destruct (0 <=? p) eqn:E1; [|rewrite Z.leb_gt in E1; lia].
    destruct (p <? Z.of_nat (length (trail a))) eqn:E2; simpl.
    + rewrite Z.ltb_lt in E2. rewrite IH; [|lia|simpl; rewrite removelast_firstn_len, length_take; lia].
      simpl. apply firstn_removelast. lia.
    + rewrite Z.ltb_ge in E2. rewrite take_ge; [done|lia].
Qed.

Lemma backtrackTo_trail (a : Assignment) (p : Z) :
  0 <= p -> trail (backtrackTo a p) = take (Z.to_nat p) (trail a).
Proof. intros Hp. by apply backtrack_loop_trail. Qed.

(** The invariant of the assignment: no variable twice on the trail, and
    the trail holds exactly the set variables. *)
Definition wf_asg (a : Assignment) : Prop :=
  NoDup (trail a) /\ forall v, v ∈ trail a <-> contains a v = true.

Lemma unassign_contains (a : Assignment) (x v : Z) :
  contains (unassign a x) v = if (x =? v) && in_range a x then false else contains a v.
Proof.
  unfold unassign. destruct (in_range a x) eqn:Hr; [|by rewrite andb_false_r].
  rewrite andb_true_r. unfold contains, in_range in *. cbn [values]. rewrite length_insert.
  apply andb_prop in Hr as [Hx Hxl]. rewrite Z.ltb_lt in Hx.
  destruct (0 <? v) eqn:Ev; cbn [andb].
  - rewrite Z.ltb_lt in Ev. rewrite at_insert by lia.
    destruct (x =? v) eqn:E; cbn [andb]; [|done].
    rewrite Hxl. cbn. apply andb_false_r.
  - destruct (x =? v) eqn:E; [rewrite Z.eqb_eq in E; lia|done].
Qed.

Lemma contains_values (a : Assignment) (t : list Z) (v : Z) :
  contains (mkAsg (values a) t) v = contains a v.
Proof. reflexivity. Qed.

Lemma contains_in_range (a : Assignment) (v : Z) :
  contains a v = true -> in_range a v = true.
Proof. unfold contains. intros H. apply andb_prop in H. by destruct H. Qed.

Lemma in_range_bounds (a : Assignment) (v : Z) :
  in_range a v = true <-> 0 < v < Z.of_nat (length (values a)).
Proof. unfold in_range. rewrite andb_true_iff, !Z.ltb_lt. lia. Qed.

(** Writing a set value ([0] or [1]) at an in-range variable. *)
Lemma set_contains (a : Assignment) (x y : Z) (t : list Z) (v : Z) :
  in_range a x = true -> y <> -1 ->
  contains (mkAsg (<[Z.to_nat x := y]> (values a)) t) v = (x =? v) || contains a v.
Proof.
  intros Hr Hy. apply in_range_bounds in Hr.
  unfold contains, in_range. cbn [values]. rewrite length_insert.
  destruct (0 <? v) eqn:Ev; cbn [andb].
  - rewrite Z.ltb_lt in Ev. rewrite at_insert by lia.
    destruct (x =? v) eqn:E; cbn [orb andb]; [|done].
    rewrite Z.eqb_eq in E. subst v.
    replace (x <? Z.of_nat (length (values a))) with true by (symmetry; apply Z.ltb_lt; lia).
    destruct (y =? -1) eqn:Ey; [rewrite Z.eqb_eq in Ey; done|done].
  - destruct (x =? v) eqn:E; [rewrite Z.eqb_eq in E; lia|done].
Qed.

(** Pushing an unset in-range variable keeps the invariant. *)
Lemma wf_push (a : Assignment) (x y : Z) :
  wf_asg a -> in_range a x = true -> contains a x = false -> y <> -1 ->
  wf_asg (mkAsg (<[Z.to_nat x := y]> (values a)) (trail a ++ [x])).
Proof.
  intros [Hnd Hin] Hr Hc Hy. split; cbn [trail].
  - apply NoDup_app. split; [done|]. split; [|apply NoDup_singleton].
    intros z Hz Hzx. apply list_elem_of_singleton in Hzx. subst z.
    apply Hin in Hz. congruence.
  - intros v. rewrite set_contains by done. rewrite elem_of_app, list_elem_of_singleton, Hin.
    rewrite orb_true_iff, Z.eqb_eq. naive_solver.
Qed.

Lemma wf_pop (a : Assignment) :
  wf_asg a -> trail a <> [] ->
  wf_asg (mkAsg (values (unassign a (List.last (trail a) 0))) (removelast (trail a))).
Proof.
  intros [Hnd Hin] Hne.
  pose proof (app_removelast_last 0 Hne) as Ht.
  set (x := List.last (trail a) 0) in *. set (t' := removelast (trail a)) in *.
  rewrite Ht in Hnd. apply NoDup_app in Hnd as (Hnd' & Hx & _).
  assert (Hxr : in_range a x = true).
  { apply contains_in_range, Hin. rewrite Ht. apply elem_of_app. right. by apply list_elem_of_singleton. }
  split; cbn [trail]; [done|].
  intros v. rewrite contains_values, unassign_contains, Hxr, andb_true_r.
  destruct (x =? v) eqn:E.
  - rewrite Z.eqb_eq in E. subst v. split; [|done].
    intros Hv. exfalso. apply (Hx x Hv). by apply list_elem_of_singleton.
  - rewrite <- Hin, Ht, elem_of_app, list_elem_of_singleton. rewrite Z.eqb_neq in E.
    naive_solver.
Qed.

Lemma wf_backtrack_loop (n : nat) : forall (p : Z) (a : Assignment),
  wf_asg a -> wf_asg (backtrack_loop n p a).
Proof.
  induction n as [|n IH]; intros p a Ha; simpl; [done|].
  destruct (_ && _) eqn:E; [|done]. apply IH. apply wf_pop; [done|].
  intros Hn. rewrite Hn in E. apply andb_prop in E as [E1 E2].
  rewrite Z.leb_le in E1. rewrite Z.ltb_lt in E2. simpl in E2. lia.
Qed.

Lemma wf_backtrackTo (a : Assignment) (p : Z) : wf_asg a -> wf_asg (backtrackTo a p).
Proof. apply wf_backtrack_loop. Qed.

Lemma wf_assign2 (a : Assignment) (x : Z) (b : bool) :
  wf_asg a -> wf_asg (Asg2.assign a x b).
Proof.
  intros Ha. unfold Asg2.assign. destruct (in_range a x) eqn:Hr; [|done].
  destruct (at_ (values a) x =? -1) eqn:Hx; [|done].
  apply wf_push; [done|done| |by destruct b].
  unfold contains. by rewrite Hr, Hx.
Qed.

Lemma wf_assign1 (a : Assignment) (x : Z) (b : bool) :
  wf_asg a -> contains a x = false -> wf_asg (Asg1.assign a x b).
Proof.
  intros Ha Hc. unfold Asg1.assign. destruct (in_range a x) eqn:Hr; [|done].
  apply wf_push; [done|done|done|by destruct b].
Qed.

Lemma assign1_length (a : Assignment) (x : Z) (b : bool) :
  length (values (Asg1.assign a x b)) = length (values a).
Proof. unfold Asg1.assign. destruct (in_range a x); [apply length_insert|done]. Qed.

Lemma assign2_length (a : Assignment) (x : Z) (b : bool) :
  length (values (Asg2.assign a x b)) = length (values a).
Proof.
  unfold Asg2.assign. destruct (in_range a x); [|done].
  destruct (_ =? _); [apply length_insert|done].
Qed.

(** With the invariant, every variable [1..N] set means a trail of length [N]. *)
Lemma wf_full_length (a : Assignment) (N : Z) :
  0 <= N -> wf_asg a -> Z.of_nat (length (values a)) = N + 1 ->
  (forall i, 1 <= i <= N -> contains a i = true) ->
  Z.of_nat (length (trail a)) = N.
Proof.
  intros HN [Hnd Hin] Hl Hall.
  assert (H1 : (length (trail a) <= length (seqZ 1 N))%nat).
  { apply NoDup_incl_length; [by apply NoDup_ListNoDup|].
    intros v Hv. rewrite <- list_elem_of_In in Hv |- *.
    apply Hin, contains_in_range, in_range_bounds in Hv. apply elem_of_seqZ. lia. }
  assert (H2 : (length (seqZ 1 N) <= length (trail a))%nat).
  { apply NoDup_incl_length; [apply NoDup_ListNoDup, NoDup_seqZ|].
    intros v Hv. rewrite <- list_elem_of_In in Hv |- *.
    apply elem_of_seqZ in Hv. apply Hin, Hall. lia. }
  rewrite length_seqZ in H1, H2. lia.
Qed.

Lemma first_unset_spec (a : Assignment) (n : nat) : forall i : Z,
  1 <= i ->
  (first_unset a i n = -1 /\ forall k, i <= k < i + Z.of_nat n -> contains a k = true) \/
  (i <= first_unset a i n < i + Z.of_nat n /\ contains a (first_unset a i n) = false).
Proof.
  induction n as [|n IH]; intros i Hi; simpl.
  - left. split; [done|lia].
  - destruct (contains a i) eqn:Hc; simpl.
    + destruct (IH (i + 1)) as [[H1 H2]|[H1 H2]]; [lia| |].
      * left. split; [done|]. intros k Hk.
        destruct (decide (k = i)); [by subst|]. apply H2. lia.
      * right. split; [lia|done].
    + right. split; [lia|done].
Qed.

Lemma select_loop_spec (a : Assignment) (act : list float) (n : nat) :
  forall (i bv : Z) (bs : float),
  select_loop a act i n bv bs = bv \/
  (i <= select_loop a act i n bv bs < i + Z.of_nat n /\
   contains a (select_loop a act i n bv bs) = false).
Proof.
  induction n as [|n IH]; intros i bv bs; simpl; [by left|].
  destruct (negb (contains a i) && _) eqn:E.
  - right. apply andb_prop in E as [E _]. apply negb_true_iff in E.
    destruct (IH (i + 1) i (nth (Z.to_nat i) act 0%float)) as [H|[H1 H2]].
    + rewrite H. split; [lia|done].
    + split; [lia|done].
  - destruct (IH (i + 1) bv bs) as [H|[H1 H2]]; [by left|]. right. split; [lia|done].
Qed.

(** The decision of both engines: [selectVariable], then the fallback
    loop. It is [-1] exactly when every variable [1..numVars] is set. *)
Definition decision_var (numVars : Z) (s : St) : Z :=
  let v := selectVariable numVars s in
  if v =? -1 then first_unset (asg s) 1 (Z.to_nat numVars) else v.

Lemma decision_var_spec (numVars : Z) (s : St) :
  (decision_var numVars s = -1 /\ forall i, 1 <= i <= numVars -> contains (asg s) i = true) \/
  (1 <= decision_var numVars s <= numVars /\ contains (asg s) (decision_var numVars s) = false).
Proof.
  unfold decision_var, selectVariable.
  destruct (select_loop_spec (asg s) (activity s) (Z.to_nat numVars) 1 (-1) (-1)%float)
    as [H|[H1 H2]].
  - rewrite H. simpl.
    destruct (first_unset_spec (asg s) (Z.to_nat numVars) 1) as [[H3 H4]|[H3 H4]]; [lia| |].
    + left. split; [done|]. intros i Hi. apply H4. lia.
    + right. split; [lia|done].
  - destruct (_ =? -1) eqn:E; [rewrite Z.eqb_eq in E; lia|]. right. split; [lia|done].
Qed.

(** The solver state invariant: [wf_asg] and [values] of size [N + 1]. *)
Definition inv (N : Z) (s : St) : Prop :=
  wf_asg (asg s) /\ Z.of_nat (length (values (asg s))) = N + 1.

Lemma asg_bumpActivity (v : Z) (s : St) : asg (bumpActivity v s) = asg s.
Proof. unfold bumpActivity. by repeat case_match. Qed.

Lemma tm_check_asg (e : Z -> bool) (s s' : St) (u : unit) :
  tm_check e s = Ok u s' -> asg s' = asg s.
Proof. unfold tm_check. case_match; [done|]. by intros [= _ <-]. Qed.

Lemma inv_assign1 (N : Z) (s : St) (x : Z) (b : bool) :
  inv N s -> contains (asg s) x = false ->
  inv N (bumpActivity x (set_asg (Asg1.assign (asg s) x b) s)).
Proof.
  intros [Hw Hl] Hc. unfold inv. rewrite asg_bumpActivity. cbn [asg set_asg].
  rewrite assign1_length. split; [by apply wf_assign1|done].
Qed.

Lemma inv_assign2 (N : Z) (s : St) (x : Z) (b : bool) :
  inv N s -> inv N (bumpActivity x (set_asg (Asg2.assign (asg s) x b) s)).
Proof.
  intros [Hw Hl]. unfold inv. rewrite asg_bumpActivity. cbn [asg set_asg].
  rewrite assign2_length. split; [by apply wf_assign2|done].
Qed.

Lemma inv_backtrackTo (N : Z) (s : St) (p : Z) :
  inv N s -> inv N (set_asg (backtrackTo (asg s) p) s).
Proof.
  intros [Hw Hl]. split; cbn [asg set_asg];
    [by apply wf_backtrackTo|by rewrite backtrackTo_length].
Qed.

Lemma init_inv (N : Z) : 0 <= N -> inv N (init_state N).
Proof.
  intros HN. unfold inv, init_state, Assignment_init. cbn [asg values trail].
  rewrite repeat_length. split; [|lia]. split; [constructor|].
  intros v. split; [intros Hv; by apply not_elem_of_nil in Hv|].
  unfold contains, in_range, at_. cbn [values]. rewrite repeat_length.
  intros H. apply andb_prop in H as [H1 H2]. apply andb_prop in H1 as [H0 H1].
  rewrite Z.ltb_lt in H0, H1. rewrite nth_repeat_lt in H2 by lia. done.
Qed.

(** Two outcomes that agree on the value and on the assignment. *)
Definition res_rel {A} (r1 r2 : Res A) : Prop :=
  match r1, r2 with
  | Ok x s, Ok y t => x = y /\ asg s = asg t
  | Timeout, Timeout => True
  | OutOfFuel, OutOfFuel => True
  | LengthError, LengthError => True
  | _, _ => False
  end.

(** A clock that never expires. *)
Lemma tm_check_never (e : Z -> bool) (s : St) :
  (forall c, e c = false) ->
  tm_check e s = Ok tt (mkSt (asg s) (activity s) (varInc s) (checkCounter s + 1)).
Proof. intros He. unfold tm_check. by rewrite He, andb_false_r. Qed.

Lemma inv_same_asg (N : Z) (s s' : St) : asg s' = asg s -> inv N s -> inv N s'.
Proof. unfold inv. by intros ->. Qed.

End SolverFacts.

(* ===================================================================== *)
(** * Facts about the watched-literal CDCL *)
(* ===================================================================== *)
Module CDCL1Facts.
Import Solver SolverFacts CDCL1.

Lemma scan_unset (a : Assignment) (lits : list Lit) : forall (u : Lit) (cnt : Z) u' cnt',
  scan a lits u cnt = (false, u', cnt') -> (u' = u /\ cnt' = cnt) \/ contains a (var u') = false.
Proof.
  induction lits as [|lit lits IH]; intros u cnt u' cnt' H; simpl in H.
  - injection H as <- <-. by left.
  - destruct (contains a (var lit)) eqn:Hc.
    + destruct (Bool.eqb _ _); [discriminate|]. by apply IH in H.
    + apply IH in H as [[-> _]|H]; by right.
Qed.

Lemma visit_inv (N : Z) (cls : list Clause) (ws : list Z) : forall q s r s',
  inv N s -> visit cls ws q s = Ok r s' -> inv N s'.
Proof.
  induction ws as [|ci ws IH]; intros q s r s' Hs H; cbn [visit] in H.
  - by injection H as _ <-.
  - cbv [bind get ret modify] in H.
    destruct (scan (asg s) _ _ _) as [[[|] u] cnt] eqn:Hsc; [by eapply IH|].
    destruct (cnt =? 0) eqn:E0; [by injection H as _ <-|].
    destruct (cnt =? 1) eqn:E1; [|by eapply IH].
    eapply IH; [|exact H]. apply inv_assign1; [done|].
    apply scan_unset in Hsc as [[_ ->]|Hsc]; [discriminate|done].
Qed.

Lemma prop_loop_inv (e : Z -> bool) (cls : list Clause) (N : Z) (fuel : nat) :
  forall queue s b s', inv N s -> prop_loop e cls N fuel queue s = Ok b s' -> inv N s'.
Proof.
  induction fuel as [|fuel IH]; intros [|l queue] s b s' Hs H; cbn [prop_loop] in H;
    cbv [bind ret out_of_fuel] in H; try discriminate; try by injection H as _ <-.
  destruct (tm_check e s) as [[] s1| | |] eqn:Ht; try discriminate.
  apply tm_check_asg in Ht. apply (inv_same_asg N) in Ht; [|done].
  destruct (visit cls _ queue s1) as [[q|] s2| | |] eqn:Hv; try discriminate.
  - eapply IH; [|exact H]. by eapply visit_inv.
  - injection H as _ <-. by eapply visit_inv.
Qed.

Lemma check_propagate_inv (e : Z -> bool) (cls : list Clause) (N : Z) (s : St) b s' :
  inv N s -> check_propagate e cls N s = Ok b s' -> inv N s'.
Proof.
  intros Hs H. unfold check_propagate, propagate in H. cbv [bind get] in H.
  destruct (tm_check e s) as [[] s1| | |] eqn:Ht; try discriminate.
  apply tm_check_asg in Ht. apply (inv_same_asg N) in Ht; [|done].
  by eapply prop_loop_inv.
Qed.

(** The conflict branch of a turn: UNSAT at a trail of length [<= 1],
    otherwise the trail is cut to half its length, then emptied by the
    restart once more than 100 conflicts are counted. *)
Lemma after_conflict (cls : list Clause) (N c d : Z) (s : St) :
  let len := Z.of_nat (length (trail (asg s))) in
  (len <= 1 -> after_propagate cls N false c d s = Ok (Return (false, asg s)) s) /\
  (1 < len -> exists s',
     after_propagate cls N false c d s =
       Ok (Continue (if 100 <? c + 1 then 0 else c + 1) d) s' /\
     asg s' = (if 100 <? c + 1 then backtrackTo (backtrackTo (asg s) (len / 2)) 0
               else backtrackTo (asg s) (len / 2)) /\
     (inv N s -> inv N s')).
Proof.
  intros len. unfold after_propagate. cbv [bind get ret modify]. fold len.
  split; intros Hlen.
  - by replace (len <=? 1) with true by (symmetry; apply Z.leb_le; lia).
  - replace (len <=? 1) with false by (symmetry; apply Z.leb_gt; lia).
    set (a := backtrackTo (asg s) (len / 2)).
    assert (Ha : inv N s -> inv N (set_asg a s)) by apply inv_backtrackTo.
    destruct ((c + 1) mod 50 =? 0); destruct (100 <? c + 1); eexists; (split; [reflexivity|]);
      cbn; (split; [done|]); intros Hs.
    + apply (inv_backtrackTo N (decayActivities (set_asg a s)) 0). by apply Ha.
    + by apply Ha.
    + apply (inv_backtrackTo N (set_asg a s) 0). by apply Ha.
    + by apply Ha.
Qed.

Lemma after_conflict_trail (a : Assignment) (c : Z) :
  let len := Z.of_nat (length (trail a)) in
  trail (if 100 <? c + 1 then backtrackTo (backtrackTo a (len / 2)) 0
         else backtrackTo a (len / 2)) =
  (if 100 <? c + 1 then [] else take (Z.to_nat (len / 2)) (trail a)).
Proof.
  intros len. assert (0 <= len / 2) by (apply Z.div_pos; lia).
  destruct (100 <? c + 1); rewrite !backtrackTo_trail by lia; [by rewrite take_0|done].
Qed.

(** The branch after a successful propagation never answers UNSAT: with
    the invariant, no unset variable left means a full trail, and the
    answer is then [true]. *)
Lemma after_no_conflict (cls : list Clause) (N c d : Z) (s : St) st s' :
  0 <= N -> inv N s -> after_propagate cls N true c d s = Ok st s' ->
  (exists a, st = Return (true, a)) \/ (st = Continue c d /\ inv N s').
Proof.
  intros HN Hs H. unfold after_propagate in H. cbv [bind get ret modify] in H. cbn [negb] in H.
  destruct (_ && _); [injection H as <- _; by left; eexists|].
  change (if selectVariable N s =? -1 then first_unset (asg s) 1 (Z.to_nat N)
          else selectVariable N s) with (decision_var N s) in H.
  destruct (decision_var_spec N s) as [[Hv Hall]|[Hv Hc]].
  - rewrite Hv in H. cbn in H. injection H as <- _. left. eexists.
    rewrite (wf_full_length (asg s) N HN (proj1 Hs) (proj2 Hs) Hall), Z.eqb_refl. done.
  - destruct (decision_var N s =? -1) eqn:E; [rewrite Z.eqb_eq in E; lia|].
    injection H as <- <-. right. split; [done|].
    destruct Hs as [Hw Hl]. split; cbn [asg set_asg];
      [by apply wf_assign1|by rewrite assign1_length].
Qed.

(** One turn of the loop: UNSAT only at a conflict with a trail of length
    [<= 1]. *)
Lemma body_cases (e : Z -> bool) (cls : list Clause) (N c d : Z) (s : St) st s' :
  0 <= N -> inv N s -> body e cls N c d s = Ok st s' ->
  (exists s1, check_propagate e cls N s = Ok false s1 /\
     Z.of_nat (length (trail (asg s1))) <= 1 /\ st = Return (false, asg s1)) \/
  (exists a, st = Return (true, a)) \/
  (exists c', st = Continue c' (d + 1) /\ inv N s').
Proof.
  intros HN Hs H. unfold body in H. cbv [bind] in H.
  destruct (check_propagate e cls N s) as [ok s1| | |] eqn:Hp; try discriminate.
  pose proof (check_propagate_inv e cls N s ok s1 Hs Hp) as Hs1.
  destruct ok.
  - destruct (after_no_conflict cls N c (d + 1) s1 st s' HN Hs1 H) as [Hr|[-> Hi]].
    + by right; left.
    + right; right. eexists. by split.
  - destruct (decide (Z.of_nat (length (trail (asg s1))) <= 1)) as [Hl|Hl].
    + rewrite (proj1 (after_conflict cls N c (d + 1) s1) Hl) in H.
      injection H as <- _. left. by eexists.
    + destruct (proj2 (after_conflict cls N c (d + 1) s1)) as (s2 & H2 & _ & Hi); [lia|].
      rewrite H2 in H. injection H as <- <-. right; right. eexists. split; [done|]. by apply Hi.
Qed.

(** The states met at the top of the [while] loop of [solve]: the initial
    one, and those a turn with [decisions < 1000000] continues to. *)
Inductive reach (e : Z -> bool) (cls : list Clause) (N : Z) : Z -> Z -> St -> Prop :=
| reach_init : reach e cls N 0 0 (init_state N)
| reach_next c d s c' d' s' :
    reach e cls N c d s -> d < 1000000 ->
    body e cls N c d s = Ok (Continue c' d') s' -> reach e cls N c' d' s'.

Lemma reach_inv (e : Z -> bool) (cls : list Clause) (N : Z) c d s :
  0 <= N -> reach e cls N c d s -> inv N s /\ 0 <= d <= 1000000.
Proof.
  intros HN H. induction H as [|c d s c' d' s' Hr [Hi Hd] Hlt Hb].
  - split; [by apply init_inv|lia].
  - destruct (body_cases e cls N c d s _ s' HN Hi Hb) as [(s1 & _ & _ & ?)|[[a ?]|(c'' & Hc & Hi')]];
      try discriminate.
    injection Hc as -> ->. split; [done|lia].
Qed.

(** How the [while] loop can end with [false]: a turn whose propagation
    conflicts on a trail of length [<= 1], or the end of the loop at
    [decisions = 1000000]. *)
Lemma solve_loop_false (e : Z -> bool) (cls : list Clause) (N : Z) (fuel : nat) :
  0 <= N -> forall c d s a s_end,
  reach e cls N c d s -> solve_loop e cls N fuel c d s = Ok (false, a) s_end ->
  (exists c1 d1 s1 s2, reach e cls N c1 d1 s1 /\ d1 < 1000000 /\
     check_propagate e cls N s1 = Ok false s2 /\
     Z.of_nat (length (trail (asg s2))) <= 1 /\ a = asg s2) \/
  (exists c1 s1, reach e cls N c1 1000000 s1 /\ a = asg s1).
Proof.
  intros HN. induction fuel as [|fuel IH]; intros c d s a s_end Hr H;
    cbn [solve_loop] in H; [discriminate|].
  destruct (reach_inv e cls N c d s HN Hr) as [Hi Hd].
  destruct (d <? 1000000) eqn:Ed.
  - rewrite Z.ltb_lt in Ed. cbv [bind ret] in H.
    destruct (body e cls N c d s) as [st s1| | |] eqn:Hb; try discriminate.
    destruct (body_cases e cls N c d s st s1 HN Hi Hb)
      as [(s2 & Hp & Hl & ->)|[[a0 ->]|(c' & -> & _)]].
    + injection H as <- _. left. by exists c, d, s, s2.
    + discriminate.
    + eapply IH; [|exact H]. by eapply reach_next.
  - rewrite Z.ltb_ge in Ed. cbv [bind get ret] in H. injection H as <- _.
    right. exists c, s. split; [|done].
    by replace 1000000 with d by lia.
Qed.

(** Propagation reads and writes only the assignment: the activities and
    the counter do not change its outcome (with a clock that never
    expires). *)
Lemma visit_sim (cls : list Clause) (ws : list Z) : forall q s t,
  asg s = asg t -> res_rel (visit cls ws q s) (visit cls ws q t).
Proof.
  induction ws as [|ci ws IH]; intros q s t Hst; cbn [visit]; cbv [bind get ret modify].
  - by split.
  - rewrite Hst. destruct (scan (asg t) _ _ _) as [[[|] u] cnt]; [by apply IH|].
    destruct (cnt =? 0); cbn beta; [by split|].
    destruct (cnt =? 1); cbn beta; [|by apply IH].
    apply IH. rewrite !asg_bumpActivity. cbn. by rewrite Hst.
Qed.

Lemma prop_loop_sim (e : Z -> bool) (cls : list Clause) (N : Z) (fuel : nat) :
  (forall c, e c = false) -> forall q s t,
  asg s = asg t -> res_rel (prop_loop e cls N fuel q s) (prop_loop e cls N fuel q t).
Proof.
  intros He. induction fuel as [|fuel IH]; intros [|l q] s t Hst; cbn [prop_loop];
    cbv [bind ret out_of_fuel]; try by split.
  rewrite !(tm_check_never e _ He).
  pose proof (visit_sim cls (nth (Z.to_nat (litToIdx l)) (watches cls N) []) q
    (mkSt (asg s) (activity s) (varInc s) (checkCounter s + 1))
    (mkSt (asg t) (activity t) (varInc t) (checkCounter t + 1)) Hst) as Hv.
  destruct (visit _ _ _ (mkSt (asg s) _ _ _)) as [r1 s1| | |],
    (visit _ _ _ (mkSt (asg t) _ _ _)) as [r2 t1| | |]; try done.
  destruct Hv as [<- Hv]. destruct r1; [by apply IH|by split].
Qed.

Lemma check_propagate_sim (e : Z -> bool) (cls : list Clause) (N : Z) (s t : St) :
  (forall c, e c = false) -> asg s = asg t ->
  res_rel (check_propagate e cls N s) (check_propagate e cls N t).
Proof.
  intros He Hst. unfold check_propagate, propagate. cbv [bind get].
  rewrite !(tm_check_never e _ He). cbn [asg]. rewrite Hst.
  by apply prop_loop_sim.
Qed.

(** The decision branch of a turn, when the trail is not full and a
    variable is free. *)
Lemma after_decision (cls : list Clause) (N c d : Z) (s : St) :
  Z.of_nat (length (trail (asg s))) <> N -> 1 <= decision_var N s ->
  after_propagate cls N true c d s =
    Ok (Continue c d)
       (set_asg (Asg1.assign (asg s) (decision_var N s)
                   (if d mod 3 =? 0 then false else true)) s).
Proof.
  intros Hl Hv. unfold after_propagate. cbv [bind get ret modify]. cbn [negb].
  replace (Z.of_nat (length (trail (asg s))) =? N) with false
    by (symmetry; by apply Z.eqb_neq). cbn [andb].
  change (if selectVariable N s =? -1 then first_unset (asg s) 1 (Z.to_nat N)
          else selectVariable N s) with (decision_var N s).
  by replace (decision_var N s =? -1) with false by (symmetry; apply Z.eqb_neq; lia).
Qed.

Lemma res_rel_ok {A} (r : Res A) (x : A) (t : St) :
  res_rel r (Ok x t) -> exists s, r = Ok x s /\ asg s = asg t.
Proof. destruct r as [y s| | |]; cbn; [intros [-> H]; by exists s|done|done|done]. Qed.

(** Comparison of two assignments. *)
Definition asg_eqb (a b : Assignment) : bool :=
  bool_decide (values a = values b) && bool_decide (trail a = trail b).

Lemma asg_eqb_eq (a b : Assignment) : asg_eqb a b = true -> a = b.
Proof.
  unfold asg_eqb. rewrite andb_true_iff, !bool_decide_eq_true.
  destruct a, b; cbn. by intros [-> ->].
Qed.

(** The formula with the four clauses on two variables
    (x1 | x2), (x1 | ~x2), (~x1 | x2), (~x1 | ~x2), and a clock that never
    expires. *)
Definition F2 : list Clause := parse_clauses 0 [[1; 2]; [1; -2]; [-1; 2]; [-1; -2]].
Definition never : Z -> bool := fun _ => false.
Definition A0 : Assignment := mkAsg [-1; -1; -1] [].
Definition canon (a : Assignment) : St := mkSt a [0%float; 0%float; 0%float] 1%float 0.

(** From an empty trail, propagation does nothing. *)
Definition empty_check : bool :=
  match check_propagate never F2 2 (canon A0) with
  | Ok true t => asg_eqb (asg t) A0
  | _ => false
  end.

(** From a trail with one variable, propagation sets the other one and
    meets a conflict at trail length 2; halving the trail goes back. *)
Definition conflict_check (a : Assignment) : bool :=
  match check_propagate never F2 2 (canon a) with
  | Ok false t => Nat.eqb (length (trail (asg t))) 2 && asg_eqb (backtrackTo (asg t) 1) a
                  && asg_eqb (backtrackTo a 0) A0
  | _ => false
  end.

(** The states of the loop on [F2]: empty trail, or one variable set. *)
Definition F2_state (s : St) : Prop :=
  asg s = A0 \/ exists v b, (v = 1 \/ v = 2) /\ asg s = Asg1.assign A0 v b.

Lemma empty_check_ok : empty_check = true.
Proof. vm_compute. reflexivity. Qed.

Lemma conflict_check_ok (v : Z) (b : bool) :
  v = 1 \/ v = 2 -> conflict_check (Asg1.assign A0 v b) = true.
Proof. intros [-> | ->]; destruct b; vm_compute; reflexivity. Qed.

Lemma prop_empty (s : St) :
  asg s = A0 -> exists s1, check_propagate never F2 2 s = Ok true s1 /\ asg s1 = A0.
Proof.
  intros Hs. pose proof empty_check_ok as E. unfold empty_check in E.
  pose proof (check_propagate_sim never F2 2 s (canon A0) (fun _ => eq_refl) Hs) as Hr.
  destruct (check_propagate never F2 2 (canon A0)) as [[|] t| | |]; try discriminate.
  apply asg_eqb_eq in E. apply res_rel_ok in Hr as (s1 & H1 & H2).
  exists s1. split; [done|]. by rewrite H2.
Qed.

Lemma prop_conflict (a : Assignment) (s : St) :
  conflict_check a = true -> asg s = a ->
  exists s1, check_propagate never F2 2 s = Ok false s1 /\
    length (trail (asg s1)) = 2%nat /\ backtrackTo (asg s1) 1 = a /\ backtrackTo a 0 = A0.
Proof.
  intros E Hs. unfold conflict_check in E.
  pose proof (check_propagate_sim never F2 2 s (canon a) (fun _ => eq_refl) Hs) as Hr.
  destruct (check_propagate never F2 2 (canon a)) as [[|] t| | |]; try discriminate.
  apply andb_prop in E as [E E0]. apply andb_prop in E as [El E1].
  apply Nat.eqb_eq in El. apply asg_eqb_eq in E1, E0.
  apply res_rel_ok in Hr as (s1 & H1 & H2). exists s1. by rewrite H2.
Qed.

(** Every turn on [F2] continues, and its conflicts are met at trail
    length 2. *)
Lemma F2_step (c d : Z) (s : St) :
  F2_state s ->
  exists c' s', body never F2 2 c d s = Ok (Continue c' (d + 1)) s' /\ F2_state s' /\
    forall s1, check_propagate never F2 2 s = Ok false s1 -> length (trail (asg s1)) = 2%nat.
Proof.
  intros [Hs|(v & b & Hv & Hs)].
  - destruct (prop_empty s Hs) as (s1 & Hp & Hs1). unfold body. cbv [bind]. rewrite Hp.
    destruct (decision_var_spec 2 s1) as [[_ Hall]|[Hd Hc]].
    + exfalso. specialize (Hall 1 ltac:(lia)). rewrite Hs1 in Hall. discriminate.
    + rewrite after_decision; [|rewrite Hs1; cbn; lia|lia].
      eexists _, _. split; [reflexivity|]. split.
      * right. eexists _, _. split; [|cbn [asg set_asg]; rewrite Hs1; reflexivity]. lia.
      * intros s2 H. discriminate.
  - destruct (prop_conflict _ s (conflict_check_ok v b Hv) Hs) as (s1 & Hp & Hl & Hb1 & Hb0).
    unfold body. cbv [bind]. rewrite Hp.
    destruct (proj2 (after_conflict F2 2 c (d + 1) s1)) as (s2 & H2 & Ha & _);
      [rewrite Hl; cbn; lia|].
    rewrite H2. eexists _, _. split; [reflexivity|]. split.
    + unfold F2_state. rewrite Ha, Hl. change (Z.of_nat 2 / 2) with 1.
      rewrite Hb1. destruct (100 <? c + 1); [by left|]. right. by exists v, b.
    + intros s3 H. by injection H as <-.
Qed.

Lemma F2_reach (c d : Z) (s : St) : reach never F2 2 c d s -> F2_state s.
Proof.
  induction 1 as [|c d s c' d' s' _ IH _ Hb]; [by left|].
  destruct (F2_step c d s IH) as (c'' & s'' & Hb' & Hs'' & _).
  rewrite Hb in Hb'. by injection Hb' as _ _ <-.
Qed.

Lemma F2_loop (fuel : nat) : forall c d s,
  F2_state s -> 0 <= d <= 1000000 -> 1000000 - d < Z.of_nat fuel ->
  exists a s', solve_loop never F2 2 fuel c d s = Ok (false, a) s'.
Proof.
  induction fuel as [|fuel IH]; intros c d s Hs Hd Hf; [lia|]. cbn [solve_loop].
  destruct (d <? 1000000) eqn:Ed.
  - rewrite Z.ltb_lt in Ed. destruct (F2_step c d s Hs) as (c' & s' & Hb & Hs' & _).
    cbv [bind]. rewrite Hb. apply IH; [done|lia|lia].
  - cbv [bind get ret]. by eexists _, _.
Qed.

Lemma solve_ok_loop1 (e : Z -> bool) (cls : list Clause) (N : Z) r s :
  CDCL1.solve e cls N = Ok r s ->
  CDCL1.solve_loop e cls N (Z.to_nat 1000001) 0 0 (init_state N) = Ok r s.
Proof. unfold CDCL1.solve. destruct (_ || _); [discriminate|done]. Qed.

Lemma solve_unfold (e : Z -> bool) (cls : list Clause) (N : Z) :
  resize_fails (N + 1) || resize_fails (2 * N + 2) = false ->
  CDCL1.solve e cls N = CDCL1.solve_loop e cls N (Z.to_nat 1000001) 0 0 (init_state N).
Proof. intros H. unfold CDCL1.solve. by rewrite H. Qed.

End CDCL1Facts.

(* ===================================================================== *)
(** * Facts about the re-scan CDCL *)
(* ===================================================================== *)
Module CDCL2Facts.
Import Solver SolverFacts CDCL2.

Lemma pass_inv (N : Z) (cs : list Clause) : forall changed s r s',
  inv N s -> pass cs changed s = Ok r s' -> inv N s'.
Proof.
  induction cs as [|c cs IH]; intros changed s r s' Hs H; cbn [pass] in H;
    cbv [bind get ret modify] in H; [by injection H as _ <-|].
  destruct (isSatisfied c _); [by eapply IH|].
  destruct (scan _ _ _ _ _) as [[u cnt] hc].
  destruct (hc && (cnt =? 0)); [by injection H as _ <-|].
  destruct (cnt =? 1); [|by eapply IH].
  eapply IH; [|exact H]. by apply inv_assign2.
Qed.

Lemma up_loop_inv (e : Z -> bool) (cls : list Clause) (N : Z) (fuel : nat) :
  forall s b s', inv N s -> up_loop e cls fuel s = Ok b s' -> inv N s'.
Proof.
  induction fuel as [|fuel IH]; intros s b s' Hs H; cbn [up_loop] in H;
    cbv [bind ret out_of_fuel] in H; [discriminate|].
  destruct (tm_check e s) as [[] s1| | |] eqn:Ht; try discriminate.
  apply tm_check_asg in Ht. apply (inv_same_asg N) in Ht; [|done].
  destruct (pass cls false s1) as [r s2| | |] eqn:Hp; try discriminate.
  apply (pass_inv N) in Hp; [|done].
  destruct r as [[]|]; [by eapply IH| |]; by injection H as _ <-.
Qed.

Lemma check_propagate_inv2 (e : Z -> bool) (cls : list Clause) (N : Z) (s : St) b s' :
  inv N s -> check_propagate e cls s = Ok b s' -> inv N s'.
Proof.
  intros Hs H. unfold check_propagate, unitPropagation in H. cbv [bind get] in H.
  destruct (tm_check e s) as [[] s1| | |] eqn:Ht; try discriminate.
  apply tm_check_asg in Ht. apply (inv_same_asg N) in Ht; [|done].
  by eapply up_loop_inv.
Qed.

(** The conflict branch: UNSAT at a trail of length [<= 1], otherwise
    the trail is cut to [max(0, length - 5)], then emptied by the restart
    when [conflicts > 200 * (1 + conflicts / 1000)]. *)
Lemma after_conflict2 (cls : list Clause) (N c d : Z) (s : St) :
  let len := Z.of_nat (length (trail (asg s))) in
  let r := 200 * (1 + (c + 1) / 1000) <? c + 1 in
  (len <= 1 -> after_propagate cls N false c d s = Ok (Return (false, asg s)) s) /\
  (1 < len -> exists s',
     after_propagate cls N false c d s = Ok (Continue (if r then 0 else c + 1) d) s' /\
     asg s' = (if r then backtrackTo (backtrackTo (asg s) (Z.max 0 (len - 5))) 0
               else backtrackTo (asg s) (Z.max 0 (len - 5))) /\
     (inv N s -> inv N s')).
Proof.
  intros len r. unfold after_propagate. cbv [bind get ret modify]. fold len. fold r.
  split; intros Hlen.
  - by replace (len <=? 1) with true by (symmetry; apply Z.leb_le; lia).
  - replace (len <=? 1) with false by (symmetry; apply Z.leb_gt; lia).
    set (a := backtrackTo (asg s) (Z.max 0 (len - 5))).
    assert (Ha : inv N s -> inv N (set_asg a s)) by apply inv_backtrackTo.
    destruct ((c + 1) mod 100 =? 0); destruct r; eexists; (split; [reflexivity|]);
      cbn; (split; [done|]); intros Hs.
    + apply (inv_backtrackTo N (decayActivities (set_asg a s)) 0). by apply Ha.
    + by apply Ha.
    + apply (inv_backtrackTo N (set_asg a s) 0). by apply Ha.
    + by apply Ha.
Qed.

Lemma after_conflict_trail2 (a : Assignment) (r : bool) :
  let len := Z.of_nat (length (trail a)) in
  trail (if r then backtrackTo (backtrackTo a (Z.max 0 (len - 5))) 0
         else backtrackTo a (Z.max 0 (len - 5))) =
  (if r then [] else take (Z.to_nat (Z.max 0 (len - 5))) (trail a)).
Proof.
  intros len. destruct r; rewrite !backtrackTo_trail by lia; [by rewrite take_0|done].
Qed.

(** After a successful propagation no turn answers UNSAT when
    [numVars >= 1]: a full trail is verified, and on failure halved, never
    empty; no free variable means a full trail. *)
Lemma after_no_conflict2 (cls : list Clause) (N c d : Z) (s : St) st s' :
  1 <= N -> inv N s -> after_propagate cls N true c d s = Ok st s' ->
  (exists a, st = Return (true, a)) \/ (st = Continue c d /\ inv N s').
Proof.
  intros HN Hs H. unfold after_propagate in H. cbv [bind get ret modify] in H. cbn [negb] in H.
  destruct (Z.of_nat (length (trail (asg s))) =? N) eqn:EN.
  - destruct (verifySolution _ _); [injection H as <- _; by left; eexists|].
    rewrite Z.eqb_eq in EN.
    replace (0 <? Z.of_nat (length (trail (asg s)))) with true in H
      by (symmetry; apply Z.ltb_lt; lia).
    injection H as <- <-. right. split; [done|]. by apply inv_backtrackTo.
  - change (if selectVariable N s =? -1 then first_unset (asg s) 1 (Z.to_nat N)
            else selectVariable N s) with (decision_var N s) in H.
    destruct (decision_var_spec N s) as [[Hv Hall]|[Hv Hc]].
    + exfalso. rewrite Z.eqb_neq in EN. apply EN.
      apply wf_full_length; [lia|apply Hs|apply Hs|done].
    + replace (decision_var N s =? -1) with false in H by (symmetry; apply Z.eqb_neq; lia).
      injection H as <- <-. right. split; [done|].
      destruct Hs as [Hw Hl]. split; cbn [asg set_asg];
        [by apply wf_assign2|by rewrite assign2_length].
Qed.

Lemma body_cases2 (e : Z -> bool) (cls : list Clause) (N c d : Z) (s : St) st s' :
  1 <= N -> inv N s -> body e cls N c d s = Ok st s' ->
  (exists s1, check_propagate e cls s = Ok false s1 /\
     Z.of_nat (length (trail (asg s1))) <= 1 /\ st = Return (false, asg s1)) \/
  (exists a, st = Return (true, a)) \/
  (exists c', st = Continue c' (d + 1) /\ inv N s').
Proof.
  intros HN Hs H. unfold body in H. cbv [bind] in H.
  destruct (check_propagate e cls s) as [ok s1| | |] eqn:Hp; try discriminate.
  pose proof (check_propagate_inv2 e cls N s ok s1 Hs Hp) as Hs1.
  destruct ok.
  - destruct (after_no_conflict2 cls N c (d + 1) s1 st s' HN Hs1 H) as [Hr|[-> Hi]].
    + by right; left.
    + right; right. eexists. by split.
  - destruct (decide (Z.of_nat (length (trail (asg s1))) <= 1)) as [Hl|Hl].
    + rewrite (proj1 (after_conflict2 cls N c (d + 1) s1) Hl) in H.
      injection H as <- _. left. by eexists.
    + destruct (proj2 (after_conflict2 cls N c (d + 1) s1)) as (s2 & H2 & _ & Hi); [lia|].
      rewrite H2 in H. injection H as <- <-. right; right. eexists. split; [done|]. by apply Hi.
Qed.

(** The states met at the top of the [while] loop of [solve]. *)
Inductive reach (e : Z -> bool) (cls : list Clause) (N : Z) : Z -> Z -> St -> Prop :=
| reach_init : reach e cls N 0 0 (init_state N)
| reach_next c d s c' d' s' :
    reach e cls N c d s -> d < 5000000 ->
    body e cls N c d s = Ok (Continue c' d') s' -> reach e cls N c' d' s'.

Lemma reach_inv2 (e : Z -> bool) (cls : list Clause) (N : Z) c d s :
  1 <= N -> reach e cls N c d s -> inv N s /\ 0 <= d <= 5000000.
Proof.
  intros HN H. induction H as [|c d s c' d' s' Hr [Hi Hd] Hlt Hb].
  - split; [apply init_inv; lia|lia].
  - destruct (body_cases2 e cls N c d s _ s' HN Hi Hb) as [(s1 & _ & _ & ?)|[[a ?]|(c'' & Hc & Hi')]];
      try discriminate.
    injection Hc as -> ->. split; [done|lia].
Qed.

Lemma solve_loop_false2 (e : Z -> bool) (cls : list Clause) (N : Z) (fuel : nat) :
  1 <= N -> forall c d s a s_end,
  reach e cls N c d s -> solve_loop e cls N fuel c d s = Ok (false, a) s_end ->
  (exists c1 d1 s1 s2, reach e cls N c1 d1 s1 /\ d1 < 5000000 /\
     check_propagate e cls s1 = Ok false s2 /\
     Z.of_nat (length (trail (asg s2))) <= 1 /\ a = asg s2) \/
  (exists c1 s1, reach e cls N c1 5000000 s1 /\ a = asg s1).
Proof.
  intros HN. induction fuel as [|fuel IH]; intros c d s a s_end Hr H;
    cbn [solve_loop] in H; [discriminate|].
  destruct (reach_inv2 e cls N c d s HN Hr) as [Hi Hd].
  destruct (d <? 5000000) eqn:Ed.
  - rewrite Z.ltb_lt in Ed. cbv [bind ret] in H.
    destruct (body e cls N c d s) as [st s1| | |] eqn:Hb; try discriminate.
    destruct (body_cases2 e cls N c d s st s1 HN Hi Hb)
      as [(s2 & Hp & Hl & ->)|[[a0 ->]|(c' & -> & _)]].
    + injection H as <- _. left. by exists c, d, s, s2.
    + discriminate.
    + eapply IH; [|exact H]. by eapply reach_next.
  - rewrite Z.ltb_ge in Ed. cbv [bind get ret] in H. injection H as <- _.
    right. exists c, s. split; [|done].
    by replace 5000000 with d by lia.
Qed.

Lemma solve_ok_loop2 (e : Z -> bool) (cls : list Clause) (N : Z) r s :
  CDCL2.solve e cls N = Ok r s ->
  CDCL2.solve_loop e cls N (Z.to_nat 5000001) 0 0 (init_state N) = Ok r s /\
  resize_fails (N + 1) = false.
Proof. unfold CDCL2.solve. destruct (resize_fails (N + 1)); [discriminate|done]. Qed.

End CDCL2Facts.

(* ===================================================================== *)
(** * The claims on the CDCL solvers and their assignment *)
(* ===================================================================== *)
Module SolverClaims.
Import Solver SolverFacts.

(** The single clause (~x1 | ~x2 | x3 | ~x4) on four variables. *)
Definition G4 : list (list Z) := [[-1; -2; 3; -4]].

(** The contradictory unit clauses (x1), (~x1) on one variable. *)
Definition G1 : list (list Z) := [[1]; [-1]].

(** The state after the first turn of [CDCL1.solve] on [F2]: [x1] decided
    true. *)
Definition F2_turn1_v1 : St :=
  mkSt (mkAsg [-1; 1; -1] [1]) [0%float; 0%float; 0%float] 1%float 1.

(** The state after the first turn of [CDCL2.solve] on [F2]: [x1] decided
    false. *)
Definition F2_turn1_v2 : St :=
  mkSt (mkAsg [-1; 0; -1] [1]) [0%float; 0%float; 0%float] 1%float 2.

(** The operations of [Assignment] used by the solvers: [assign] and
    [backtrackTo]. *)
Inductive AsgOp :=
| OpAssign (v : Z) (value : bool)
| OpBacktrack (position : Z).

(** A sequence of operations on the [Assignment] of the re-scan variant. *)
Definition run_op2 (a : Assignment) (op : AsgOp) : Assignment :=
  match op with
  | OpAssign v value => Asg2.assign a v value
  | OpBacktrack p => backtrackTo a p
  end.

Definition run_ops2 (a : Assignment) (ops : list AsgOp) : Assignment :=
  fold_left run_op2 ops a.

Lemma wf_new (N : Z) : wf_asg (Assignment_init N).
Proof.
  unfold wf_asg, Assignment_init. cbn [trail]. split; [constructor|].
  intros v. split; [intros Hv; by apply not_elem_of_nil in Hv|].
  unfold contains, in_range, at_. cbn [values]. rewrite repeat_length.
  intros H. apply andb_prop in H as [H1 H2]. apply andb_prop in H1 as [H0 H1].
  rewrite Z.ltb_lt in H0, H1. rewrite nth_repeat_lt in H2 by lia. done.
Qed.

Lemma wf_run_ops2 (ops : list AsgOp) : forall a, wf_asg a -> wf_asg (run_ops2 a ops).
Proof.
  induction ops as [|op ops IH]; intros a Ha; [done|].
  cbn [run_ops2 fold_left]. apply IH.
  destruct op; [by apply wf_assign2|by apply wf_backtrackTo].
Qed.

(** C1. The watched-literal [FastCDCLSolver::solve] can report SAT with an
    assignment that falsifies the formula: on the single clause
    (~x1 | ~x2 | x3 | ~x4) it returns [true] with x1, x2, x4 true and x3
    false; the clause-by-clause check fails, and so does [SATVerifier::verify]
    on the solution file [v 1 2 -3 4 0] it writes. *)
Theorem fastcdcl_sat_answer_falsifies :
  exists a s,
    CDCL1.solve CDCL1Facts.never (parse_clauses 0 G4) 4 = Ok (true, a) s /\
    solution_line a 4 = [1; 2; -3; 4] /\
    forallb (clause_sat a) (parse_clauses 0 G4) = false /\
    option_map (fun sol => Verifier.isSat (Verifier.verify (Verifier.mkInstance 4 1 G4) sol))
      (Verifier.parse_solution 4 [solution_line a 4 ++ [0]]) = Some false.
Proof.
  eexists _, _. split; [vm_compute; reflexivity|].
  split; [vm_compute; reflexivity|]. split; vm_compute; reflexivity.
Qed.

(** C4 (counterexample). In the re-scan variant a conflict at trail length 2
    empties the trail instead of cutting it to length 2/2 = 1: on [F2] the
    first turn decides x1, propagation then sets x2 and meets a conflict
    with the trail [1; 2], and the second turn leaves the trail [[]]. *)
Lemma conflict_halving_counterexample :
  exists s1 s2 s3,
    CDCL2.body CDCL1Facts.never CDCL1Facts.F2 2 0 0 (init_state 2) = Ok (Continue 0 1) s1 /\
    trail (asg s1) = [1] /\
    CDCL2.check_propagate CDCL1Facts.never CDCL1Facts.F2 s1 = Ok false s2 /\
    trail (asg s2) = [1; 2] /\
    CDCL2.body CDCL1Facts.never CDCL1Facts.F2 2 0 1 s1 = Ok (Continue 1 2) s3 /\
    trail (asg s3) = [].
Proof.
  eexists _, _, _.
  split; [vm_compute; reflexivity|]. split; [reflexivity|].
  split; [vm_compute; reflexivity|]. split; [reflexivity|].
  split; [vm_compute; reflexivity|]. reflexivity.
Qed.

(** C4 (amended). When propagation reports a conflict and the trail has
    length [len]: if [len <= 1] the turn returns UNSAT with the current
    assignment. Otherwise the loop continues with the trail cut to a prefix.
    In the watched-literal variant the prefix has length [len / 2]. In the
    re-scan variant it has length [max(0, len - 5)]. Both variants empty the
    trail on a restart: after more than 100 conflicts (variant 1), or when
    [conflicts > 200 * (1 + conflicts / 1000)] (variant 2). *)
Theorem conflict_backtrack_rules :
  (forall (e : Z -> bool) (cls : list Clause) (N c d : Z) (s s1 : St),
     CDCL1.check_propagate e cls N s = Ok false s1 ->
     let len := Z.of_nat (length (trail (asg s1))) in
     (len <= 1 -> CDCL1.body e cls N c d s = Ok (Return (false, asg s1)) s1) /\
     (1 < len -> exists s',
        CDCL1.body e cls N c d s =
          Ok (Continue (if 100 <? c + 1 then 0 else c + 1) (d + 1)) s' /\
        trail (asg s') =
          (if 100 <? c + 1 then [] else take (Z.to_nat (len / 2)) (trail (asg s1))))) /\
  (forall (e : Z -> bool) (cls : list Clause) (N c d : Z) (s s1 : St),
     CDCL2.check_propagate e cls s = Ok false s1 ->
     let len := Z.of_nat (length (trail (asg s1))) in
     let r := 200 * (1 + (c + 1) / 1000) <? c + 1 in
     (len <= 1 -> CDCL2.body e cls N c d s = Ok (Return (false, asg s1)) s1) /\
     (1 < len -> exists s',
        CDCL2.body e cls N c d s = Ok (Continue (if r then 0 else c + 1) (d + 1)) s' /\
        trail (asg s') =
          (if r then [] else take (Z.to_nat (Z.max 0 (len - 5))) (trail (asg s1))))).
Proof.
  split.
  - intros e cls N c d s s1 Hp len. unfold CDCL1.body. cbv [bind]. rewrite Hp.
    destruct (CDCL1Facts.after_conflict cls N c (d + 1) s1) as [H1 H2].
    split; [exact H1|]. intros Hl.
    destruct (H2 Hl) as (s' & E & Ea & _). exists s'. split; [exact E|].
    rewrite Ea. apply CDCL1Facts.after_conflict_trail.
  - intros e cls N c d s s1 Hp len r. unfold CDCL2.body. cbv [bind]. rewrite Hp.
    destruct (CDCL2Facts.after_conflict2 cls N c (d + 1) s1) as [H1 H2].
    split; [exact H1|]. intros Hl.
    destruct (H2 Hl) as (s' & E & Ea & _). exists s'. split; [exact E|].
    rewrite Ea. apply CDCL2Facts.after_conflict_trail2.
Qed.

Lemma conflict_backtrack_rules_witness :
  (exists s1 s',
     CDCL1.check_propagate CDCL1Facts.never CDCL1Facts.F2 2 F2_turn1_v1 = Ok false s1 /\
     CDCL1.body CDCL1Facts.never CDCL1Facts.F2 2 0 1 F2_turn1_v1 = Ok (Continue 1 2) s' /\
     trail (asg s') = [1]) /\
  (exists s1 s',
     CDCL2.check_propagate CDCL1Facts.never CDCL1Facts.F2 F2_turn1_v2 = Ok false s1 /\
     CDCL2.body CDCL1Facts.never CDCL1Facts.F2 2 0 1 F2_turn1_v2 = Ok (Continue 1 2) s' /\
     trail (asg s') = []).
Proof.
  split.
  - eexists. assert (Hp : CDCL1.check_propagate CDCL1Facts.never CDCL1Facts.F2 2
                            F2_turn1_v1 = Ok false ?[s1]) by (vm_compute; reflexivity).
    destruct (proj2 (proj1 conflict_backtrack_rules CDCL1Facts.never CDCL1Facts.F2 2 0 1
                F2_turn1_v1 _ Hp) ltac:(vm_compute; reflexivity)) as (s' & E & Et).
    exists s'. split; [exact Hp|]. split; [exact E|]. rewrite Et. vm_compute. reflexivity.
  - eexists. assert (Hp : CDCL2.check_propagate CDCL1Facts.never CDCL1Facts.F2
                            F2_turn1_v2 = Ok false ?[s1]) by (vm_compute; reflexivity).
    destruct (proj2 (proj2 conflict_backtrack_rules CDCL1Facts.never CDCL1Facts.F2 2 0 1
                F2_turn1_v2 _ Hp) ltac:(vm_compute; reflexivity)) as (s' & E & Et).
    exists s'. split; [exact Hp|]. split; [exact E|]. rewrite Et. vm_compute. reflexivity.
Defined.

(** C5 (code defect). The trail does not keep each variable once. In
    SATSolverOverOptmised.cpp, [Assignment::assign] has no guard on a set
    variable: a second [assign(v, value)] is not a no-op but pushes [v] on
    the trail again (from a fresh [Assignment(1)], [assign(1, true)] twice
    gives the trail [1; 1]). In both files [unassign] does not pop the
    trail, so [assign(1, true)], [unassign(1)], [assign(1, false)] also
    gives the trail [1; 1]. SATSOLverOPtimsed2.cpp guards [assign]: there it
    is a no-op on a set variable, and any sequence of [assign] and
    [backtrackTo] from a fresh [Assignment] keeps every variable at most
    once on the trail, the trail holding exactly the set variables. *)
Theorem assignment_trail_rules :
  Asg1.assign (Asg1.assign (Assignment_init 1) 1 true) 1 true = mkAsg [-1; 1] [1; 1] /\
  (forall (a : Assignment) (v : Z) (value : bool),
     contains a v = true -> trail (Asg1.assign a v value) = trail a ++ [v]) /\
  trail (Asg1.assign (unassign (Asg1.assign (Assignment_init 1) 1 true) 1) 1 false) = [1; 1] /\
  trail (Asg2.assign (unassign (Asg2.assign (Assignment_init 1) 1 true) 1) 1 false) = [1; 1] /\
  (forall (a : Assignment) (v : Z) (value : bool),
     contains a v = true -> Asg2.assign a v value = a) /\
  (forall (N : Z) (ops : list AsgOp),
     NoDup (trail (run_ops2 (Assignment_init N) ops)) /\
     forall v, v ∈ trail (run_ops2 (Assignment_init N) ops) <->
               contains (run_ops2 (Assignment_init N) ops) v = true).
Proof.
  split; [reflexivity|]. split.
  { intros a v value H. unfold contains in H. apply andb_prop in H as [Hr _].
    unfold Asg1.assign. by rewrite Hr. }
  split; [reflexivity|]. split; [reflexivity|]. split.
  - intros a v value H. unfold contains in H. apply andb_prop in H as [Hr Hv].
    unfold Asg2.assign. rewrite Hr. apply negb_true_iff in Hv. by rewrite Hv.
  - intros N ops. apply wf_run_ops2, wf_new.
Qed.

Lemma assignment_trail_rules_witness :
  trail (Asg1.assign (mkAsg [-1; 1] [1]) 1 true) = [1; 1] /\
  Asg2.assign (mkAsg [-1; 1] [1]) 1 false = mkAsg [-1; 1] [1].
Proof.
  split.
  - apply (proj1 (proj2 assignment_trail_rules)). reflexivity.
  - apply (proj1 (proj2 (proj2 (proj2 (proj2 assignment_trail_rules))))). reflexivity.
Defined.

(** C6 (counterexample). The watched-literal solver answers UNSAT on [F2]
    although no conflict of the run has a trail of length [<= 1]: every
    conflict met from a state of the loop has trail length 2, and the
    answer [false] comes from the cap of 1000000 decisions. *)
Lemma unsat_without_short_conflict_counterexample :
  (exists a s, CDCL1.solve CDCL1Facts.never CDCL1Facts.F2 2 = Ok (false, a) s) /\
  (forall c d s s1, CDCL1Facts.reach CDCL1Facts.never CDCL1Facts.F2 2 c d s ->
     CDCL1.check_propagate CDCL1Facts.never CDCL1Facts.F2 2 s = Ok false s1 ->
     length (trail (asg s1)) = 2%nat).
Proof.
  split.
  - rewrite CDCL1Facts.solve_unfold by reflexivity. apply CDCL1Facts.F2_loop; [by left|lia|].
    rewrite Z2Nat.id by lia. lia.
  - intros c d s s1 Hr Hp.
    destruct (CDCL1Facts.F2_step c d s (CDCL1Facts.F2_reach c d s Hr)) as (_ & _ & _ & _ & H).
    exact (H s1 Hp).
Qed.

(** C6 (amended). A run of [solve] that answers UNSAT ends in one of two
    ways. Either propagation from a state of the loop reported a conflict
    with a trail of length [<= 1], and the answer carries that assignment.
    Or the loop reached its cap on [decisions]: 1000000 in the
    watched-literal variant, 5000000 in the re-scan variant. This holds for
    [numVars >= 0] in the watched-literal variant and for [numVars >= 1] in
    the re-scan variant. A timeout is a separate outcome, not an answer. *)
Theorem unsat_answer_paths (e : Z -> bool) (cls : list Clause) (N : Z)
    (a : Assignment) (s_end : St) :
  (0 <= N -> CDCL1.solve e cls N = Ok (false, a) s_end ->
   (exists c d s1 s2, CDCL1Facts.reach e cls N c d s1 /\ d < 1000000 /\
      CDCL1.check_propagate e cls N s1 = Ok false s2 /\
      Z.of_nat (length (trail (asg s2))) <= 1 /\ a = asg s2) \/
   (exists c s1, CDCL1Facts.reach e cls N c 1000000 s1 /\ a = asg s1)) /\
  (1 <= N -> CDCL2.solve e cls N = Ok (false, a) s_end ->
   (exists c d s1 s2, CDCL2Facts.reach e cls N c d s1 /\ d < 5000000 /\
      CDCL2.check_propagate e cls s1 = Ok false s2 /\
      Z.of_nat (length (trail (asg s2))) <= 1 /\ a = asg s2) \/
   (exists c s1, CDCL2Facts.reach e cls N c 5000000 s1 /\ a = asg s1)).
Proof.
  split; intros HN H.
  - eapply CDCL1Facts.solve_loop_false;
      [done|apply CDCL1Facts.reach_init|exact (CDCL1Facts.solve_ok_loop1 e cls N _ _ H)].
  - eapply CDCL2Facts.solve_loop_false2;
      [done|apply CDCL2Facts.reach_init|exact (proj1 (CDCL2Facts.solve_ok_loop2 e cls N _ _ H))].
Qed.

Lemma unsat_answer_paths_witness :
  ((exists c d s1 s2, CDCL1Facts.reach CDCL1Facts.never (parse_clauses 0 G1) 1 c d s1 /\
      d < 1000000 /\
      CDCL1.check_propagate CDCL1Facts.never (parse_clauses 0 G1) 1 s1 = Ok false s2 /\
      Z.of_nat (length (trail (asg s2))) <= 1 /\ mkAsg [-1; 1] [1] = asg s2) \/
   (exists c s1, CDCL1Facts.reach CDCL1Facts.never (parse_clauses 0 G1) 1 c 1000000 s1 /\
      mkAsg [-1; 1] [1] = asg s1)) /\
  ((exists c d s1 s2, CDCL2Facts.reach CDCL1Facts.never (parse_clauses 0 G1) 1 c d s1 /\
      d < 5000000 /\
      CDCL2.check_propagate CDCL1Facts.never (parse_clauses 0 G1) s1 = Ok false s2 /\
      Z.of_nat (length (trail (asg s2))) <= 1 /\ mkAsg [-1; 1] [1] = asg s2) \/
   (exists c s1, CDCL2Facts.reach CDCL1Facts.never (parse_clauses 0 G1) 1 c 5000000 s1 /\
      mkAsg [-1; 1] [1] = asg s1)).
Proof.
  split.
  - eapply (proj1 (unsat_answer_paths CDCL1Facts.never (parse_clauses 0 G1) 1
                     (mkAsg [-1; 1] [1]) _)); [lia|vm_compute; reflexivity].
  - eapply (proj2 (unsat_answer_paths CDCL1Facts.never (parse_clauses 0 G1) 1
                     (mkAsg [-1; 1] [1]) _)); [lia|vm_compute; reflexivity].
Defined.

End SolverClaims.

Module DPLLFacts.
Import Solver SolverFacts DPLL.

(** The meaning of the clauses under a valuation [b] of the variables. *)
Definition sem_sat (b : Z -> bool) (cls : list Clause) : bool :=
  forallb (fun c => existsb (fun l => Bool.eqb (b (var l)) (sign l)) (literals c)) cls.

(** Every literal's variable is one of [1..numVars]. *)
Definition vars_in_range (N : Z) (cls : list Clause) : bool :=
  forallb (fun c => forallb (fun l => (1 <=? var l) && (var l <=? N)) (literals c)) cls.

(** [b] agrees with every value set in [a]. *)
Definition extends (a : Assignment) (b : Z -> bool) : Prop :=
  forall v, contains a v = true -> b v = getValue a v.

(** The number of unset cells. *)
Definition count_unset (l : list Z) : nat := length (List.filter (fun x => x =? -1) l).

Lemma count_unset_insert (l : list Z) (i : nat) (x : Z) :
  l !! i = Some (-1) -> x <> -1 ->
  (0 < count_unset l)%nat /\ count_unset (<[i := x]> l) = pred (count_unset l).
Proof.
  unfold count_unset. revert i. induction l as [|y l IH]; intros [|i] Hi Hx;
    cbn in Hi; try discriminate.
  - injection Hi as ->. simpl. rewrite (proj2 (Z.eqb_neq x (-1)) Hx). simpl. lia.
  - destruct (IH i Hi Hx) as [H1 H2]. simpl.
    destruct (y =? -1); simpl; lia.
Qed.

Lemma contains_same (a a' : Assignment) (v : Z) :
  values a = values a' -> contains a v = contains a' v.
Proof. unfold contains, in_range. by intros ->. Qed.

Lemma getValue_same (a a' : Assignment) (v : Z) :
  values a = values a' -> getValue a v = getValue a' v.
Proof. unfold getValue. by intros ->. Qed.

Lemma in_range_same (a a' : Assignment) (v : Z) :
  values a = values a' -> in_range a v = in_range a' v.
Proof. unfold in_range. by intros ->. Qed.

Lemma extends_same (a a' : Assignment) (b : Z -> bool) :
  values a = values a' -> extends a b -> extends a' b.
Proof.
  intros E H v Hv. rewrite <- (getValue_same a a' v E). apply H.
  by rewrite (contains_same a a' v E).
Qed.

(** An unset in-range variable holds [-1]. *)
Lemma unset_lookup (a : Assignment) (v : Z) :
  in_range a v = true -> contains a v = false -> values a !! Z.to_nat v = Some (-1).
Proof.
  intros Hr Hc. apply in_range_bounds in Hr as Hb.
  unfold contains in Hc. rewrite (proj2 (in_range_bounds a v) Hb) in Hc. cbn in Hc.
  apply negb_false_iff, Z.eqb_eq in Hc. unfold at_ in Hc.
  rewrite nth_lookup in Hc. destruct (values a !! Z.to_nat v) eqn:E.
  - cbn in Hc. by subst.
  - apply lookup_ge_None in E. lia.
Qed.

(** Setting an unset variable to [x] and extending. *)
Lemma extends_set (a : Assignment) (v : Z) (x : bool) (b : Z -> bool) (t : list Z) :
  in_range a v = true -> extends a b -> b v = x ->
  extends (mkAsg (<[Z.to_nat v := if x then 1 else 0]> (values a)) t) b.
Proof.
  intros Hr Hb Hv w Hw. rewrite set_contains in Hw by (by destruct x).
  apply in_range_bounds in Hr as Hbd. unfold getValue. cbn [values].
  destruct (decide (w = v)) as [->|Hne].
  - rewrite at_insert by lia. rewrite Z.eqb_refl.
    rewrite (proj2 (Z.ltb_lt v (Z.of_nat (length (values a)))) ltac:(lia)). cbn. by destruct x.
  - rewrite orb_true_iff, Z.eqb_eq in Hw. destruct Hw as [Hw|Hw]; [congruence|].
    pose proof (contains_in_range _ _ Hw) as Hwb. apply in_range_bounds in Hwb.
    rewrite at_insert by lia. rewrite (proj2 (Z.eqb_neq v w) ltac:(congruence)). cbn.
    by apply Hb.
Qed.

Lemma extends_from_set (a : Assignment) (v : Z) (x : bool) (b : Z -> bool) (t : list Z) :
  in_range a v = true -> contains a v = false ->
  extends (mkAsg (<[Z.to_nat v := if x then 1 else 0]> (values a)) t) b ->
  extends a b /\ b v = x.
Proof.
  intros Hr Hc H. apply in_range_bounds in Hr as Hbd. split.
  - intros w Hw. destruct (decide (w = v)) as [->|Hne]; [congruence|].
    pose proof (contains_in_range _ _ Hw) as Hwb. apply in_range_bounds in Hwb.
    rewrite H.
    + unfold getValue. cbn [values]. rewrite at_insert by lia.
      by rewrite (proj2 (Z.eqb_neq v w) ltac:(congruence)).
    + rewrite set_contains by (by destruct x). by rewrite Hw, orb_true_r.
  - rewrite H.
    + unfold getValue. cbn [values]. rewrite at_insert by lia. rewrite Z.eqb_refl.
      rewrite (proj2 (Z.ltb_lt v (Z.of_nat (length (values a)))) ltac:(lia)). cbn. by destruct x.
    + rewrite set_contains by (by destruct x). by rewrite Z.eqb_refl.
Qed.

Section Generic.
Variable expired : Z -> bool.
Variable isSat : Assignment -> bool.
Variable assign : Assignment -> Z -> bool -> Assignment.
Variable select : Assignment -> Z.
Variable N : Z.
Variable cls : list Clause.

Hypothesis assign_spec : forall a v x, in_range a v = true -> contains a v = false ->
  values (assign a v x) = <[Z.to_nat v := if x then 1 else 0]> (values a).
Hypothesis select_spec : forall a, Z.of_nat (length (values a)) = N + 1 ->
  select a = -1 \/ (in_range a (select a) = true /\ contains a (select a) = false).
Hypothesis select_none : forall a, Z.of_nat (length (values a)) = N + 1 ->
  isSat a = false -> select a = -1 -> forall b, extends a b -> sem_sat b cls = false.

Lemma dpll_spec (f : nat) : forall s,
  Z.of_nat (length (values (asg s))) = N + 1 ->
  (count_unset (values (asg s)) < f)%nat ->
  dpll expired isSat assign select f s = Timeout \/
  (exists s', dpll expired isSat assign select f s = Ok true s' /\ isSat (asg s') = true) \/
  (exists s', dpll expired isSat assign select f s = Ok false s' /\
     values (asg s') = values (asg s) /\
     forall b, extends (asg s) b -> sem_sat b cls = false).
Proof.
  induction f as [|f IH]; intros s Hl Hc; [lia|].
  cbn [dpll]. cbv [bind get ret modify].
  destruct (tm_check expired s) as [u s1| | |] eqn:Ht.
  2: by left.
  2,3: unfold tm_check in Ht; case_match; discriminate.
  pose proof (tm_check_asg _ _ _ _ Ht) as Ha1. cbv beta iota. rewrite Ha1.
  destruct (isSat (asg s)) eqn:Hs.
  { right; left. exists s1. by rewrite Ha1. }
  destruct (select_spec (asg s) Hl) as [Hv|[Hr Hcv]].
  { rewrite Hv, Z.eqb_refl. right; right. exists s1. rewrite Ha1.
    split; [done|]. split; [done|]. by apply select_none. }
  set (v := select (asg s)) in *.
  rewrite (proj2 (Z.eqb_neq v (-1))) by (apply in_range_bounds in Hr; lia).
  pose proof (unset_lookup _ _ Hr Hcv) as Hlk.
  pose proof (proj1 (in_range_bounds _ _) Hr) as Hbd.
  set (s2 := set_asg (assign (asg s1) v true) s1).
  assert (Hv2 : values (asg s2) = <[Z.to_nat v := 1]> (values (asg s))) by
    (unfold s2; cbn [asg set_asg]; rewrite Ha1; apply (assign_spec _ _ true Hr Hcv)).
  destruct (count_unset_insert (values (asg s)) (Z.to_nat v) 1 Hlk ltac:(lia)) as [Hc0 Hc1].
  destruct (IH s2) as [HT|[(s3 & E & Hsat)|(s3 & E & Hval & Hno)]].
  { rewrite Hv2, length_insert. done. }
  { rewrite Hv2, Hc1. lia. }
  { rewrite HT. by left. }
  { rewrite E. right; left. by exists s3. }
  rewrite E.
  set (s4 := set_asg (unassign (asg s3) v) s3).
  assert (Hr3 : in_range (asg s3) v = true)
    by (apply in_range_bounds; rewrite Hval, Hv2, length_insert; lia).
  assert (Hv4 : values (asg s4) = values (asg s)).
  { unfold s4. cbn [asg set_asg]. unfold unassign. rewrite Hr3. cbn [values].
    rewrite Hval, Hv2, list_insert_insert_eq. by apply list_insert_id. }
  assert (Hr4 : in_range (asg s4) v = true) by by rewrite (in_range_same _ (asg s) v Hv4).
  assert (Hc4 : contains (asg s4) v = false) by by rewrite (contains_same _ (asg s) v Hv4).
  set (s5 := set_asg (assign (asg s4) v false) s4).
  assert (Hv5 : values (asg s5) = <[Z.to_nat v := 0]> (values (asg s))).
  { unfold s5. cbn [asg set_asg]. by rewrite (assign_spec _ _ false Hr4 Hc4), Hv4. }
  destruct (count_unset_insert (values (asg s)) (Z.to_nat v) 0 Hlk ltac:(lia)) as [_ Hc5].
  destruct (IH s5) as [HT|[(s6 & E6 & Hsat6)|(s6 & E6 & Hval6 & Hno6)]].
  { rewrite Hv5, length_insert. done. }
  { rewrite Hv5, Hc5. lia. }
  { rewrite HT. by left. }
  { rewrite E6. right; left. exists s6. by split. }
  rewrite E6. right; right. eexists. split; [reflexivity|]. split.
  - cbn [asg set_asg]. unfold unassign.
    rewrite (proj2 (in_range_bounds (asg s6) v)) by (rewrite Hval6, Hv5, length_insert; lia).
    cbn [values]. rewrite Hval6, Hv5, list_insert_insert_eq. by apply list_insert_id.
  - intros b Hb. destruct (b v) eqn:Ebv.
    + apply Hno. apply (extends_same (mkAsg (<[Z.to_nat v := if true then 1 else 0]>
                                        (values (asg s))) [])); [by rewrite Hv2|].
      exact (extends_set (asg s) v true b [] Hr Hb Ebv).
    + apply Hno6. apply (extends_same (mkAsg (<[Z.to_nat v := if false then 1 else 0]>
                                         (values (asg s))) [])); [by rewrite Hv5|].
      exact (extends_set (asg s) v false b [] Hr Hb Ebv).
Qed.

Lemma dpll_sound (f : nat) : forall s s',
  dpll expired isSat assign select f s = Ok true s' -> isSat (asg s') = true.
Proof.
  induction f as [|f IH]; intros s s' H; [discriminate|].
  cbn [dpll] in H. cbv [bind get ret modify] in H.
  destruct (tm_check expired s) as [u s1| | |]; try discriminate. cbv beta iota in H.
  destruct (isSat (asg s1)) eqn:Hs; [by injection H as <-|].
  destruct (select (asg s1) =? -1); [discriminate|].
  destruct (dpll _ _ _ _ f _) as [[] s2| | |] eqn:E1; cbv beta iota in H; try discriminate.
  - injection H as <-. by apply (IH _ _ E1).
  - match type of H with context [dpll _ _ _ _ f ?x] =>
      destruct (dpll expired isSat assign select f x) as [[] s3| | |] eqn:E2 end;
      cbv beta iota in H; try discriminate.
    injection H as <-. by apply (IH _ _ E2).
Qed.

Lemma count_unset_le (l : list Z) : (count_unset l <= length l)%nat.
Proof.
  unfold count_unset. induction l as [|y l IH]; simpl; [lia|].
  destruct (y =? -1); simpl; lia.
Qed.

Lemma new_extends (b : Z -> bool) : extends (Assignment_init N) b.
Proof.
  intros v Hv. exfalso. apply (proj2 (proj2 (SolverClaims.wf_new N) v)) in Hv.
  by apply not_elem_of_nil in Hv.
Qed.

Hypothesis sat_sem : forall a, isSat a = true -> sem_sat (getValue a) cls = true.

(** The search answers, unless the clock expires: [true] with an
    assignment that passes the satisfaction test, or [false] when no
    valuation satisfies the clauses. *)
Lemma solve_spec :
  0 <= N < INT_MAX ->
  solve expired isSat assign select N = Timeout \/
  exists r a s, solve expired isSat assign select N = Ok (r, a) s /\
    (r = true -> isSat a = true) /\
    (r = true <-> exists b, sem_sat b cls = true).
Proof.
  intros HN. unfold solve. rewrite resize_ok by lia. cbv [bind get ret].
  destruct (dpll_spec (Z.to_nat N + 2) (init_state N))
    as [HT|[(s' & E & Hs)|(s' & E & _ & Hno)]].
  - cbn [asg init_state Assignment_init values]. rewrite repeat_length. lia.
  - pose proof (count_unset_le (values (asg (init_state N)))) as H.
    cbn [asg init_state Assignment_init values] in H |- *. rewrite repeat_length in H. lia.
  - rewrite HT. by left.
  - rewrite E. right. eexists _, _, _. split; [reflexivity|]. split; [done|].
    split; [intros _; eexists; by apply sat_sem|done].
  - rewrite E. right. eexists _, _, _. split; [reflexivity|]. split; [done|].
    split; [done|]. intros [b Hb]. rewrite (Hno b (new_extends b)) in Hb. discriminate.
Qed.
End Generic.
End DPLLFacts.

Module DPLLInst.
Import Solver SolverFacts DPLL DPLLFacts.

Lemma forallb_false_exists {A} (f : A -> bool) (l : list A) :
  forallb f l = false -> exists x, In x l /\ f x = false.
Proof.
  induction l as [|y l IH]; simpl; [discriminate|].
  destruct (f y) eqn:E; simpl; [|intros _; exists y; auto].
  intros H. destruct (IH H) as (x & Hx & Hf). exists x. auto.
Qed.

Lemma asg1_assign_spec (a : Assignment) (v : Z) (x : bool) :
  in_range a v = true -> contains a v = false ->
  values (Asg1.assign a v x) = <[Z.to_nat v := if x then 1 else 0]> (values a).
Proof. intros Hr _. unfold Asg1.assign. by rewrite Hr. Qed.

Lemma asg2_assign_spec (a : Assignment) (v : Z) (x : bool) :
  in_range a v = true -> contains a v = false ->
  values (Asg2.assign a v x) = <[Z.to_nat v := if x then 1 else 0]> (values a).
Proof.
  intros Hr Hc. unfold Asg2.assign. rewrite Hr. unfold contains in Hc. rewrite Hr in Hc.
  cbn in Hc. apply negb_false_iff in Hc. by rewrite Hc.
Qed.

Lemma naive_select_spec (N : Z) (a : Assignment) :
  Z.of_nat (length (values a)) = N + 1 ->
  naive_select N a = -1 \/
  (in_range a (naive_select N a) = true /\ contains a (naive_select N a) = false).
Proof.
  intros Hl. unfold naive_select.
  destruct (first_unset_spec a (Z.to_nat N) 1) as [[H _]|[H1 H2]]; [lia|by left|].
  right. split; [apply in_range_bounds; lia|done].
Qed.

Lemma naive_select_none (N : Z) (a : Assignment) :
  naive_select N a = -1 -> forall v, 1 <= v <= N -> contains a v = true.
Proof.
  intros H v Hv. unfold naive_select in H.
  destruct (first_unset_spec a (Z.to_nat N) 1) as [[_ H2]|[H1 H2]]; [lia| |lia].
  apply H2. lia.
Qed.

(** A clause whose literals are all set and false in [a] is false under
    every valuation extending [a], and so is the formula. *)
Lemma clause_false_extends (a : Assignment) (b : Z -> bool) (cls : list Clause) (c : Clause) :
  extends a b -> In c cls ->
  (forall l, In l (literals c) -> contains a (var l) = true /\ getValue a (var l) <> sign l) ->
  sem_sat b cls = false.
Proof.
  intros Hb Hc Hl. unfold sem_sat.
  destruct (forallb _ cls) eqn:E; [|done]. exfalso.
  rewrite forallb_forall in E. specialize (E c Hc).
  apply existsb_exists in E as (l & Hin & Hq). destruct (Hl l Hin) as [H1 H2].
  rewrite (Hb _ H1) in Hq. apply Bool.eqb_prop in Hq. done.
Qed.

Lemma clause_sat_false_lit (a : Assignment) (c : Clause) (l : Lit) :
  clause_sat a c = false -> In l (literals c) -> contains a (var l) = true ->
  getValue a (var l) <> sign l.
Proof.
  intros H Hin Hc Heq. unfold clause_sat in H.
  assert (existsb (fun lit => contains a (var lit) && Bool.eqb (getValue a (var lit)) (sign lit))
            (literals c) = true) as H'.
  { apply existsb_exists. exists l. split; [done|]. rewrite Hc, Heq. apply eqb_reflx. }
  congruence.
Qed.

Lemma isSatisfied2_false_lit (a : Assignment) (c : Clause) (l : Lit) :
  CDCL2.isSatisfied c (values a) = false -> In l (literals c) -> contains a (var l) = true ->
  getValue a (var l) <> sign l.
Proof.
  intros H Hin Hc Heq. unfold CDCL2.isSatisfied in H.
  pose proof (contains_in_range _ _ Hc) as Hr. apply in_range_bounds in Hr.
  unfold contains in Hc. apply andb_prop in Hc as [_ Hc].
  assert (existsb (fun lit => (0 <=? var lit) && (var lit <? Z.of_nat (length (values a)))
            && negb (at_ (values a) (var lit) =? -1)
            && Bool.eqb (at_ (values a) (var lit) =? 1) (sign lit)) (literals c) = true) as H'.
  { apply existsb_exists. exists l. split; [done|].
    rewrite (proj2 (Z.leb_le 0 (var l)) ltac:(lia)), (proj2 (Z.ltb_lt _ _) (proj2 Hr)), Hc.
    unfold getValue in Heq. rewrite Heq. apply eqb_reflx. }
  congruence.
Qed.

Lemma sat_sem1 (cls : list Clause) (a : Assignment) :
  naive_isSatisfied cls a = true -> sem_sat (getValue a) cls = true.
Proof.
  unfold naive_isSatisfied, sem_sat. rewrite !forallb_forall. intros H c Hc.
  specialize (H c Hc). unfold clause_sat in H. apply existsb_exists in H as (l & Hin & Hq).
  apply existsb_exists. exists l. split; [done|]. apply andb_prop in Hq. apply Hq.
Qed.

Lemma sat_sem2 (cls : list Clause) (a : Assignment) :
  CDCL2.verifySolution a cls = true -> sem_sat (getValue a) cls = true.
Proof.
  unfold CDCL2.verifySolution, sem_sat. rewrite !forallb_forall. intros H c Hc.
  specialize (H c Hc). unfold CDCL2.isSatisfied in H. apply existsb_exists in H as (l & Hin & Hq).
  apply existsb_exists. exists l. split; [done|]. apply andb_prop in Hq. apply Hq.
Qed.

Lemma vars_in_range_lit (N : Z) (cls : list Clause) (c : Clause) (l : Lit) :
  vars_in_range N cls = true -> In c cls -> In l (literals c) -> 1 <= var l <= N.
Proof.
  unfold vars_in_range. rewrite forallb_forall. intros H Hc Hl.
  specialize (H c Hc). rewrite forallb_forall in H. specialize (H l Hl).
  apply andb_prop in H as [H1 H2]. rewrite Z.leb_le in H1, H2. lia.
Qed.

Lemma naive1_none (N : Z) (cls : list Clause) :
  vars_in_range N cls = true ->
  forall a, Z.of_nat (length (values a)) = N + 1 ->
  naive_isSatisfied cls a = false -> naive_select N a = -1 ->
  forall b, extends a b -> sem_sat b cls = false.
Proof.
  intros Hv a _ Hs Hsel b Hb. apply forallb_false_exists in Hs as (c & Hc & Hcs).
  apply (clause_false_extends a b cls c Hb Hc). intros l Hl.
  assert (Hin : contains a (var l) = true)
    by (apply (naive_select_none N a Hsel); by apply (vars_in_range_lit N cls c)).
  split; [done|]. by apply (clause_sat_false_lit a c).
Qed.

Lemma naive2_none (N : Z) (cls : list Clause) :
  vars_in_range N cls = true ->
  forall a, Z.of_nat (length (values a)) = N + 1 ->
  CDCL2.verifySolution a cls = false -> naive_select N a = -1 ->
  forall b, extends a b -> sem_sat b cls = false.
Proof.
  intros Hv a _ Hs Hsel b Hb. apply forallb_false_exists in Hs as (c & Hc & Hcs).
  apply (clause_false_extends a b cls c Hb Hc). intros l Hl.
  assert (Hin : contains a (var l) = true)
    by (apply (naive_select_none N a Hsel); by apply (vars_in_range_lit N cls c)).
  split; [done|]. by apply (isSatisfied2_false_lit a c).
Qed.


Lemma fold_keys {A} (f : gmap Z Z -> A -> gmap Z Z) (P : Z -> A -> Prop) :
  (forall m x k, is_Some (f m x !! k) -> is_Some (m !! k) \/ P k x) ->
  forall xs m k, is_Some (fold_left f xs m !! k) -> is_Some (m !! k) \/ exists x, In x xs /\ P k x.
Proof.
  intros Hf xs. induction xs as [|x xs IH]; simpl; intros m k H; [by left|].
  destruct (IH _ _ H) as [H1|(y & Hy & HP)].
  - destruct (Hf _ _ _ H1) as [H2|H2]; [by left|right; eauto].
  - right; eauto.
Qed.

Lemma fold_keep {A} (f : gmap Z Z -> A -> gmap Z Z) :
  (forall m x k, is_Some (m !! k) -> is_Some (f m x !! k)) ->
  forall xs m k, is_Some (m !! k) -> is_Some (fold_left f xs m !! k).
Proof. intros Hf xs. induction xs as [|x xs IH]; simpl; intros m k H; auto. Qed.

Lemma fold_new {A} (f : gmap Z Z -> A -> gmap Z Z) (P : Z -> A -> Prop) :
  (forall m x k, is_Some (m !! k) -> is_Some (f m x !! k)) ->
  (forall m x k, P k x -> is_Some (f m x !! k)) ->
  forall xs m x k, In x xs -> P k x -> is_Some (fold_left f xs m !! k).
Proof.
  intros Hk Hn xs. induction xs as [|y xs IH]; simpl; intros m x k Hin HP; [done|].
  destruct Hin as [<-|Hin]; [|by eapply IH].
  apply fold_keep; auto.
Qed.

Lemma count_lit_is_Some (m : gmap Z Z) (k' k : Z) :
  is_Some (count_lit m k' !! k) <-> k' = k \/ is_Some (m !! k).
Proof.
  unfold count_lit. rewrite lookup_insert_is_Some.
  destruct (decide (k' = k)); naive_solver.
Qed.

Lemma inner_keys (a : Assignment) (lits : list Lit) (m : gmap Z Z) (k : Z) :
  is_Some (fold_left (fun m lit =>
    if negb (contains a (var lit)) then count_lit m (toInt lit) else m) lits m !! k) ->
  is_Some (m !! k) \/ exists l, In l lits /\ contains a (var l) = false /\ k = toInt l.
Proof.
  apply (fold_keys _ (fun k l => contains a (var l) = false /\ k = toInt l)).
  intros m' l k' Hm'. destruct (contains a (var l)) eqn:Ec; cbn in Hm'; [by left|].
  apply count_lit_is_Some in Hm' as [<-|Hm']; [by right|by left].
Qed.

Lemma inner_keep (a : Assignment) (lits : list Lit) (m : gmap Z Z) (k : Z) :
  is_Some (m !! k) ->
  is_Some (fold_left (fun m lit =>
    if negb (contains a (var lit)) then count_lit m (toInt lit) else m) lits m !! k).
Proof.
  apply fold_keep. intros m' l k' Hm'. destruct (contains a (var l)); cbn; [done|].
  apply count_lit_is_Some. by right.
Qed.

Lemma inner_new (a : Assignment) (lits : list Lit) (m : gmap Z Z) (l : Lit) :
  In l lits -> contains a (var l) = false ->
  is_Some (fold_left (fun m lit =>
    if negb (contains a (var lit)) then count_lit m (toInt lit) else m) lits m !! toInt l).
Proof.
  intros Hl Hc.
  refine (fold_new _ (fun k l => contains a (var l) = false /\ k = toInt l)
            ?[keep] ?[new] lits m l (toInt l) Hl (conj Hc eq_refl)).
  [keep]: { intros m' y k' Hm'. destruct (contains a (var y)); cbn; [done|].
    apply count_lit_is_Some. by right. }
  [new]: { intros m' y k' [Hy ->]. rewrite Hy. cbn. apply count_lit_is_Some. by left. }
Qed.

(** Every key of [litCount] is an unset literal of a clause that the
    clause test does not find satisfied. *)
Lemma litCount_keys (satc : Assignment -> Clause -> bool) (cls : list Clause)
    (a : Assignment) (k : Z) :
  is_Some (litCount satc cls a !! k) ->
  exists c l, In c cls /\ satc a c = false /\ In l (literals c) /\
    contains a (var l) = false /\ k = toInt l.
Proof.
  unfold litCount. intros H.
  apply (fold_keys _ (fun k c => satc a c = false /\ exists l, In l (literals c) /\
              contains a (var l) = false /\ k = toInt l)) in H
    as [H1|(c & Hc & Hs & l & Hl)].
  - rewrite lookup_empty in H1. by destruct H1.
  - exists c, l. tauto.
  - intros m c k' Hm. destruct (satc a c) eqn:Es; [by left|].
    apply inner_keys in Hm as [Hm|Hm]; [by left|by right].
Qed.

(** When [litCount] is empty, every literal of every clause that the
    clause test does not find satisfied is set. *)
Lemma litCount_empty (satc : Assignment -> Clause -> bool) (cls : list Clause)
    (a : Assignment) :
  litCount satc cls a = ∅ ->
  forall c l, In c cls -> satc a c = false -> In l (literals c) -> contains a (var l) = true.
Proof.
  intros He c l Hc Hs Hl. destruct (contains a (var l)) eqn:Ec; [done|exfalso].
  assert (H : is_Some (litCount satc cls a !! toInt l)).
  { unfold litCount.
    refine (fold_new _ (fun k c => satc a c = false /\ exists l, In l (literals c) /\
              contains a (var l) = false /\ k = toInt l) ?[keep] ?[new] cls ∅ c (toInt l) Hc
              (conj Hs (ex_intro _ l (conj Hl (conj Ec eq_refl))))).
    [keep]: { intros m x k Hm. destruct (satc a x); [done|]. by apply inner_keep. }
    [new]: { intros m x k (Hx & l' & Hl' & Hc' & ->). rewrite Hx. by apply inner_new. } }
  rewrite He, lookup_empty in H. by destruct H.
Qed.


Lemma best_loop_in (es : list (Z * Z)) : forall l c,
  best_loop es l c = l \/ exists c', In (best_loop es l c, c') es.
Proof.
  induction es as [|[l' c'] es IH]; intros l c; simpl; [by left|].
  destruct (c <? c').
  - destruct (IH l' c') as [->|[c'' Hc]]; right; eauto.
  - destruct (IH l c) as [->|[c'' Hc]]; [by left|right; eauto].
Qed.

Section MOMS.
Variable order : gmap Z Z -> list (Z * Z).
Hypothesis order_perm : forall m, Permutation (order m) (map_to_list m).
Variable satc : Assignment -> Clause -> bool.

Lemma moms_select_spec (N : Z) (cls : list Clause) (a : Assignment) :
  vars_in_range N cls = true -> Z.of_nat (length (values a)) = N + 1 ->
  selectVariableMOMS order satc cls a = -1 \/
  (in_range a (selectVariableMOMS order satc cls a) = true /\
   contains a (selectVariableMOMS order satc cls a) = false).
Proof.
  intros Hv Hl. unfold selectVariableMOMS.
  case_decide as Hm; [by left|].
  destruct (order (litCount satc cls a)) as [|[l0 c0] rest] eqn:Eo; [by left|right].
  assert (Hk : exists c', In (best_loop ((l0, c0) :: rest) l0 c0, c')
                            (order (litCount satc cls a))).
  { rewrite Eo. destruct (best_loop_in ((l0, c0) :: rest) l0 c0) as [->|H]; [|done].
    exists c0. by left. }
  destruct Hk as [c' Hk].
  apply (Permutation_in _ (order_perm _)) in Hk.
  apply list_elem_of_In, elem_of_map_to_list in Hk.
  destruct (litCount_keys satc cls a _ (mk_is_Some _ _ Hk))
    as (c & l & Hc & _ & Hin & Hcon & Ek).
  rewrite Ek. pose proof (vars_in_range_lit N cls c l Hv Hc Hin) as Hr.
  assert (Ea : Z.abs (toInt l) = var l) by (unfold toInt; destruct (sign l); lia).
  rewrite Ea. split; [apply in_range_bounds; lia|done].
Qed.

Lemma moms_select_none (cls : list Clause) (a : Assignment) :
  selectVariableMOMS order satc cls a = -1 -> litCount satc cls a = ∅.
Proof.
  unfold selectVariableMOMS. case_decide as Hm; [done|].
  destruct (order (litCount satc cls a)) as [|[l0 c0] rest] eqn:Eo; [|lia].
  intros _. pose proof (order_perm (litCount satc cls a)) as Hp. rewrite Eo in Hp.
  apply Permutation_nil in Hp. by apply map_to_list_empty_iff.
Qed.
End MOMS.

Lemma moms1_none (order : gmap Z Z -> list (Z * Z))
    (Hord : forall m, Permutation (order m) (map_to_list m)) (cls : list Clause) (a : Assignment) :
  naive_isSatisfied cls a = false -> selectVariableMOMS order clause_sat cls a = -1 ->
  forall b, extends a b -> sem_sat b cls = false.
Proof.
  intros Hs Hsel b Hb. apply moms_select_none in Hsel; [|done].
  apply forallb_false_exists in Hs as (c & Hc & Hcs).
  apply (clause_false_extends a b cls c Hb Hc). intros l Hl.
  pose proof (litCount_empty _ _ _ Hsel c l Hc Hcs Hl) as Hin.
  split; [done|]. by apply (clause_sat_false_lit a c).
Qed.

Lemma moms2_none (order : gmap Z Z -> list (Z * Z))
    (Hord : forall m, Permutation (order m) (map_to_list m)) (cls : list Clause) (a : Assignment) :
  CDCL2.verifySolution a cls = false -> selectVariableMOMS order isSatisfied2 cls a = -1 ->
  forall b, extends a b -> sem_sat b cls = false.
Proof.
  intros Hs Hsel b Hb. apply moms_select_none in Hsel; [|done].
  apply forallb_false_exists in Hs as (c & Hc & Hcs).
  apply (clause_false_extends a b cls c Hb Hc). intros l Hl.
  pose proof (litCount_empty _ _ _ Hsel c l Hc Hcs Hl) as Hin.
  split; [done|]. by apply (isSatisfied2_false_lit a c).
Qed.

End DPLLInst.

Module DPLLExtras.
Import Solver SolverFacts DPLL DPLLFacts DPLLInst.






End DPLLExtras.

Module CDCLSat.
Import Solver SolverFacts.

(** With the invariant, a trail of length [N] means every variable
    [1..N] is set. *)
Lemma wf_len_full (a : Assignment) (N : Z) :
  wf_asg a -> Z.of_nat (length (values a)) = N + 1 ->
  Z.of_nat (length (trail a)) = N ->
  forall i, 1 <= i <= N -> contains a i = true.
Proof.
  intros [Hnd Hin] Hl Ht i Hi.
  assert (Hincl : incl (trail a) (seqZ 1 N)).
  { intros v Hv. rewrite <- list_elem_of_In in Hv |- *.
    apply Hin, contains_in_range, in_range_bounds in Hv. apply elem_of_seqZ. lia. }
  assert (Hback : incl (seqZ 1 N) (trail a)).
  { apply NoDup_length_incl; [by apply NoDup_ListNoDup| |exact Hincl].
    rewrite length_seqZ. lia. }
  apply Hin. apply list_elem_of_In. apply Hback. apply list_elem_of_In, elem_of_seqZ. lia.
Qed.

Lemma after_true1 (cls : list Clause) (N c d : Z) (s : St) (a : Assignment) s' :
  CDCL1.after_propagate cls N true c d s = Ok (Return (true, a)) s' ->
  a = asg s /\ Z.of_nat (length (trail a)) = N.
Proof.
  intros H. unfold CDCL1.after_propagate in H. cbv [bind get ret modify] in H. cbn [negb] in H.
  destruct (_ =? N) eqn:EN; cbn [andb] in H.
  - destruct (forallb _ _).
    + injection H as <-. rewrite Z.eqb_eq in EN. done.
    + destruct (_ =? -1); [|discriminate]. injection H as <-. split; [done|].
      by apply Z.eqb_eq.
  - destruct (_ =? -1); [|discriminate]. injection H as E <-. discriminate.
Qed.

Lemma body_true1 (e : Z -> bool) (cls : list Clause) (N c d : Z) (s : St) a s' :
  inv N s -> CDCL1.body e cls N c d s = Ok (Return (true, a)) s' ->
  inv N s' /\ a = asg s' /\ Z.of_nat (length (trail a)) = N.
Proof.
  intros Hs H. unfold CDCL1.body in H. cbv [bind] in H.
  destruct (CDCL1.check_propagate e cls N s) as [ok s1| | |] eqn:Hp; try discriminate.
  pose proof (CDCL1Facts.check_propagate_inv e cls N s ok s1 Hs Hp) as Hs1.
  destruct ok.
  - pose proof (after_true1 cls N c (d + 1) s1 a s' H) as [-> HN].
    unfold CDCL1.after_propagate in H. cbv [bind get ret modify] in H.
    cbn [negb] in H. repeat case_match; simplify_eq; done.
  - destruct (decide (Z.of_nat (length (trail (asg s1))) <= 1)) as [Hl|Hl].
    + rewrite (proj1 (CDCL1Facts.after_conflict cls N c (d + 1) s1) Hl) in H. discriminate.
    + destruct (proj2 (CDCL1Facts.after_conflict cls N c (d + 1) s1)) as (s2 & H2 & _); [lia|].
      rewrite H2 in H. discriminate.
Qed.

Lemma solve_loop_true1 (e : Z -> bool) (cls : list Clause) (N : Z) (fuel : nat) :
  0 <= N -> forall c d s a s_end,
  CDCL1Facts.reach e cls N c d s -> CDCL1.solve_loop e cls N fuel c d s = Ok (true, a) s_end ->
  inv N s_end /\ a = asg s_end /\ Z.of_nat (length (trail a)) = N.
Proof.
  intros HN. induction fuel as [|fuel IH]; intros c d s a s_end Hr H;
    cbn [CDCL1.solve_loop] in H; [discriminate|].
  destruct (CDCL1Facts.reach_inv e cls N c d s HN Hr) as [Hi Hd].
  destruct (d <? 1000000) eqn:Ed; [|cbv [bind get ret] in H; discriminate].
  rewrite Z.ltb_lt in Ed. cbv [bind ret] in H.
  destruct (CDCL1.body e cls N c d s) as [st s1| | |] eqn:Hb; try discriminate.
  destruct st as [c' d'|r].
  - eapply IH; [|exact H]. by eapply CDCL1Facts.reach_next.
  - injection H as -> <-. by eapply body_true1.
Qed.

Lemma after_true2 (cls : list Clause) (N c d : Z) (s : St) (a : Assignment) s' :
  CDCL2.after_propagate cls N true c d s = Ok (Return (true, a)) s' ->
  a = asg s /\ CDCL2.verifySolution a cls = true /\
  (Z.of_nat (length (trail a)) = N \/ forall i, 1 <= i <= N -> contains a i = true).
Proof.
  intros H. unfold CDCL2.after_propagate in H. cbv [bind get ret modify] in H. cbn [negb] in H.
  destruct (_ =? N) eqn:EN.
  - destruct (CDCL2.verifySolution _ _) eqn:Ev.
    + injection H as <-. rewrite Z.eqb_eq in EN. auto.
    + destruct (0 <? _); discriminate.
  - change (if selectVariable N s =? -1 then first_unset (asg s) 1 (Z.to_nat N)
            else selectVariable N s) with (decision_var N s) in H.
    destruct (decision_var_spec N s) as [[Hv Hall]|[Hv Hc]].
    + rewrite Hv in H. cbn in H. destruct (CDCL2.verifySolution _ _) eqn:Ev; [|discriminate].
      injection H as <-. auto.
    + replace (decision_var N s =? -1) with false in H
        by (symmetry; apply Z.eqb_neq; lia). discriminate.
Qed.

Lemma body_true2 (e : Z -> bool) (cls : list Clause) (N c d : Z) (s : St) a s' :
  inv N s -> CDCL2.body e cls N c d s = Ok (Return (true, a)) s' ->
  inv N s' /\ a = asg s' /\ CDCL2.verifySolution a cls = true /\
  (Z.of_nat (length (trail a)) = N \/ forall i, 1 <= i <= N -> contains a i = true).
Proof.
  intros Hs H. unfold CDCL2.body in H. cbv [bind] in H.
  destruct (CDCL2.check_propagate e cls s) as [ok s1| | |] eqn:Hp; try discriminate.
  pose proof (CDCL2Facts.check_propagate_inv2 e cls N s ok s1 Hs Hp) as Hs1.
  destruct ok.
  - pose proof (after_true2 cls N c (d + 1) s1 a s' H) as [-> HN].
    unfold CDCL2.after_propagate in H. cbv [bind get ret modify] in H.
    cbn [negb] in H. repeat case_match; simplify_eq; done.
  - destruct (decide (Z.of_nat (length (trail (asg s1))) <= 1)) as [Hl|Hl].
    + rewrite (proj1 (CDCL2Facts.after_conflict2 cls N c (d + 1) s1) Hl) in H. discriminate.
    + destruct (proj2 (CDCL2Facts.after_conflict2 cls N c (d + 1) s1)) as (s2 & H2 & _); [lia|].
      rewrite H2 in H. discriminate.
Qed.

Lemma solve_loop_true2 (e : Z -> bool) (cls : list Clause) (N : Z) (fuel : nat) :
  1 <= N -> forall c d s a s_end,
  CDCL2Facts.reach e cls N c d s -> CDCL2.solve_loop e cls N fuel c d s = Ok (true, a) s_end ->
  inv N s_end /\ a = asg s_end /\ CDCL2.verifySolution a cls = true /\
  (Z.of_nat (length (trail a)) = N \/ forall i, 1 <= i <= N -> contains a i = true).
Proof.
  intros HN. induction fuel as [|fuel IH]; intros c d s a s_end Hr H;
    cbn [CDCL2.solve_loop] in H; [discriminate|].
  destruct (CDCL2Facts.reach_inv2 e cls N c d s HN Hr) as [Hi Hd].
  destruct (d <? 5000000) eqn:Ed; [|cbv [bind get ret] in H; discriminate].
  rewrite Z.ltb_lt in Ed. cbv [bind ret] in H.
  destruct (CDCL2.body e cls N c d s) as [st s1| | |] eqn:Hb; try discriminate.
  destruct st as [c' d'|r].
  - eapply IH; [|exact H]. by eapply CDCL2Facts.reach_next.
  - injection H as -> <-. by eapply body_true2.
Qed.

(** A SAT answer of [FastCDCLSolver::solve] sets every variable: in
    SATSolverOverOptmised.cpp (for [numVars >= 0]) the answer carries a
    trail of length [numVars] and a value for each of [1..numVars], but no
    check of the clauses on one of its paths; in SATSOLverOPtimsed2.cpp (for
    [numVars >= 1]) the answer also passes [verifySolution]. *)
Theorem cdcl_sat_answer_complete (e : Z -> bool) (cls : list Clause) (N : Z)
    (a : Assignment) (s_end : St) :
  (0 <= N -> CDCL1.solve e cls N = Ok (true, a) s_end ->
   Z.of_nat (length (trail a)) = N /\ forall i, 1 <= i <= N -> contains a i = true) /\
  (1 <= N -> CDCL2.solve e cls N = Ok (true, a) s_end ->
   CDCL2.verifySolution a cls = true /\ forall i, 1 <= i <= N -> contains a i = true).
Proof.
  split; intros HN H.
  - destruct (solve_loop_true1 e cls N _ HN 0 0 _ a s_end (CDCL1Facts.reach_init e cls N)
              (CDCL1Facts.solve_ok_loop1 e cls N _ _ H))
      as ([Hw Hl] & -> & Ht).
    split; [done|]. by apply wf_len_full.
  - destruct (solve_loop_true2 e cls N _ HN 0 0 _ a s_end (CDCL2Facts.reach_init e cls N)
              (proj1 (CDCL2Facts.solve_ok_loop2 e cls N _ _ H)))
      as ([Hw Hl] & -> & Hv & [Ht|Hall]).
    + split; [done|]. by apply wf_len_full.
    + done.
Qed.


Lemma cdcl_sat_answer_complete_witness :
  (0 <= 1 /\
   CDCL1.solve CDCL1Facts.never (parse_clauses 0 [[1]]) 1 =
     Ok (true, mkAsg [-1; 1] [1]) (mkSt (mkAsg [-1; 1] [1]) [0%float; 0%float] 1%float 3) /\
   Z.of_nat (length (trail (mkAsg [-1; 1] [1]))) = 1 /\
   forall i, 1 <= i <= 1 -> contains (mkAsg [-1; 1] [1]) i = true) /\
  (1 <= 1 /\
   CDCL2.solve CDCL1Facts.never (parse_clauses 0 [[1]]) 1 =
     Ok (true, mkAsg [-1; 1] [1]) (mkSt (mkAsg [-1; 1] [1]) [0%float; 1%float] 1%float 3) /\
   CDCL2.verifySolution (mkAsg [-1; 1] [1]) (parse_clauses 0 [[1]]) = true /\
   forall i, 1 <= i <= 1 -> contains (mkAsg [-1; 1] [1]) i = true).
Proof.
  assert (E1 : CDCL1.solve CDCL1Facts.never (parse_clauses 0 [[1]]) 1 =
     Ok (true, mkAsg [-1; 1] [1]) (mkSt (mkAsg [-1; 1] [1]) [0%float; 0%float] 1%float 3))
    by (vm_compute; reflexivity).
  assert (E2 : CDCL2.solve CDCL1Facts.never (parse_clauses 0 [[1]]) 1 =
     Ok (true, mkAsg [-1; 1] [1]) (mkSt (mkAsg [-1; 1] [1]) [0%float; 1%float] 1%float 3))
    by (vm_compute; reflexivity).
  split; split; [lia| |lia|]; split; try assumption.
  - exact (proj1 (cdcl_sat_answer_complete CDCL1Facts.never (parse_clauses 0 [[1]]) 1
                    (mkAsg [-1; 1] [1]) _) ltac:(lia) E1).
  - exact (proj2 (cdcl_sat_answer_complete CDCL1Facts.never (parse_clauses 0 [[1]]) 1
                    (mkAsg [-1; 1] [1]) _) ltac:(lia) E2).
Defined.

End CDCLSat.

Module ReducerExtras.
Import Reducer ReducerFacts ReducerStats.

(** Number of clauses of size [k]. *)
Definition size_count (cs : list Clause) (k : Z) : nat :=
  length (List.filter (fun c : Clause => Z.of_nat (length c) =? k) cs).

Lemma size_dist_fold (cs : list Clause) : forall (m : gmap Z Z) (k : Z),
  fold_left (fun dist (c : Clause) =>
    <[Z.of_nat (length c) := default 0 (dist !! Z.of_nat (length c)) + 1]> dist) cs m !! k =
  if Nat.eqb (size_count cs k) 0 then m !! k
  else Some (default 0 (m !! k) + Z.of_nat (size_count cs k)).
Proof.
  unfold size_count.
  induction cs as [|c cs IH]; intros m k; simpl; [done|].
  rewrite IH. destruct (Z.eqb_spec (Z.of_nat (length c)) k) as [<-|Hk]; simpl.
  - rewrite lookup_insert_eq.
    destruct (Nat.eqb_spec (length (List.filter (fun c0 : Clause =>
               Z.of_nat (length c0) =? Z.of_nat (length c)) cs)) 0) as [E|E]; simpl;
      f_equal; rewrite ?E; lia.
  - rewrite lookup_insert_ne by done. done.
Qed.

(** [getClauseSizeDistribution] maps each clause size to the number of
    clauses of that size; a size that no clause has is absent. *)
Theorem clause_size_distribution_spec (F : CNFFormula) (k : Z) :
  getClauseSizeDistribution F !! k =
    if Nat.eqb (size_count (clauses F) k) 0 then None
    else Some (Z.of_nat (size_count (clauses F) k)).
Proof.
  unfold getClauseSizeDistribution. rewrite size_dist_fold, lookup_empty.
  by destruct (Nat.eqb _ 0).
Qed.

Lemma total_literals_len3 (cs : list Clause) :
  Forall (fun cl : Clause => length cl = 3%nat) cs ->
  total_literals cs = 3 * Z.of_nat (length cs).
Proof.
  unfold total_literals. rewrite total_literals_fold.
  induction 1 as [|c cs Hc _ IH]; simpl; [lia|]. rewrite Hc. lia.
Qed.

Lemma size_count_len3 (cs : list Clause) (k : Z) :
  Forall (fun cl : Clause => length cl = 3%nat) cs ->
  size_count cs k = if k =? 3 then length cs else 0%nat.
Proof.
  unfold size_count. induction 1 as [|c cs Hc _ IH]; simpl; [by destruct (k =? 3)|].
  rewrite Hc. change (Z.of_nat 3) with 3.
  destruct (Z.eqb_spec 3 k), (Z.eqb_spec k 3); simpl; rewrite ?IH; lia.
Qed.

(** The reducer's output has clauses of size 3 only: its size distribution
    is [{3 -> reducedClauses}] (empty when no clause is emitted), and the
    statistics count [totalLiteralsReduced = 3 * reducedClauses]. *)
Theorem reduce_output_sizes (F : CNFFormula) (k : Z) :
  let st := snd (reduce F) in
  getClauseSizeDistribution (fst (reduce F)) !! k =
    (if (k =? 3) && negb (reducedClauses st =? 0) then Some (reducedClauses st) else None) /\
  totalLiteralsReduced st = 3 * reducedClauses st.
Proof.
  pose proof (reduce_loop_len3 (clauses F) (wrap32 (numVars F + 1))) as H3.
  rewrite <- reduce_fst_clauses in H3.
  assert (Hc : reducedClauses (snd (reduce F)) = Z.of_nat (length (clauses (fst (reduce F))))).
  { unfold reduce. by destruct (reduce_loop _ _). }
  assert (Ht : totalLiteralsReduced (snd (reduce F)) = total_literals (clauses (fst (reduce F)))).
  { unfold reduce. by destruct (reduce_loop _ _). }
  cbv zeta. rewrite clause_size_distribution_spec, size_count_len3 by exact H3.
  rewrite Hc, Ht, total_literals_len3 by exact H3. split; [|done].
  destruct (k =? 3); simpl; [|done].
  destruct (length (clauses (fst (reduce F)))); simpl; done.
Qed.
End ReducerExtras.

Module TextIOFacts.
Import String Ascii.
Import TextIO.

Lemma digit_char_val (d : Z) : 0 <= d <= 9 -> digit_val (digit_char d) = d.
Proof.
  intros Hd. unfold digit_val, digit_char. rewrite nat_ascii_embedding by lia. lia.
Qed.

Lemma digit_char_isdigit (d : Z) : 0 <= d <= 9 -> isdigit (digit_char d) = true.
Proof.
  intros Hd. unfold isdigit, digit_char. rewrite nat_ascii_embedding by lia.
  apply andb_true_iff. split; apply Nat.leb_le; lia.
Qed.

Lemma isdigit_not_space (c : ascii) : isdigit c = true -> isspace c = false.
Proof.
  unfold isdigit, isspace. intros H. apply andb_true_iff in H as [H1 H2].
  apply Nat.leb_le in H1, H2. apply orb_false_iff. split.
  - apply Nat.eqb_neq. lia.
  - apply andb_false_iff. right. apply Nat.leb_gt. lia.
Qed.

Lemma show_digits_app (f : nat) : forall (n : Z) (a b : string),
  show_digits f n (a ++ b) = (show_digits f n a ++ b)%string.
Proof.
  induction f as [|f IH]; intros n a b; simpl; [done|].
  destruct (n <? 10); [done|]. apply (IH (n / 10) (String _ a) b).
Qed.

Lemma show_digits_head (f : nat) : forall (n : Z) (acc : string),
  0 <= n -> exists c s, show_digits (S f) n acc = String c s /\ isdigit c = true.
Proof.
  induction f as [|f IH]; intros n acc Hn; cbn [show_digits];
    pose proof (Z.mod_pos_bound n 10 ltac:(lia)).
  - destruct (n <? 10); eexists _, _; (split; [reflexivity|]); apply digit_char_isdigit; lia.
  - destruct (n <? 10).
    + eexists _, _; (split; [reflexivity|]); apply digit_char_isdigit; lia.
    + apply IH. apply Z.div_pos; lia.
Qed.

Lemma show_digits_read (f : nat) : forall (n : Z) (acc : string),
  0 <= n < 10 ^ Z.of_nat f -> read_digits (show_digits f n acc) 0 = read_digits acc n.
Proof.
  induction f as [|f IH]; intros n acc Hn; cbn [show_digits].
  - simpl in Hn. replace n with 0 by lia. done.
  - rewrite Nat2Z.inj_succ, Z.pow_succ_r in Hn by lia.
    destruct (Z.ltb_spec n 10).
    + rewrite Z.mod_small by lia. cbn [read_digits]. rewrite digit_char_isdigit by lia.
      rewrite digit_char_val by lia. f_equal.
    + rewrite IH.
      2:{ split; [apply Z.div_pos; lia|]. apply Z.div_lt_upper_bound; lia. }
      cbn [read_digits]. rewrite digit_char_isdigit by (pose proof (Z.mod_pos_bound n 10); lia).
      rewrite digit_char_val by (pose proof (Z.mod_pos_bound n 10); lia).
      f_equal. pose proof (Z.div_mod n 10). lia.
Qed.

Lemma log2_pow10 (n : Z) : 0 <= n -> n < 10 ^ Z.of_nat (S (Z.to_nat (Z.log2 n))).
Proof.
  intros Hn. rewrite Nat2Z.inj_succ, Z2Nat.id by apply Z.log2_nonneg.
  destruct (Z.eq_dec n 0) as [->|]; [simpl; lia|].
  pose proof (Z.log2_spec n ltac:(lia)) as [_ H].
  eapply Z.lt_le_trans; [exact H|].
  apply Z.pow_le_mono_l. split; lia.
Qed.

Lemma show_nonneg_read (n : Z) (rest : string) : 0 <= n ->
  read_digits (show_nonneg n ++ rest) 0 = read_digits rest n.
Proof.
  intros Hn. unfold show_nonneg. rewrite <- show_digits_app. simpl (EmptyString ++ rest)%string.
  apply show_digits_read. split; [lia|]. apply log2_pow10; lia.
Qed.

Lemma show_nonneg_head (n : Z) (rest : string) : 0 <= n ->
  exists c s, (show_nonneg n ++ rest)%string = String c s /\ isdigit c = true.
Proof.
  intros Hn. unfold show_nonneg. rewrite <- show_digits_app. apply show_digits_head. lia.
Qed.

(** A text that does not start with a digit ends a number. *)
Definition no_digit_start (s : string) : bool :=
  match s with
  | EmptyString => true
  | String c _ => negb (isdigit c)
  end.

Lemma read_digits_stop (s : string) (acc : Z) :
  no_digit_start s = true -> read_digits s acc = (acc, s).
Proof.
  destruct s as [|c s]; simpl; [done|]. intros H. apply negb_true_iff in H. rewrite H. done.
Qed.

Lemma read_int_skip_ws (s : string) (n : Z) :
  read_int (Some s) n = read_int (Some (skip_ws s)) n.
Proof.
  unfold read_int. assert (E : skip_ws (skip_ws s) = skip_ws s).
  { induction s as [|c s IH]; simpl; [done|]. destruct (isspace c) eqn:E; [done|].
    simpl. rewrite E. done. }
  rewrite E. done.
Qed.

Lemma read_int_space (s : string) (n : Z) :
  read_int (Some (String " "%char s)) n = read_int (Some s) n.
Proof.
  rewrite (read_int_skip_ws (String _ s)), (read_int_skip_ws s). done.
Qed.

Lemma read_int_show (z n : Z) (rest : string) :
  INT_MIN <= z <= INT_MAX -> no_digit_start rest = true ->
  read_int (Some (show_Z z ++ rest)%string) n = (Some rest, z).
Proof.
  intros Hz Hr. unfold show_Z. destruct (Z.ltb_spec z 0).
  - destruct (show_nonneg_head (- z) rest) as (c & s & Ecs & Hc); [lia|].
    change ((String "-"%char (show_nonneg (- z)) ++ rest)%string)
      with (String "-"%char (show_nonneg (- z) ++ rest)). rewrite Ecs.
    cbn [read_int skip_ws]. replace (isspace "-"%char) with false by reflexivity.
    simpl (Ascii.eqb "-"%char "-"%char). cbv iota. rewrite Hc.
    rewrite <- Ecs, show_nonneg_read, read_digits_stop by (done || lia).
    unfold INT_MIN, INT_MAX in *.
    destruct (Z.ltb_spec (- - z) (-2147483648)); [lia|].
    destruct (Z.ltb_spec 2147483647 (- - z)); [lia|]. f_equal. lia.
  - destruct (show_nonneg_head z rest) as (c & s & Ecs & Hc); [lia|].
    cbn [read_int]. rewrite Ecs. cbn [skip_ws]. rewrite isdigit_not_space by done.
    assert (Ascii.eqb c "-"%char = false) as ->.
    { destruct (Ascii.eqb_spec c "-"%char) as [->|]; [discriminate|done]. }
    assert (Ascii.eqb c "+"%char = false) as ->.
    { destruct (Ascii.eqb_spec c "+"%char) as [->|]; [discriminate|done]. }
    rewrite Hc, <- Ecs, show_nonneg_read, read_digits_stop by (done || lia).
    unfold INT_MIN, INT_MAX in *.
    destruct (Z.ltb_spec z (-2147483648)); [lia|].
    destruct (Z.ltb_spec 2147483647 z); [lia|]. done.
Qed.


(** [String.append] is [simpl never]; its two equations. *)
Lemma str_app_nil (b : string) : (EmptyString ++ b)%string = b.
Proof. reflexivity. Qed.

Lemma str_app_cons (x : ascii) (a b : string) : (String x a ++ b)%string = String x (a ++ b).
Proof. reflexivity. Qed.

Lemma str_app_assoc (a b c : string) : ((a ++ b) ++ c)%string = (a ++ (b ++ c))%string.
Proof. induction a as [|x a IH]; [done|]. by rewrite !str_app_cons, IH. Qed.

Lemma str_app_nil_r (a : string) : (a ++ EmptyString)%string = a.
Proof. induction a as [|x a IH]; [done|]. by rewrite str_app_cons, IH. Qed.

Lemma str_length_app (a b : string) :
  String.length (a ++ b) = (String.length a + String.length b)%nat.
Proof. induction a as [|x a IH]; [done|]. rewrite str_app_cons. simpl. by rewrite IH. Qed.

(** A text holding a ['\n']. *)
Fixpoint has_nl (s : string) : bool :=
  match s with
  | EmptyString => false
  | String c s' => Ascii.eqb c nl_char || has_nl s'
  end.

Lemma has_nl_app (a b : string) : has_nl (a ++ b) = has_nl a || has_nl b.
Proof. induction a as [|x a IH]; [done|]. rewrite str_app_cons. simpl. rewrite IH. apply orb_assoc. Qed.

Lemma digit_char_not_nl (d : Z) : 0 <= d <= 9 -> Ascii.eqb (digit_char d) nl_char = false.
Proof.
  intros Hd. destruct (Ascii.eqb_spec (digit_char d) nl_char) as [E|]; [|done].
  pose proof (digit_char_isdigit d Hd) as H. rewrite E in H. discriminate.
Qed.

Lemma show_digits_no_nl (f : nat) : forall (n : Z) (acc : string),
  has_nl (show_digits f n acc) = has_nl acc.
Proof.
  induction f as [|f IH]; intros n acc; cbn [show_digits]; [done|].
  pose proof (Z.mod_pos_bound n 10 ltac:(lia)).
  destruct (n <? 10); [|rewrite IH]; cbn [has_nl]; rewrite digit_char_not_nl by lia; done.
Qed.

Lemma show_nonneg_no_nl (n : Z) : has_nl (show_nonneg n) = false.
Proof. unfold show_nonneg. by rewrite show_digits_no_nl. Qed.

Lemma show_Z_no_nl (z : Z) : has_nl (show_Z z) = false.
Proof. unfold show_Z. destruct (z <? 0); simpl; by rewrite show_nonneg_no_nl. Qed.

(** [getline] on lines each ended by ['\n']. *)
Lemma lines_from_app (s r cur : string) : has_nl s = false ->
  lines_from (s ++ String nl_char r) cur = (cur ++ s)%string :: lines_from r EmptyString.
Proof.
  revert cur. induction s as [|c s IH]; intros cur Hs.
  - rewrite str_app_nil, str_app_nil_r. simpl. done.
  - rewrite str_app_cons. simpl in Hs |- *.
    apply orb_false_iff in Hs as [Hc Hs]. rewrite Hc, IH by exact Hs.
    rewrite str_app_assoc. done.
Qed.

Lemma getlines_app (s r : string) : has_nl s = false ->
  getlines (s ++ String nl_char r) = s :: getlines r.
Proof. intros H. unfold getlines. by rewrite lines_from_app. Qed.

(** Every line returned by [getline] is free of ['\n']. *)
Lemma lines_from_no_nl (s : string) : forall cur : string, has_nl cur = false ->
  Forall (fun l => has_nl l = false) (lines_from s cur).
Proof.
  induction s as [|c s IH]; intros cur Hc; simpl.
  - destruct cur; repeat constructor; done.
  - destruct (Ascii.eqb c nl_char) eqn:E.
    + constructor; [done|]. apply IH. done.
    + apply IH. rewrite has_nl_app. simpl. rewrite Hc, E. done.
Qed.

Lemma getlines_no_nl (s : string) : Forall (fun l => has_nl l = false) (getlines s).
Proof. apply lines_from_no_nl. done. Qed.

(** Reading [int]s. *)
Lemma read_lits_space (fuel : nat) (s : string) (lit : Z) :
  read_lits fuel (Some (String " "%char s)) lit = read_lits fuel (Some s) lit.
Proof. destruct fuel; [done|]. cbn [read_lits]. by rewrite read_int_space. Qed.

(** Literals a clause line can carry: non-zero [int]s. *)
Definition lit_ok (l : Z) : bool := negb (l =? 0) && in_int l.

Lemma show_Z_0 : show_Z 0 = "0"%string.
Proof. reflexivity. Qed.

Lemma read_lits_show (c : list Z) : forall (fuel : nat) (lit : Z) (rest : string),
  forallb lit_ok c = true -> (List.length c < fuel)%nat -> no_digit_start rest = true ->
  read_lits fuel (Some (ReducerIO.show_lits c ++ "0" ++ rest)%string) lit = c.
Proof.
  induction c as [|l c IH]; intros fuel lit rest Hok Hlen Hr;
    (destruct fuel as [|fuel]; [simpl in Hlen; lia|]).
  - cbn [ReducerIO.show_lits]. rewrite str_app_nil, <- show_Z_0. cbn [read_lits].
    rewrite read_int_show by (done || (unfold INT_MIN, INT_MAX; lia)). done.
  - cbn [ReducerIO.show_lits forallb] in Hok |- *.
    apply andb_true_iff in Hok as [Hl Hok]. unfold lit_ok in Hl.
    apply andb_true_iff in Hl as [Hl0 Hl]. apply in_int_spec in Hl.
    rewrite !str_app_assoc, str_app_cons, str_app_nil. cbn [read_lits].
    rewrite read_int_show by done.
    destruct (l =? 0); [discriminate|]. f_equal.
    rewrite read_lits_space. apply IH; [done|simpl in Hlen; lia|done].
Qed.

Lemma show_lits_length (c : list Z) : (List.length c <= String.length (ReducerIO.show_lits c))%nat.
Proof.
  induction c as [|l c IH]; cbn [ReducerIO.show_lits]; [simpl; lia|].
  rewrite !str_length_app. simpl. lia.
Qed.

Lemma line_lits_show (c : list Z) : forallb lit_ok c = true ->
  line_lits (ReducerIO.show_lits c ++ "0")%string = c.
Proof.
  intros Hok. unfold line_lits.
  rewrite <- (str_app_nil_r "0"). apply read_lits_show; [done| |done].
  rewrite str_length_app. pose proof (show_lits_length c). lia.
Qed.

Lemma show_lits_no_nl (c : list Z) : has_nl (ReducerIO.show_lits c) = false.
Proof.
  induction c as [|l c IH]; cbn [ReducerIO.show_lits]; [done|].
  rewrite !has_nl_app, show_Z_no_nl, IH. done.
Qed.

(** Everything [read_lits] returns is a non-zero [int]. *)
Lemma read_int_some (st : istream) (n : Z) (s : string) (v : Z) :
  read_int st n = (Some s, v) -> in_int v = true.
Proof.
  unfold read_int. destruct st as [t|]; [|discriminate].
  destruct (skip_ws t) as [|c s']; [discriminate|].
  destruct (if Ascii.eqb c "-"%char then _ else _) as [neg s2].
  destruct s2 as [|d s2']; [discriminate|].
  destruct (isdigit d); [|discriminate].
  destruct (read_digits (String d s2') 0) as [w s3].
  set (w' := if neg then - w else w).
  destruct (Z.ltb_spec w' INT_MIN); [discriminate|].
  destruct (Z.ltb_spec INT_MAX w'); [discriminate|].
  intros [= _ <-]. apply in_int_spec. lia.
Qed.

Lemma read_lits_ok (fuel : nat) : forall (st : istream) (lit : Z),
  forallb lit_ok (read_lits fuel st lit) = true.
Proof.
  induction fuel as [|fuel IH]; intros st lit; cbn [read_lits]; [done|].
  destruct (read_int st lit) as [st' v] eqn:E.
  destruct st' as [s|]; [|done].
  destruct (Z.eqb_spec v 0); [done|].
  cbn [forallb]. rewrite IH, andb_true_r. unfold lit_ok.
  rewrite (read_int_some _ _ _ _ E). destruct (Z.eqb_spec v 0); done.
Qed.

Lemma line_lits_ok (line : string) : forallb lit_ok (line_lits line) = true.
Proof. apply read_lits_ok. Qed.

(** Reading the [p] line written as [p cnf NV NC]. *)
Lemma read_header_show (nv nc x y : Z) :
  in_int nv = true -> in_int nc = true ->
  read_header ("p cnf " ++ show_Z nv ++ " " ++ show_Z nc)%string x y = (nv, nc).
Proof.
  intros Hv Hc. apply in_int_spec in Hv, Hc. unfold read_header.
  assert (E : read_word (read_word (Some ("p cnf " ++ show_Z nv ++ " " ++ show_Z nc)%string)) =
              Some (String " " (show_Z nv ++ " " ++ show_Z nc))) by reflexivity.
  rewrite E, read_int_space, read_int_show by done.
  rewrite str_app_cons, str_app_nil, read_int_space, <- (str_app_nil_r (show_Z nc)),
    read_int_show by done.
  done.
Qed.

End TextIOFacts.

Module DimacsFacts.
Import String Ascii TextIO TextIOFacts.

(** The common reading of a DIMACS file by the three [CNFParser::parse]:
    the two counts of the [p] line and the non-empty clause lines. *)
Definition dimacs_step (st : Z * Z * list (list Z)) (line : string) : Z * Z * list (list Z) :=
  let '(nv, nc, ls) := st in
  match line with
  | EmptyString => st
  | String c _ =>
      if Ascii.eqb c "c"%char then st
      else if Ascii.eqb c "p"%char then
        let '(nv', nc') := read_header line nv nc in (nv', nc', ls)
      else
        match line_lits line with
        | [] => st
        | lits => (nv, nc, ls ++ [lits])
        end
  end.

Definition dimacs (file : string) : Z * Z * list (list Z) :=
  fold_left dimacs_step (getlines file) (0, 0, []).

Definition nonempty {A} (l : list A) : bool := match l with [] => false | _ => true end.

Lemma reducer_parse_line (F : Reducer.CNFFormula) (line : string) :
  let '(nv, nc, ls) := dimacs_step (Reducer.numVars F, Reducer.numClauses F, Reducer.clauses F) line in
  ReducerIO.parse_line F line = Reducer.mkCNF nv nc ls.
Proof.
  destruct F as [nv nc cs]. unfold ReducerIO.parse_line, dimacs_step.
  cbn [Reducer.numVars Reducer.numClauses Reducer.clauses].
  destruct line as [|c s]; [done|].
  destruct (Ascii.eqb c "c"%char); [done|].
  destruct (Ascii.eqb c "p"%char).
  - destruct (read_header (String c s) nv nc); reflexivity.
  - destruct (line_lits (String c s)); reflexivity.
Qed.

Lemma reducer_parse_dimacs (file : string) :
  ReducerIO.CNFParser_parse file =
    let '(nv, nc, ls) := dimacs file in Reducer.mkCNF nv nc ls.
Proof.
  unfold ReducerIO.CNFParser_parse, dimacs.
  change (0, 0, @nil (list Z)) with (Reducer.numVars (Reducer.mkCNF 0 0 []),
                          Reducer.numClauses (Reducer.mkCNF 0 0 []),
                          Reducer.clauses (Reducer.mkCNF 0 0 [])).
  generalize (Reducer.mkCNF 0 0 []). induction (getlines file) as [|line ls IH]; intros F.
  - destruct F; done.
  - cbn [fold_left]. rewrite IH. pose proof (reducer_parse_line F line) as H.
    destruct (dimacs_step _ line) as [[nv nc] cs]. rewrite H. done.
Qed.

Lemma verifier_parse_line (I : Verifier.CNFInstance) (line : string) :
  let '(nv, nc, ls) := dimacs_step (Verifier.inumVars I, Verifier.inumClauses I, Verifier.iclauses I) line in
  VerifierIO.parse_line I line = Verifier.mkInstance nv nc ls.
Proof.
  destruct I as [nv nc cs]. unfold VerifierIO.parse_line, dimacs_step.
  cbn [Verifier.inumVars Verifier.inumClauses Verifier.iclauses].
  destruct line as [|c s]; [done|].
  destruct (Ascii.eqb c "c"%char); [done|].
  destruct (Ascii.eqb c "p"%char).
  - destruct (read_header (String c s) nv nc); reflexivity.
  - destruct (line_lits (String c s)); reflexivity.
Qed.

Lemma verifier_parse_dimacs (file : string) :
  VerifierIO.CNFParser_parse file =
    let '(nv, nc, ls) := dimacs file in Verifier.mkInstance nv nc ls.
Proof.
  unfold VerifierIO.CNFParser_parse, dimacs.
  change (0, 0, @nil (list Z)) with (Verifier.inumVars (Verifier.mkInstance 0 0 []),
                          Verifier.inumClauses (Verifier.mkInstance 0 0 []),
                          Verifier.iclauses (Verifier.mkInstance 0 0 [])).
  generalize (Verifier.mkInstance 0 0 []). induction (getlines file) as [|line ls IH]; intros I.
  - destruct I; done.
  - cbn [fold_left]. rewrite IH. pose proof (verifier_parse_line I line) as H.
    destruct (dimacs_step _ line) as [[nv nc] cs]. rewrite H. done.
Qed.

Lemma read_header_fst (line : string) (nv x y : Z) :
  fst (read_header line nv x) = fst (read_header line nv y).
Proof.
  unfold read_header. destruct (read_int (read_word (read_word (Some line))) nv) as [st v].
  destruct (read_int st x), (read_int st y). done.
Qed.

Lemma parse_clauses_app (ls : list (list Z)) (l : list Z) : forall k : Z,
  Forall (fun c => c <> []) ls -> l <> [] ->
  Solver.parse_clauses k (ls ++ [l]) =
    Solver.parse_clauses k ls ++
    [Solver.mkClause (map (fun lit => Solver.mkLit (Z.abs lit) (0 <? lit)) l) (k + Z.of_nat (List.length ls))].
Proof.
  induction ls as [|c ls IH]; intros k Hls Hl.
  - destruct l as [|x l]; [done|]. simpl. rewrite Z.add_0_r. done.
  - inversion Hls as [|? ? Hc Hls']; subst. destruct c as [|x c]; [done|].
    cbn [app Solver.parse_clauses map]. rewrite IH by done. cbn [List.length].
    rewrite Nat2Z.inj_succ, <- Z.add_1_l, Z.add_assoc. reflexivity.
Qed.

(** The solver's parser state against the common reading. *)
Definition solver_rel (st : list Solver.Clause * Z * Z) (d : Z * Z * list (list Z)) : Prop :=
  let '(cls, nv, cid) := st in
  let '(nv', _, ls) := d in
  cls = Solver.parse_clauses 0 ls /\ nv = nv' /\ cid = Z.of_nat (List.length ls) /\
  Forall (fun c => c <> []) ls.

Lemma solver_parse_line (st : list Solver.Clause * Z * Z) (d : Z * Z * list (list Z)) (line : string) :
  solver_rel st d -> solver_rel (SolverIO.parse_line st line) (dimacs_step d line).
Proof.
  destruct st as [[cls nv] cid], d as [[nv' nc] ls]. intros (-> & -> & -> & Hne).
  unfold SolverIO.parse_line, dimacs_step.
  destruct line as [|c s]; [done|].
  destruct (Ascii.eqb c "c"%char); [done|].
  destruct (Ascii.eqb c "p"%char).
  - pose proof (read_header_fst (String c s) nv' 0 nc) as E.
    destruct (read_header (String c s) nv' 0) as [a b], (read_header (String c s) nv' nc) as [a' b'].
    simpl in E. subst. done.
  - destruct (line_lits (String c s)) as [|x l] eqn:El; [done|]. cbn [map].
    split; [|split; [done|split]].
    + rewrite parse_clauses_app by done. done.
    + rewrite length_app. simpl. lia.
    + apply Forall_app. split; [done|]. constructor; done.
Qed.

Lemma solver_parse_dimacs (file : string) :
  SolverIO.CNFParser_parse file =
    let '(nv, _, ls) := dimacs file in (Solver.parse_clauses 0 ls, nv).
Proof.
  unfold SolverIO.CNFParser_parse, dimacs.
  assert (H : solver_rel ([], 0, 0) (0, 0, [])) by (repeat split; done).
  revert H. generalize (@nil Solver.Clause, 0, 0) as st, (0, 0, @nil (list Z)) as d.
  induction (getlines file) as [|line ls IH]; intros st d H.
  - destruct st as [[cls nv] cid], d as [[nv' nc] l]. destruct H as (-> & -> & _). done.
  - cbn [fold_left]. apply IH. apply solver_parse_line. done.
Qed.

(** Every clause line kept is non-empty and made of non-zero [int]s. *)
Definition lines_ok (ls : list (list Z)) : Prop :=
  Forall (fun c => nonempty c && forallb lit_ok c = true) ls.

Lemma dimacs_step_ok (st : Z * Z * list (list Z)) (line : string) :
  lines_ok st.2 -> lines_ok (dimacs_step st line).2.
Proof.
  destruct st as [[nv nc] ls]. simpl. intros H. unfold dimacs_step.
  destruct line as [|c s]; [done|].
  destruct (Ascii.eqb c "c"%char); [done|].
  destruct (Ascii.eqb c "p"%char).
  - destruct (read_header (String c s) nv nc); done.
  - pose proof (line_lits_ok (String c s)) as Hok.
    destruct (line_lits (String c s)) as [|x l]; [done|]. simpl.
    apply Forall_app. split; [done|]. constructor; [|done]. done.
Qed.

Lemma dimacs_ok (file : string) : lines_ok (dimacs file).2.
Proof.
  unfold dimacs. assert (H : lines_ok (0, 0, @nil (list Z)).2) by constructor.
  revert H. generalize (0, 0, @nil (list Z)).
  induction (getlines file) as [|line ls IH]; intros st H; [done|].
  apply IH. apply dimacs_step_ok. done.
Qed.

Lemma getlines_unlines (ls : list string) :
  Forall (fun l => has_nl l = false) ls -> getlines (ReducerIO.unlines ls) = ls.
Proof.
  induction 1 as [|l ls Hl _ IH]; [done|]. cbn [ReducerIO.unlines].
  unfold nl. rewrite str_app_cons, str_app_nil, getlines_app, IH by done. done.
Qed.

Lemma show_Z_head (z : Z) (r : string) : exists ch s,
  (show_Z z ++ r)%string = String ch s /\ Ascii.eqb ch "c"%char = false /\
  Ascii.eqb ch "p"%char = false /\ Ascii.eqb ch "v"%char = false.
Proof.
  unfold show_Z. destruct (Z.ltb_spec z 0).
  - rewrite str_app_cons. eexists _, _. split; [reflexivity|done].
  - destruct (show_nonneg_head z r) as (ch & s & E & Hd); [lia|].
    exists ch, s. split; [done|].
    repeat split; match goal with |- Ascii.eqb ch ?k = false =>
      destruct (Ascii.eqb_spec ch k) as [->|]; [discriminate|done] end.
Qed.

Lemma dimacs_step_c (st : Z * Z * list (list Z)) (r : string) :
  dimacs_step st (String "c"%char r) = st.
Proof. destruct st as [[nv nc] ls]. reflexivity. Qed.

Lemma dimacs_step_c_app (st : Z * Z * list (list Z)) (r x : string) :
  dimacs_step st (String "c"%char r ++ x) = st.
Proof. apply dimacs_step_c. Qed.

Lemma dimacs_step_p_app (st : Z * Z * list (list Z)) (r x : string) :
  dimacs_step st (String "p"%char r ++ x) =
    let '(nv, nc, ls) := st in let '(a, b) := read_header (String "p"%char r ++ x) nv nc in (a, b, ls).
Proof. destruct st as [[nv nc] ls]. reflexivity. Qed.

Lemma dimacs_step_clause (nv nc : Z) (ls : list (list Z)) (c : list Z) :
  forallb lit_ok c = true ->
  dimacs_step (nv, nc, ls) (ReducerIO.show_lits c ++ "0")%string =
    if nonempty c then (nv, nc, ls ++ [c]) else (nv, nc, ls).
Proof.
  intros Hok. destruct c as [|l c]; [reflexivity|].
  pose proof (line_lits_show (l :: c) Hok) as HL.
  destruct (show_Z_head l (" " ++ ReducerIO.show_lits c ++ "0")%string) as (ch & s & E & Hc & Hp & _).
  unfold dimacs_step. rewrite HL.
  assert (E' : (ReducerIO.show_lits (l :: c) ++ "0")%string = String ch s).
  { cbn [ReducerIO.show_lits]. rewrite !str_app_assoc. done. }
  rewrite E', Hc, Hp. done.
Qed.

Lemma fold_clause_lines (cs : list (list Z)) : forall (nv nc : Z) (acc : list (list Z)),
  forallb (forallb lit_ok) cs = true ->
  fold_left dimacs_step (map (fun c => ReducerIO.show_lits c ++ "0")%string cs) (nv, nc, acc) =
    (nv, nc, acc ++ List.filter nonempty cs).
Proof.
  induction cs as [|c cs IH]; intros nv nc acc Hok; cbn [map fold_left].
  - rewrite app_nil_r. done.
  - cbn [forallb] in Hok. apply andb_true_iff in Hok as [Hc Hok].
    rewrite dimacs_step_clause by done. cbn [List.filter].
    destruct (nonempty c); rewrite IH by done; [rewrite <- app_assoc|]; done.
Qed.

Lemma writer_lines (F : Reducer.CNFFormula) :
  getlines (ReducerIO.CNFWriter_write F) =
    ["c Formule 3-SAT générée par réduction";
      "c Variables originales: " ++
        show_nonneg ((Reducer.numVars F - Z.of_nat (List.length (Reducer.clauses F))) mod 2 ^ 64);
      "c Variables totales (avec auxiliaires): " ++ show_Z (Reducer.numVars F);
      "p cnf " ++ show_Z (Reducer.numVars F) ++ " " ++ show_Z (Reducer.numClauses F)]%string ++
     map (fun c => ReducerIO.show_lits c ++ "0")%string (Reducer.clauses F).
Proof.
  apply getlines_unlines. apply Forall_app. split.
  - repeat constructor; rewrite ?has_nl_app, ?show_Z_no_nl, ?show_nonneg_no_nl; reflexivity.
  - induction (Reducer.clauses F) as [|c cs IH]; constructor; [|done].
    rewrite has_nl_app, show_lits_no_nl. reflexivity.
Qed.

Lemma dimacs_write (F : Reducer.CNFFormula) :
  in_int (Reducer.numVars F) = true -> in_int (Reducer.numClauses F) = true ->
  forallb (forallb lit_ok) (Reducer.clauses F) = true ->
  dimacs (ReducerIO.CNFWriter_write F) =
    (Reducer.numVars F, Reducer.numClauses F, List.filter nonempty (Reducer.clauses F)).
Proof.
  intros Hv Hc Hok. unfold dimacs. rewrite writer_lines, fold_left_app.
  cbn [fold_left]. rewrite dimacs_step_c, !dimacs_step_c_app, dimacs_step_p_app.
  rewrite read_header_show by done. rewrite fold_clause_lines by done. done.
Qed.

Lemma parse_clauses_ids (ls : list (list Z)) : forall k : Z,
  Forall (fun c => c <> []) ls ->
  map Solver.id (Solver.parse_clauses k ls) = seqZ k (Z.of_nat (List.length ls)).
Proof.
  induction ls as [|c ls IH]; intros k Hls; [done|].
  inversion Hls as [|? ? Hc Hls']; subst. destruct c as [|x c]; [done|].
  cbn [Solver.parse_clauses map List.length]. rewrite IH by done.
  rewrite (seqZ_cons k) by lia. f_equal. f_equal; lia.
Qed.

Lemma parse_clauses_filter (cs : list (list Z)) : forall k : Z,
  Solver.parse_clauses k (List.filter nonempty cs) = Solver.parse_clauses k cs.
Proof.
  induction cs as [|c cs IH]; intros k; [done|]. destruct c as [|x c]; cbn; rewrite IH; done.
Qed.

End DimacsFacts.

Module IOExtras.
Import String Ascii TextIO TextIOFacts DimacsFacts.

(** The file written by [CNFWriter::write] is read back by the three
    [CNFParser::parse] (reducer, verifier, solvers): the counts of its
    [p] line, and its clauses with the empty ones dropped (an empty clause
    is written as the line [0], which reads as no literal). This holds
    when the counts are [int]s and every literal is a non-zero [int]. *)
Theorem cnf_write_read_back (F : Reducer.CNFFormula) :
  in_int (Reducer.numVars F) = true -> in_int (Reducer.numClauses F) = true ->
  forallb (forallb lit_ok) (Reducer.clauses F) = true ->
  ReducerIO.CNFParser_parse (ReducerIO.CNFWriter_write F) =
    Reducer.mkCNF (Reducer.numVars F) (Reducer.numClauses F)
      (List.filter nonempty (Reducer.clauses F)) /\
  VerifierIO.CNFParser_parse (ReducerIO.CNFWriter_write F) =
    Verifier.mkInstance (Reducer.numVars F) (Reducer.numClauses F)
      (List.filter nonempty (Reducer.clauses F)) /\
  SolverIO.CNFParser_parse (ReducerIO.CNFWriter_write F) =
    (Solver.parse_clauses 0 (Reducer.clauses F), Reducer.numVars F).
Proof.
  intros Hv Hc Hok.
  rewrite reducer_parse_dimacs, verifier_parse_dimacs, solver_parse_dimacs, dimacs_write by done.
  rewrite parse_clauses_filter. done.
Qed.

Lemma cnf_write_read_back_witness :
  let F := Reducer.mkCNF 3 2 [[1; -2]; []; [3]] in
  ReducerIO.CNFParser_parse (ReducerIO.CNFWriter_write F) = Reducer.mkCNF 3 2 [[1; -2]; [3]] /\
  VerifierIO.CNFParser_parse (ReducerIO.CNFWriter_write F) = Verifier.mkInstance 3 2 [[1; -2]; [3]] /\
  SolverIO.CNFParser_parse (ReducerIO.CNFWriter_write F) =
    (Solver.parse_clauses 0 [[1; -2]; []; [3]], 3).
Proof. apply (cnf_write_read_back (Reducer.mkCNF 3 2 [[1; -2]; []; [3]])); reflexivity. Defined.

(** The three [CNFParser::parse] read any text the same way: the
    verifier and the solvers get the counts and clauses of the reducer's
    parse; no clause is empty and every literal is a non-zero [int]; the
    solvers store literal [lit] as [Lit(abs(lit), lit > 0)] and number the
    clauses 0, 1, 2, ... in file order. *)
Theorem cnf_parsers_agree (file : string) :
  let F := ReducerIO.CNFParser_parse file in
  VerifierIO.CNFParser_parse file =
    Verifier.mkInstance (Reducer.numVars F) (Reducer.numClauses F) (Reducer.clauses F) /\
  SolverIO.CNFParser_parse file = (Solver.parse_clauses 0 (Reducer.clauses F), Reducer.numVars F) /\
  Forall (fun c => c <> [] /\ Forall (fun l => l <> 0 /\ INT_MIN <= l <= INT_MAX) c)
    (Reducer.clauses F) /\
  map Solver.id (fst (SolverIO.CNFParser_parse file)) =
    seqZ 0 (Z.of_nat (List.length (Reducer.clauses F))).
Proof.
  cbv zeta. rewrite reducer_parse_dimacs, verifier_parse_dimacs, solver_parse_dimacs.
  pose proof (dimacs_ok file) as Hok.
  destruct (dimacs file) as [[nv nc] ls]. simpl in Hok |- *.
  split; [done|]. split; [done|]. split.
  - eapply Forall_impl; [exact Hok|]. intros c Hc.
    apply andb_true_iff in Hc as [Hne Hc]. split; [by destruct c|].
    apply List.Forall_forall. intros l Hl. eapply forallb_forall in Hc; [|exact Hl].
    unfold lit_ok in Hc. apply andb_true_iff in Hc as [H0 Hi].
    apply in_int_spec in Hi. split; [|done]. intros ->. discriminate.
  - apply parse_clauses_ids. eapply Forall_impl; [exact Hok|]. intros c Hc.
    apply andb_true_iff in Hc as [Hne _]. by destruct c.
Qed.

End IOExtras.

Module SolutionFacts.
Import String Ascii TextIO TextIOFacts DimacsFacts Verifier.

Lemma read_v_line_length (lits : list Z) : forall s : Solution,
  List.length (assignment (read_v_line lits s)) = List.length (assignment s).
Proof.
  induction lits as [|l lits IH]; intros s; [done|]. simpl.
  destruct (l =? 0); [done|]. rewrite IH. apply VerifierFacts.setLiteral_length.
Qed.

Lemma solution_line_none_iff (s : Solution) (line : string) :
  VerifierIO.solution_line (Some s) line = None <-> line = "v"%string.
Proof.
  unfold VerifierIO.solution_line. destruct line as [|c r]; [split; discriminate|].
  destruct (Ascii.eqb_spec c "c"%char) as [->|Hc]; [split; intros H; inversion H|].
  destruct (Ascii.eqb_spec c "v"%char) as [->|Hv].
  - destruct r as [|c2 r]; [done|]. split; intros H; inversion H.
  - split; intros H; inversion H. congruence.
Qed.

Lemma solution_line_length (s s' : Solution) (line : string) :
  VerifierIO.solution_line (Some s) line = Some s' ->
  List.length (assignment s') = List.length (assignment s).
Proof.
  unfold VerifierIO.solution_line. intros H.
  destruct line as [|c r]; [by injection H as <-|].
  destruct (Ascii.eqb c "c"%char); [by injection H as <-|].
  destruct (Ascii.eqb c "v"%char); [|by injection H as <-].
  destruct (ReducerIO.substr 2 (String c r)); [|discriminate].
  injection H as <-. apply read_v_line_length.
Qed.

Lemma fold_solution_none (ls : list string) :
  fold_left VerifierIO.solution_line ls None = None.
Proof. induction ls; done. Qed.

Lemma fold_solution_throws (ls : list string) : forall s : Solution,
  fold_left VerifierIO.solution_line ls (Some s) = None <-> In "v"%string ls.
Proof.
  induction ls as [|l ls IH]; intros s; [split; [discriminate|done]|].
  cbn [fold_left In]. destruct (VerifierIO.solution_line (Some s) l) as [s'|] eqn:E.
  - rewrite IH. assert (l <> "v"%string) by (intros Hl; apply (solution_line_none_iff s) in Hl; congruence).
    split; [tauto|]. intros [Hl|Hl]; [congruence|done].
  - rewrite fold_solution_none. apply solution_line_none_iff in E. tauto.
Qed.

Lemma Solution_init_length (N : Z) :
  -1 <= N -> Z.of_nat (List.length (assignment (Solution_init N))) = N + 1.
Proof. intros HN. cbn [assignment Solution_init]. rewrite repeat_length. lia. Qed.

(** For an [int] [N], the constructor throws exactly when [N <= -2] or
    [N = INT_MAX]. *)
Lemma Solution_new_spec (N : Z) :
  in_int N = true ->
  Solution_new N = if (N <=? -2) || (N =? INT_MAX) then None else Some (Solution_init N).
Proof.
  intros HN. apply in_int_spec in HN. unfold Solution_new, resize_fails.
  destruct (Z.eq_dec N INT_MAX) as [->|Hne].
  - reflexivity.
  - rewrite wrap32_id by (apply in_int_spec; unfold INT_MIN, INT_MAX in *; lia).
    destruct (Z.ltb_spec (N + 1) 0), (Z.leb_spec N (-2)), (Z.eqb_spec N INT_MAX);
      cbn [orb]; first [reflexivity | lia].
Qed.

End SolutionFacts.

Module ConvertFacts.
Import String Ascii TextIO TextIOFacts DimacsFacts Verifier SolutionFacts.

(** The lines written by [convertSolution] for one input line. *)
Definition conv_out (N : Z) (line : string) : option (list string) :=
  match line with
  | EmptyString => Some [line]
  | String c _ =>
      if Ascii.eqb c "c"%char then Some [line]
      else if Ascii.eqb c "v"%char then
        match ReducerIO.substr 2 line with
        | None => None
        | Some rest =>
            Some [("v " ++ ReducerIO.show_lits
                     (List.filter (fun lit => Z.leb (Z.abs lit) N) (line_lits rest)) ++ "0")%string]
        end
      else Some []
  end.

Fixpoint conv_all (N : Z) (ls : list string) : option (list string) :=
  match ls with
  | [] => Some []
  | l :: ls' =>
      match conv_out N l, conv_all N ls' with
      | Some a, Some b => Some (a ++ b)
      | _, _ => None
      end
  end.

Lemma unlines_app (a b : list string) :
  ReducerIO.unlines (a ++ b) = (ReducerIO.unlines a ++ ReducerIO.unlines b)%string.
Proof.
  induction a as [|x a IH]; cbn [ReducerIO.unlines app]; [by rewrite str_app_nil|].
  rewrite IH, !str_app_assoc. done.
Qed.

Lemma convert_line_out (N : Z) (line : string) :
  ReducerIO.convert_line N line = option_map ReducerIO.unlines (conv_out N line).
Proof.
  unfold ReducerIO.convert_line, conv_out.
  destruct line as [|c r]; [cbn [option_map ReducerIO.unlines]; by rewrite str_app_nil_r|].
  destruct (Ascii.eqb c "c"%char); [cbn [option_map ReducerIO.unlines]; by rewrite str_app_nil_r|].
  destruct (Ascii.eqb c "v"%char); [|done].
  destruct (ReducerIO.substr 2 (String c r)); [|done]. cbn [option_map ReducerIO.unlines].
  rewrite str_app_nil_r, !str_app_assoc. done.
Qed.

Lemma convert_lines_all (N : Z) (ls : list string) :
  ReducerIO.convert_lines N ls = option_map ReducerIO.unlines (conv_all N ls).
Proof.
  induction ls as [|l ls IH]; [done|]. cbn [ReducerIO.convert_lines conv_all].
  rewrite convert_line_out, IH.
  destruct (conv_out N l), (conv_all N ls); cbn [option_map]; try done.
  by rewrite unlines_app.
Qed.

Lemma conv_out_no_nl (N : Z) (line : string) (o : list string) :
  has_nl line = false -> conv_out N line = Some o -> Forall (fun l => has_nl l = false) o.
Proof.
  intros Hl. unfold conv_out. destruct line as [|c r]; [intros [= <-]; by constructor|].
  destruct (Ascii.eqb c "c"%char); [intros [= <-]; by constructor|].
  destruct (Ascii.eqb c "v"%char); [|intros [= <-]; constructor].
  destruct (ReducerIO.substr 2 (String c r)); [|discriminate]. intros [= <-].
  constructor; [|constructor]. rewrite !has_nl_app, show_lits_no_nl. done.
Qed.

Lemma conv_all_no_nl (N : Z) (ls : list string) (o : list string) :
  Forall (fun l => has_nl l = false) ls -> conv_all N ls = Some o ->
  Forall (fun l => has_nl l = false) o.
Proof.
  intros H. revert o. induction H as [|l ls Hl _ IH]; intros o; cbn [conv_all]; [intros [= <-]; constructor|].
  destruct (conv_out N l) as [a|] eqn:Ea; [|discriminate].
  destruct (conv_all N ls) as [b|]; [|discriminate]. intros [= <-].
  apply Forall_app. split; [by eapply conv_out_no_nl|by apply IH].
Qed.

Lemma forallb_filter {A} (f p : A -> bool) (l : list A) :
  forallb f l = true -> forallb f (List.filter p l) = true.
Proof.
  induction l as [|x l IH]; [done|]. cbn [forallb List.filter].
  intros [Hx Hl]%andb_true_iff. destruct (p x); cbn [forallb]; rewrite ?Hx, IH; done.
Qed.

Lemma conv_out_read (N : Z) (line : string) (s : Solution) :
  0 <= N -> Z.of_nat (List.length (assignment s)) = N + 1 ->
  match conv_out N line with
  | None => VerifierIO.solution_line (Some s) line = None
  | Some o => fold_left VerifierIO.solution_line o (Some s) = VerifierIO.solution_line (Some s) line
  end.
Proof.
  intros HN Hs. unfold conv_out. destruct line as [|c r]; [done|].
  destruct (Ascii.eqb c "c"%char) eqn:Ec; [done|].
  destruct (Ascii.eqb c "v"%char) eqn:Ev.
  - assert (Hv : VerifierIO.solution_line (Some s) (String c r) =
      match ReducerIO.substr 2 (String c r) with
      | None => None
      | Some rest => Some (read_v_line (line_lits rest) s)
      end) by (unfold VerifierIO.solution_line; rewrite Ec, Ev; done).
    rewrite Hv. destruct (ReducerIO.substr 2 (String c r)) as [rest|]; [|done]. cbn [fold_left].
    set (k := List.filter (fun lit => Z.leb (Z.abs lit) N) (line_lits rest)).
    set (X := (ReducerIO.show_lits k ++ "0")%string).
    assert (E : VerifierIO.solution_line (Some s) ("v " ++ X)%string =
                Some (read_v_line (line_lits X) s)) by reflexivity.
    rewrite E. subst X. rewrite line_lits_show by (apply forallb_filter, line_lits_ok).
    subst k. rewrite <- VerifierFacts.read_v_line_filter by done. done.
  - cbn [fold_left]. unfold VerifierIO.solution_line. rewrite Ec, Ev. done.
Qed.

Lemma conv_all_read (N : Z) (ls : list string) : 0 <= N -> forall s : Solution,
  Z.of_nat (List.length (assignment s)) = N + 1 ->
  match conv_all N ls with
  | None => fold_left VerifierIO.solution_line ls (Some s) = None
  | Some o => fold_left VerifierIO.solution_line o (Some s) =
              fold_left VerifierIO.solution_line ls (Some s)
  end.
Proof.
  intros HN. induction ls as [|l ls IH]; intros s Hs; [done|]. cbn [conv_all fold_left].
  pose proof (conv_out_read N l s HN Hs) as Hl.
  destruct (VerifierIO.solution_line (Some s) l) as [s'|] eqn:Esl.
  - assert (Hs' : Z.of_nat (List.length (assignment s')) = N + 1)
      by (rewrite (solution_line_length s s' l Esl); done).
    specialize (IH s' Hs').
    destruct (conv_out N l) as [o|]; [|discriminate].
    destruct (conv_all N ls) as [os|]; [|exact IH].
    rewrite fold_left_app, Hl. exact IH.
  - rewrite fold_solution_none. destruct (conv_out N l) as [o|]; [|done].
    destruct (conv_all N ls); [|done]. rewrite fold_left_app, Hl, fold_solution_none. done.
Qed.

End ConvertFacts.

Module SaveFacts.
Import String Ascii TextIO TextIOFacts DimacsFacts SolutionFacts.

Lemma pad3_no_nl (n : Z) : 0 <= n < 1000 -> has_nl (SolverIO.pad3 n) = false.
Proof.
  intros Hn. unfold SolverIO.pad3. cbn [has_nl].
  assert (0 <= n / 100 < 10) by (split; [apply Z.div_pos|apply Z.div_lt_upper_bound]; lia).
  pose proof (Z.mod_pos_bound (n / 10) 10 ltac:(lia)).
  pose proof (Z.mod_pos_bound n 10 ltac:(lia)).
  rewrite !digit_char_not_nl by lia. done.
Qed.

Lemma show_fixed3_no_nl (t : float) : has_nl (SolverIO.show_fixed3 t) = false.
Proof.
  unfold SolverIO.show_fixed3. destruct (Prim2SF t) as [s|s| |s m e]; try (destruct s; reflexivity).
  - reflexivity.
  - rewrite !has_nl_app, show_nonneg_no_nl, pad3_no_nl by (apply Z.mod_pos_bound; lia).
    destruct s; reflexivity.
Qed.

Lemma read_int_in_int (st : istream) (n : Z) :
  in_int n = true -> in_int (read_int st n).2 = true.
Proof.
  intros Hn. unfold read_int. repeat case_match; simplify_eq/=; try done;
    rewrite ?Z.ltb_ge in *; apply in_int_spec; unfold INT_MIN, INT_MAX in *; lia.
Qed.

Lemma read_header_in_int (line : string) (x y : Z) :
  in_int x = true -> in_int (read_header line x y).1 = true.
Proof.
  intros Hx. unfold read_header.
  pose proof (read_int_in_int (read_word (read_word (Some line))) x Hx) as H.
  destruct (read_int _ x) as [st nv]. destruct (read_int st y). exact H.
Qed.

Lemma dimacs_numVars_int (file : string) : in_int (dimacs file).1.1 = true.
Proof.
  unfold dimacs. assert (H : in_int (0, 0, @nil (list Z)).1.1 = true) by reflexivity.
  revert H. generalize (0, 0, @nil (list Z)).
  induction (getlines file) as [|line ls IH]; intros [[nv nc] cs] H; [done|].
  apply IH. cbn in H. unfold dimacs_step. destruct line as [|c r]; [done|].
  destruct (Ascii.eqb c "c"%char); [done|].
  destruct (Ascii.eqb c "p"%char).
  - pose proof (read_header_in_int (String c r) nv nc H) as Hr.
    destruct (read_header (String c r) nv nc). exact Hr.
  - destruct (line_lits (String c r)); done.
Qed.

(** The value the verifier reads back for variable [j] of a saved
    assignment. *)
Definition saved_value (a : Solver.Assignment) (j : Z) : Z :=
  if Solver.contains a j then (if Solver.getValue a j then 1 else 0) else -1.

Lemma solution_line_lits_ok (a : Solver.Assignment) (N : Z) :
  N <= INT_MAX -> forallb lit_ok (Solver.solution_line a N) = true.
Proof.
  intros HN. apply forallb_forall. intros x Hx. unfold Solver.solution_line in Hx.
  apply List.in_concat in Hx as (l & Hl & Hx). apply List.in_map_iff in Hl as (k & <- & Hk).
  apply List.in_seq in Hk.
  destruct (Solver.contains a (Z.of_nat k)); [|destruct Hx]. destruct Hx as [<-|[]].
  unfold lit_ok, in_int, INT_MIN, INT_MAX in *.
  destruct (Solver.getValue a (Z.of_nat k)); apply andb_true_iff;
    (split; [apply negb_true_iff, Z.eqb_neq; lia|apply andb_true_iff; split; apply Z.leb_le; lia]).
Qed.

Lemma read_v_line_app (x y : list Z) (s : Verifier.Solution) :
  Forall (fun l => l <> 0) x ->
  Verifier.read_v_line (x ++ y) s = Verifier.read_v_line y (Verifier.read_v_line x s).
Proof.
  intros H. revert s. induction H as [|l x Hl _ IH]; intros s; [done|].
  cbn [app Verifier.read_v_line]. destruct (Z.eqb_spec l 0); [contradiction|]. apply IH.
Qed.

Lemma read_one (a : Solver.Assignment) (k : nat) (s : Verifier.Solution) :
  (1 <= k)%nat -> (k < List.length (Verifier.assignment s))%nat ->
  Verifier.assignment (Verifier.read_v_line
    (let i := Z.of_nat k in
     if Solver.contains a i then [if Solver.getValue a i then i else - i] else []) s) =
  if Solver.contains a (Z.of_nat k)
  then <[k := if Solver.getValue a (Z.of_nat k) then 1 else 0]> (Verifier.assignment s)
  else Verifier.assignment s.
Proof.
  intros H1 Hk. cbv zeta. destruct (Solver.contains a (Z.of_nat k)); [|done].
  destruct (Solver.getValue a (Z.of_nat k)); cbn [Verifier.read_v_line].
  - replace (Z.of_nat k =? 0) with false by (symmetry; apply Z.eqb_neq; lia).
    unfold Verifier.setLiteral. rewrite Z.abs_eq by lia.
    replace ((0 <=? Z.of_nat k) && (Z.of_nat k <? Z.of_nat (List.length (Verifier.assignment s))))
      with true by (symmetry; apply andb_true_iff; split; [apply Z.leb_le|apply Z.ltb_lt]; lia).
    replace (0 <? Z.of_nat k) with true by (symmetry; apply Z.ltb_lt; lia).
    cbn [Verifier.assignment]. rewrite Nat2Z.id. done.
  - replace (- Z.of_nat k =? 0) with false by (symmetry; apply Z.eqb_neq; lia).
    unfold Verifier.setLiteral. rewrite Z.abs_opp, Z.abs_eq by lia.
    replace ((0 <=? Z.of_nat k) && (Z.of_nat k <? Z.of_nat (List.length (Verifier.assignment s))))
      with true by (symmetry; apply andb_true_iff; split; [apply Z.leb_le|apply Z.ltb_lt]; lia).
    replace (0 <? - Z.of_nat k) with false by (symmetry; apply Z.ltb_ge; lia).
    cbn [Verifier.assignment]. rewrite Nat2Z.id. done.
Qed.

Lemma read_saved (a : Solver.Assignment) (m : nat) : forall (k : nat) (s : Verifier.Solution),
  (1 <= k)%nat -> (k + m <= List.length (Verifier.assignment s))%nat ->
  let s' := Verifier.read_v_line (List.concat (map (fun k : nat =>
      let i := Z.of_nat k in
      if Solver.contains a i then [if Solver.getValue a i then i else - i] else [])
      (seq k m))) s in
  List.length (Verifier.assignment s') = List.length (Verifier.assignment s) /\
  forall j : nat, Verifier.assignment s' !! j =
    if decide (k <= j < k + m)%nat then
      (if Solver.contains a (Z.of_nat j)
       then Some (if Solver.getValue a (Z.of_nat j) then 1 else 0)
       else Verifier.assignment s !! j)
    else Verifier.assignment s !! j.
Proof.
  induction m as [|m IH]; intros k s Hk Hl; cbv zeta.
  - split; [done|]. intros j. cbn. case_decide; [lia|done].
  - cbn [seq map List.concat]. rewrite read_v_line_app.
    2:{ destruct (Solver.contains a (Z.of_nat k)); [|constructor].
        destruct (Solver.getValue a (Z.of_nat k)); constructor; [lia|constructor|lia|constructor]. }
    set (s1 := Verifier.read_v_line _ s).
    assert (Hs1 : Verifier.assignment s1 =
      if Solver.contains a (Z.of_nat k)
      then <[k := if Solver.getValue a (Z.of_nat k) then 1 else 0]> (Verifier.assignment s)
      else Verifier.assignment s) by (apply read_one; lia).
    assert (Hl1 : List.length (Verifier.assignment s1) = List.length (Verifier.assignment s))
      by (rewrite Hs1; destruct (Solver.contains _ _); [apply length_insert|done]).
    destruct (IH (S k) s1 ltac:(lia) ltac:(lia)) as [IHl IHj]. cbv zeta in IHl, IHj.
    split; [by rewrite IHl|].
    intros j. rewrite IHj, Hs1.
    destruct (decide (k = j)) as [<-|Hne].
    + destruct (decide (S k <= k < S k + m)%nat); [lia|].
      destruct (decide (k <= k < k + S m)%nat); [|lia].
      destruct (Solver.contains a (Z.of_nat k)); [|done].
      apply list_lookup_insert_eq. lia.
    + assert (Hj : forall x, <[k := x]> (Verifier.assignment s) !! j = Verifier.assignment s !! j)
        by (intros x; apply list_lookup_insert_ne; done).
      destruct (decide (S k <= j < S k + m)%nat), (decide (k <= j < k + S m)%nat); try lia;
        destruct (Solver.contains a (Z.of_nat k)); rewrite ?Hj; done.
Qed.

Lemma repeat_lookup (x : Z) (n j : nat) : (j < n)%nat -> repeat x n !! j = Some x.
Proof. revert j. induction n as [|n IH]; intros [|j] Hj; cbn; try lia; [done|]. apply IH. lia. Qed.

Lemma saved_assignment (a : Solver.Assignment) (N : Z) :
  Z.of_nat (List.length (Solver.values a)) = N + 1 ->
  let s := Verifier.read_v_line (Solver.solution_line a N) (Verifier.Solution_init N) in
  Z.of_nat (List.length (Verifier.assignment s)) = N + 1 /\
  forall v, 1 <= v <= N -> Verifier.at_ (Verifier.assignment s) v = saved_value a v.
Proof.
  intros Ha. cbv zeta. destruct (Z.eq_dec N (-1)) as [->|HN].
  - split; [reflexivity|]. lia.
  - unfold Solver.solution_line.
    destruct (read_saved a (Z.to_nat N) 1 (Verifier.Solution_init N) ltac:(lia)) as [Hl Hj].
    { cbn [Verifier.assignment Verifier.Solution_init]. rewrite repeat_length. lia. }
    cbv zeta in Hl, Hj.
    split; [rewrite Hl; apply Solution_init_length; lia|].
    intros v Hv. unfold Verifier.at_. rewrite nth_lookup, Hj.
    destruct (decide (1 <= Z.to_nat v < 1 + Z.to_nat N)%nat); [|lia].
    rewrite Z2Nat.id by lia. unfold saved_value.
    destruct (Solver.contains a v); [done|].
    cbn [Verifier.assignment Verifier.Solution_init]. rewrite repeat_lookup by lia. done.
Qed.

Lemma clause_equiv (a : Solver.Assignment) (N : Z) (asg : list Z) (c : list Z) (cid : Z) :
  Z.of_nat (List.length asg) = N + 1 -> Z.of_nat (List.length (Solver.values a)) = N + 1 ->
  (forall v, 1 <= v <= N -> Verifier.at_ asg v = saved_value a v) ->
  forallb lit_ok c = true ->
  Verifier.isSatisfied c asg =
  CDCL2.isSatisfied (Solver.mkClause (map (fun lit => Solver.mkLit (Z.abs lit) (0 <? lit)) c) cid)
    (Solver.values a).
Proof.
  intros Hl Ha Hv. unfold CDCL2.isSatisfied. cbn [Solver.literals].
  induction c as [|l c IH]; [done|]. cbn [forallb]. intros [Hok Hc]%andb_true_iff.
  cbn [Verifier.isSatisfied map existsb Solver.var Solver.sign]. rewrite <- (IH Hc).
  unfold lit_ok in Hok. apply andb_true_iff in Hok as [H0 _]. apply negb_true_iff, Z.eqb_neq in H0.
  rewrite Hl, Ha. replace (0 <=? Z.abs l) with true by (symmetry; apply Z.leb_le; lia).
  destruct (Z.ltb_spec (Z.abs l) (N + 1)) as [Hlt|Hge].
  - rewrite Hv by lia. unfold saved_value, Solver.contains, Solver.in_range, Solver.getValue.
    rewrite Ha. replace (0 <? Z.abs l) with true by (symmetry; apply Z.ltb_lt; lia).
    replace (Z.abs l <? N + 1) with true by (symmetry; apply Z.ltb_lt; lia). cbn [andb].
    unfold Verifier.at_, Solver.at_.
    destruct (nth (Z.to_nat (Z.abs l)) (Solver.values a) 0 =? -1),
      (nth (Z.to_nat (Z.abs l)) (Solver.values a) 0 =? 1), (0 <? l); reflexivity.
  - cbn [andb orb]. done.
Qed.

Lemma verify_parse_clauses (v : list Z) (k : Z) (ls : list (list Z)) :
  Forall (fun c => c <> []) ls ->
  forallb (fun c => CDCL2.isSatisfied c v) (Solver.parse_clauses k ls) =
  forallb (fun c => CDCL2.isSatisfied
    (Solver.mkClause (map (fun lit => Solver.mkLit (Z.abs lit) (0 <? lit)) c) 0) v) ls.
Proof.
  intros H. revert k. induction H as [|c ls Hc _ IH]; intros k; [done|].
  destruct c as [|x c]; [contradiction|]. cbn [Solver.parse_clauses map forallb].
  rewrite IH. done.
Qed.

Lemma fold_save (a : Solver.Assignment) (N : Z) (name : string) (t : float) (nodes : Z)
    (s : Verifier.Solution) :
  has_nl name = false -> N <= INT_MAX ->
  fold_left VerifierIO.solution_line (getlines (SolverIO.saveSolutionToFile a N name t nodes)) (Some s) =
  Some (Verifier.read_v_line (Solver.solution_line a N) s).
Proof.
  intros Hn HN. unfold SolverIO.saveSolutionToFile.
  rewrite getlines_unlines.
  2:{ repeat constructor; rewrite ?has_nl_app, ?Hn, ?show_fixed3_no_nl, ?show_Z_no_nl,
        ?show_lits_no_nl; reflexivity. }
  set (L := Solver.solution_line a N).
  assert (E : fold_left VerifierIO.solution_line
      ["c Solution pour " ++ name; "c Temps: " ++ SolverIO.show_fixed3 t ++ "s";
       "c Noeuds: " ++ show_Z nodes; "v " ++ ReducerIO.show_lits L ++ "0"]%string (Some s) =
      Some (Verifier.read_v_line (line_lits (ReducerIO.show_lits L ++ "0")) s)) by reflexivity.
  rewrite E, line_lits_show by (apply solution_line_lits_ok; exact HN). done.
Qed.

(** The verifier's verdict on a [.sol] file written by
    [saveSolutionToFile] from the solvers' parse of the same [.cnf]
    file. *)
Lemma save_verdict (cnf name : string) (a : Solver.Assignment) (cls : list Solver.Clause)
    (N : Z) (t : float) (nodes : Z) :
  SolverIO.CNFParser_parse cnf = (cls, N) -> N < INT_MAX ->
  Z.of_nat (List.length (Solver.values a)) = N + 1 -> has_nl name = false ->
  VerifierIO.main_verdict cnf (SolverIO.saveSolutionToFile a N name t nodes) =
    Some (CDCL2.verifySolution a cls).
Proof.
  intros Hp HN Ha Hn. rewrite solver_parse_dimacs in Hp. unfold VerifierIO.main_verdict.
  rewrite verifier_parse_dimacs. pose proof (dimacs_ok cnf) as Hok.
  pose proof (dimacs_numVars_int cnf) as Hint.
  destruct (dimacs cnf) as [[nv nc] ls]. injection Hp as <- <-. cbn [Verifier.inumVars fst] in *.
  unfold VerifierIO.SolutionParser_parse, Verifier.Solution_new.
  rewrite resize_ok by lia.
  rewrite fold_save by (done || lia).
  f_equal. rewrite VerifierFacts.verify_verdict. cbn [Verifier.iclauses].
  unfold CDCL2.verifySolution. rewrite verify_parse_clauses.
  2:{ eapply Forall_impl; [exact Hok|]. intros c Hc. apply andb_true_iff in Hc as [Hc _].
      by destruct c. }
  destruct (saved_assignment a nv Ha) as [Hl Hv].
  unfold lines_ok in Hok. cbn [snd] in Hok. induction Hok as [|c ls' Hc _ IH]; [done|].
  cbn [forallb]. rewrite IH. apply andb_true_iff in Hc as [_ Hc].
  erewrite clause_equiv; [reflexivity|exact Hl|exact Ha|exact Hv|exact Hc].
Qed.

End SaveFacts.

Module SolutionExtras.
Import String Ascii TextIO TextIOFacts DimacsFacts SolutionFacts ConvertFacts SaveFacts.
Import Solver SolverFacts.

(** [SolutionParser::parse] throws exactly when the [Solution]
    constructor throws ([std::length_error] from [resize(vars + 1)], for
    [numVars <= -2] or [numVars = INT_MAX]) or some line of the file is
    the single character [v] ([std::out_of_range] from [line.substr(2)]);
    every other line is read or skipped. *)
Theorem solution_parser_throws (file : string) (numVars : Z) :
  in_int numVars = true ->
  (VerifierIO.SolutionParser_parse file numVars = None <->
   numVars <= -2 \/ numVars = INT_MAX \/ In "v"%string (getlines file)).
Proof.
  intros Hi. unfold VerifierIO.SolutionParser_parse. rewrite Solution_new_spec by exact Hi.
  destruct (Z.leb_spec numVars (-2)), (Z.eqb_spec numVars INT_MAX); cbn [orb].
  1-3: rewrite fold_solution_none; split; [intros _; tauto|done].
  rewrite fold_solution_throws. split; [tauto|]. intros [?|[?|?]]; [lia|lia|done].
Qed.

Lemma solution_parser_throws_witness :
  in_int 2 = true /\
  (VerifierIO.SolutionParser_parse ("c x" ++ nl ++ "v" ++ nl)%string 2 = None <->
   2 <= -2 \/ 2 = INT_MAX \/ In "v"%string (getlines ("c x" ++ nl ++ "v" ++ nl)%string)).
Proof.
  split; [vm_compute; reflexivity|].
  apply (solution_parser_throws ("c x" ++ nl ++ "v" ++ nl)%string 2). vm_compute. reflexivity.
Defined.

(** [SolutionConverter::convertSolution] keeps what the verifier reads
    for the original variables: for [originalVars >= 0], reading the
    converted file with [SolutionParser::parse(_, originalVars)] gives the
    same solution as reading the 3-SAT solution itself; when the
    conversion throws, so does the parser on the 3-SAT solution. *)
Theorem convert_solution_reads_same (text : string) (N : Z) :
  0 <= N ->
  match ReducerIO.convertSolution text N with
  | Some out => VerifierIO.SolutionParser_parse out N = VerifierIO.SolutionParser_parse text N
  | None => VerifierIO.SolutionParser_parse text N = None
  end.
Proof.
  intros HN. unfold ReducerIO.convertSolution, VerifierIO.SolutionParser_parse.
  rewrite convert_lines_all.
  pose proof (conv_all_no_nl N (getlines text)) as Hnl.
  destruct (Verifier.Solution_new N) as [s0|] eqn:Es.
  - assert (Hs0 : Z.of_nat (List.length (Verifier.assignment s0)) = N + 1).
    { unfold Verifier.Solution_new in Es. destruct (resize_fails (N + 1)); [discriminate|].
      injection Es as <-. apply Solution_init_length. lia. }
    pose proof (conv_all_read N (getlines text) HN s0 Hs0) as H.
    destruct (conv_all N (getlines text)) as [o|]; cbn [option_map]; [|exact H].
    rewrite getlines_unlines; [exact H|]. apply Hnl; [apply getlines_no_nl|done].
  - destruct (conv_all N (getlines text)) as [o|]; cbn [option_map];
      rewrite ?fold_solution_none; reflexivity.
Qed.

Lemma convert_solution_reads_same_witness :
  let text := ("c s" ++ nl ++ "v 1 -5 -2 0" ++ nl ++ "s SAT" ++ nl)%string in
  0 <= 2 /\
  match ReducerIO.convertSolution text 2 with
  | Some out => VerifierIO.SolutionParser_parse out 2 = VerifierIO.SolutionParser_parse text 2
  | None => VerifierIO.SolutionParser_parse text 2 = None
  end.
Proof.
  intros text. split; [lia|]. apply (convert_solution_reads_same text 2). lia.
Defined.

(** The verifier accepts a [.sol] file written by [saveSolutionToFile]
    exactly when the saved assignment passes the solvers'
    [Assignment::verifySolution] on the clauses of the same [.cnf] file:
    its clauses and [numVars] are those the solvers' [CNFParser::parse]
    returned, [numVars < INT_MAX] (at [INT_MAX] the verifier's [Solution]
    constructor throws), the assignment has [numVars + 1] entries, and the
    file name is one line. *)
Theorem saved_solution_verdict (cnf name : string) (a : Assignment) (cls : list Clause)
    (N : Z) (time : float) (nodes : Z) :
  SolverIO.CNFParser_parse cnf = (cls, N) -> N < INT_MAX ->
  Z.of_nat (List.length (values a)) = N + 1 -> has_nl name = false ->
  VerifierIO.main_verdict cnf (SolverIO.saveSolutionToFile a N name time nodes) =
    Some (CDCL2.verifySolution a cls).
Proof. apply save_verdict. Qed.

Lemma saved_solution_verdict_witness :
  let cnf := ("p cnf 2 2" ++ nl ++ "1 2 0" ++ nl ++ "-1 0" ++ nl)%string in
  SolverIO.CNFParser_parse cnf = (parse_clauses 0 [[1; 2]; [-1]], 2) /\ 2 < INT_MAX /\
  Z.of_nat (List.length (values (mkAsg [-1; 1; 1] [1; 2]))) = 2 + 1 /\
  has_nl "f.cnf" = false /\
  VerifierIO.main_verdict cnf
    (SolverIO.saveSolutionToFile (mkAsg [-1; 1; 1] [1; 2]) 2 "f.cnf" 0.25%float 7) =
    Some (CDCL2.verifySolution (mkAsg [-1; 1; 1] [1; 2]) (parse_clauses 0 [[1; 2]; [-1]])).
Proof.
  intros cnf.
  assert (E : SolverIO.CNFParser_parse cnf = (parse_clauses 0 [[1; 2]; [-1]], 2))
    by (vm_compute; reflexivity).
  split; [exact E|]. split; [unfold INT_MAX; lia|]. split; [reflexivity|]. split; [reflexivity|].
  exact (saved_solution_verdict cnf "f.cnf" (mkAsg [-1; 1; 1] [1; 2]) _ 2 0.25%float 7
           E ltac:(unfold INT_MAX; lia) eq_refl eq_refl).
Defined.

(** End to end in SATSOLverOPtimsed2.cpp: when [FastCDCLSolver::solve]
    answers SAT on the clauses of a [.cnf] file with [numVars >= 1], the
    [.sol] file written by [saveSolutionToFile] is accepted by the
    verifier run on the same [.cnf] file. *)
Theorem cdcl_sat_saved_verified (e : Z -> bool) (cnf name : string) (cls : list Clause)
    (N : Z) (a : Assignment) (s_end : St) (time : float) (nodes : Z) :
  SolverIO.CNFParser_parse cnf = (cls, N) -> 1 <= N ->
  CDCL2.solve e cls N = Ok (true, a) s_end -> has_nl name = false ->
  VerifierIO.main_verdict cnf (SolverIO.saveSolutionToFile a N name time nodes) = Some true.
Proof.
  intros Hp HN Hs Hn.
  destruct (CDCL2Facts.solve_ok_loop2 e cls N _ _ Hs) as [Hs' Hr].
  assert (Hmax : N < INT_MAX).
  { assert (Hi : in_int N = true).
    { pose proof (dimacs_numVars_int cnf) as Hi. rewrite solver_parse_dimacs in Hp.
      destruct (dimacs cnf) as [[nv nc] ls]. injection Hp as _ <-. exact Hi. }
    apply (resize_succ_ok N Hi) in Hr. lia. }
  destruct (CDCLSat.solve_loop_true2 e cls N _ HN 0 0 _ a s_end
              (CDCL2Facts.reach_init e cls N) Hs') as ([_ Hl] & -> & Hv & _).
  rewrite (save_verdict cnf name (asg s_end) cls N time nodes Hp Hmax Hl Hn), Hv. done.
Qed.

Lemma cdcl_sat_saved_verified_witness :
  let cnf := ("p cnf 1 1" ++ nl ++ "1 0" ++ nl)%string in
  SolverIO.CNFParser_parse cnf = (parse_clauses 0 [[1]], 1) /\ 1 <= 1 /\
  CDCL2.solve CDCL1Facts.never (parse_clauses 0 [[1]]) 1 =
    Ok (true, mkAsg [-1; 1] [1]) (mkSt (mkAsg [-1; 1] [1]) [0%float; 1%float] 1%float 3) /\
  has_nl "f.cnf" = false /\
  VerifierIO.main_verdict cnf
    (SolverIO.saveSolutionToFile (mkAsg [-1; 1] [1]) 1 "f.cnf" 0.5%float 3) = Some true.
Proof.
  intros cnf.
  assert (E1 : SolverIO.CNFParser_parse cnf = (parse_clauses 0 [[1]], 1))
    by (vm_compute; reflexivity).
  assert (E2 : CDCL2.solve CDCL1Facts.never (parse_clauses 0 [[1]]) 1 =
    Ok (true, mkAsg [-1; 1] [1]) (mkSt (mkAsg [-1; 1] [1]) [0%float; 1%float] 1%float 3))
    by (vm_compute; reflexivity).
  split; [exact E1|]. split; [lia|]. split; [exact E2|]. split; [reflexivity|].
  exact (cdcl_sat_saved_verified CDCL1Facts.never cnf "f.cnf" _ 1 _ _ 0.5%float 3
           E1 ltac:(lia) E2 eq_refl).
Defined.

End SolutionExtras.

Module ReducerPipelineFacts.
Import String Ascii TextIO TextIOFacts DimacsFacts Reducer ReducerFacts.

Lemma forall_forallb (f : Z -> bool) (cs : list (list Z)) :
  Forall (Forall (fun l => f l = true)) cs -> forallb (forallb f) cs = true.
Proof.
  induction 1 as [|c cs Hc _ IH]; [done|]. cbn [forallb]. rewrite IH, andb_true_r.
  induction Hc as [|l c Hl _ IHc]; [done|]. cbn [forallb]. rewrite Hl, IHc. done.
Qed.

Lemma filter_nonempty_len3 (cs : list Clause) :
  Forall (fun c : Clause => List.length c = 3%nat) cs -> List.filter nonempty cs = cs.
Proof.
  induction 1 as [|c cs Hc _ IH]; [done|]. destruct c as [|x c]; [discriminate|].
  cbn. rewrite IH. done.
Qed.

(** Sum over the clauses of [spec_aux] minus the clauses written. *)
Lemma aux_minus_out (cs : list Clause) :
  aux_total cs -
  fold_right (fun c acc =>
    (if Nat.eqb (List.length c) 0 then 0 else spec_out (List.length c)) + acc) 0 cs =
  - Z.of_nat (List.length (List.filter nonempty cs)) - unit_clauses cs.
Proof.
  induction cs as [|c cs IH]; [done|]. rewrite unit_clauses_cons, aux_total_cons. cbn [fold_right].
  destruct c as [|x1 [|x2 [|x3 [|x4 xs]]]]; cbn [List.filter nonempty List.length];
    cbn [spec_aux spec_out Nat.eqb]; rewrite ?length_cons; lia.
Qed.

End ReducerPipelineFacts.

Module ReducerPipelineExtras.
Import String Ascii TextIO TextIOFacts DimacsFacts Reducer ReducerFacts ReducerPipelineFacts.

(** The reducer's pipeline [CNFParser::parse], [reduce], [CNFWriter::write]
    writes a file that the three [CNFParser::parse] read back as the
    reduced formula itself (counts and clauses), when the parsed [numVars]
    is non-negative and the reduced counts fit in an [int]. *)
Theorem reduced_file_read_back (file : string) :
  let F := ReducerIO.CNFParser_parse file in
  let R := fst (reduce F) in
  0 <= numVars F -> numVars R <= INT_MAX -> numClauses R <= INT_MAX ->
  ReducerIO.CNFParser_parse (ReducerIO.CNFWriter_write R) = R /\
  VerifierIO.CNFParser_parse (ReducerIO.CNFWriter_write R) =
    Verifier.mkInstance (numVars R) (numClauses R) (clauses R) /\
  SolverIO.CNFParser_parse (ReducerIO.CNFWriter_write R) =
    (Solver.parse_clauses 0 (clauses R), numVars R).
Proof.
  cbv zeta. intros HN HV HC.
  assert (Hok : lines_ok (clauses (ReducerIO.CNFParser_parse file))).
  { rewrite reducer_parse_dimacs. pose proof (dimacs_ok file) as H.
    destruct (dimacs file) as [[nv nc] ls]. exact H. }
  assert (Hint : in_int (numVars (ReducerIO.CNFParser_parse file)) = true).
  { rewrite reducer_parse_dimacs. pose proof (SaveFacts.dimacs_numVars_int file) as H.
    destruct (dimacs file) as [[nv nc] ls]. exact H. }
  revert HN HV HC Hok Hint. generalize (ReducerIO.CNFParser_parse file) as F. intros F HN HV HC Hok Hint.
  assert (Hlits : Forall (Forall (fun l => lit_ok l = true)) (clauses F)).
  { eapply Forall_impl; [exact Hok|]. intros c Hc. apply andb_true_iff in Hc as [_ Hc].
    apply List.Forall_forall. intros l Hl. eapply forallb_forall in Hc; [exact Hc|exact Hl]. }
  assert (Hne : Forall (fun c : Clause => c <> []) (clauses F)).
  { eapply Forall_impl; [exact Hok|]. intros c Hc. apply andb_true_iff in Hc as [Hc _].
    by destruct c. }
  assert (Hints : Forall (Forall (fun x => in_int x = true)) (clauses F)).
  { eapply Forall_impl; [exact Hlits|]. intros c Hc. eapply Forall_impl; [exact Hc|].
    intros l Hl. unfold lit_ok in Hl. apply andb_true_iff in Hl as [_ Hl]. exact Hl. }
  pose proof (reduce_loop_len3 (clauses F) (wrap32 (numVars F + 1))) as H3.
  pose proof (aux_le_out (clauses F) (wrap32 (numVars F + 1))) as Hle.
  pose proof (aux_total_nonneg (clauses F)) as Ha.
  pose proof (reduce_loop_lits (fun l => lit_ok l = true) (clauses F) (numVars F + 1)
                Hne Hints Hlits) as HL.
  pose proof Hint as HNr. apply in_int_spec in HNr.
  unfold reduce in HV, HC |- *. cbv zeta in HV, HC |- *. rewrite (wrap32_id _ Hint) in HV, HC |- *.
  destruct (reduce_loop (wrap32 (numVars F + 1)) (clauses F)) as [out n2].
  cbn [fst snd numVars numClauses clauses] in *.
  assert (Hok' : forallb (forallb lit_ok) out = true).
  { apply forall_forallb, HL. intros j Hj.
    destruct (wrap32_nonzero (numVars F + 1 + j)) as [Hz1 Hz2];
      [unfold INT_MIN, INT_MAX in *; lia|].
    unfold lit_ok. rewrite !wrap32_range.
    apply Z.eqb_neq in Hz1, Hz2. rewrite Hz1, Hz2. done. }
  rewrite reducer_parse_dimacs, verifier_parse_dimacs, solver_parse_dimacs.
  rewrite dimacs_write
    by (cbn; try exact Hok'; try apply wrap32_range; apply in_int_spec; unfold INT_MIN, INT_MAX in *; lia).
  cbn [numVars numClauses clauses]. rewrite filter_nonempty_len3 by exact H3. done.
Qed.

Lemma reduced_file_read_back_witness :
  let file := ("p cnf 2 2" ++ nl ++ "1 0" ++ nl ++ "c x" ++ nl ++ "1 -2 2 -1 0" ++ nl)%string in
  let F := ReducerIO.CNFParser_parse file in
  let R := fst (reduce F) in
  (0 <= numVars F /\ numVars R <= INT_MAX /\ numClauses R <= INT_MAX) /\
  ReducerIO.CNFParser_parse (ReducerIO.CNFWriter_write R) = R /\
  VerifierIO.CNFParser_parse (ReducerIO.CNFWriter_write R) =
    Verifier.mkInstance (numVars R) (numClauses R) (clauses R) /\
  SolverIO.CNFParser_parse (ReducerIO.CNFWriter_write R) =
    (Solver.parse_clauses 0 (clauses R), numVars R).
Proof.
  intros file F R.
  assert (H1 : 0 <= numVars F) by (vm_compute; discriminate).
  assert (H2 : numVars R <= INT_MAX) by (vm_compute; discriminate).
  assert (H3 : numClauses R <= INT_MAX) by (vm_compute; discriminate).
  split; [auto|]. exact (reduced_file_read_back file H1 H2 H3).
Defined.

(** Reading a DIMACS text never yields an empty clause, so the reducer
    keeps equisatisfiability on parsed input: when the parsed [numVars] is
    non-negative and bounds every variable, and [numVars] plus the number
    of auxiliary variables is at most [INT_MAX], the parsed formula and its
    reduction are equisatisfiable, and a model of the reduction restricted
    to [1..numVars] satisfies the parsed formula. *)
Theorem parsed_reduce_equisat (file : string) :
  let F := ReducerIO.CNFParser_parse file in
  0 <= numVars F ->
  forallb (forallb (fun l => Z.abs l <=? numVars F)) (clauses F) = true ->
  numVars F + aux_total (clauses F) <= INT_MAX ->
  (satisfiable (clauses F) <-> satisfiable (clauses (fst (reduce F)))) /\
  (forall a : Z -> bool, cnf_true a (clauses (fst (reduce F))) = true ->
     cnf_true (restrict (numVars F) a) (clauses F) = true).
Proof.
  cbv zeta. intros HN Hb Hmax.
  assert (Hok : lines_ok (clauses (ReducerIO.CNFParser_parse file))).
  { rewrite reducer_parse_dimacs. pose proof (dimacs_ok file) as H.
    destruct (dimacs file) as [[nv nc] ls]. exact H. }
  apply reduce_equisat_nonempty; [| |exact Hmax].
  - clear Hmax. split; [exact HN|]. unfold lines_ok in Hok.
    revert Hb. induction Hok as [|c cs Hc _ IH]; intros Hb; [constructor|].
    cbn [forallb] in Hb. apply andb_true_iff in Hb as [Hbc Hb]. constructor; [|by apply IH].
    apply andb_true_iff in Hc as [_ Hc]. apply List.Forall_forall. intros l Hl.
    eapply forallb_forall in Hc; [|exact Hl]. eapply forallb_forall in Hbc; [|exact Hl].
    apply Z.leb_le in Hbc. unfold lit_ok in Hc. apply andb_true_iff in Hc as [H0 _].
    apply negb_true_iff, Z.eqb_neq in H0. lia.
  - eapply Forall_impl; [exact Hok|]. intros c Hc. apply andb_true_iff in Hc as [Hc _].
    by destruct c.
Qed.

Lemma parsed_reduce_equisat_witness :
  let file := ("p cnf 2 2" ++ nl ++ "1 0" ++ nl ++ "-1 2 0" ++ nl)%string in
  let F := ReducerIO.CNFParser_parse file in
  (0 <= numVars F /\ forallb (forallb (fun l => Z.abs l <=? numVars F)) (clauses F) = true /\
   numVars F + aux_total (clauses F) <= INT_MAX) /\
  (satisfiable (clauses F) <-> satisfiable (clauses (fst (reduce F)))) /\
  (forall a : Z -> bool, cnf_true a (clauses (fst (reduce F))) = true ->
     cnf_true (restrict (numVars F) a) (clauses F) = true).
Proof.
  intros file F.
  assert (H1 : 0 <= numVars F) by (vm_compute; discriminate).
  assert (H2 : forallb (forallb (fun l => Z.abs l <=? numVars F)) (clauses F) = true)
    by (vm_compute; reflexivity).
  assert (H3 : numVars F + aux_total (clauses F) <= INT_MAX) by (vm_compute; discriminate).
  split; [auto|]. exact (parsed_reduce_equisat file H1 H2 H3).
Defined.

(** The line [c Variables originales: ...] that [CNFWriter::write] puts
    in the reduced file prints [numVars - clauses.size()] of the reduced
    formula, taken modulo 2^64: for the reduction of [F] with [numVars F]
    an [int] and no overflow of the auxiliary variables, this is
    [numVars F] minus the number of non-empty clauses of [F] minus the
    number of unit clauses of [F], not [numVars F] (unless [F] has no
    non-empty clause). *)
Theorem reduced_file_original_vars (F : CNFFormula) :
  in_int (numVars F) = true -> numVars F + aux_total (clauses F) <= INT_MAX ->
  nth 1 (getlines (ReducerIO.CNFWriter_write (fst (reduce F)))) EmptyString =
  ("c Variables originales: " ++
     show_nonneg ((numVars F - Z.of_nat (List.length (List.filter nonempty (clauses F)))
                   - unit_clauses (clauses F)) mod 2 ^ 64))%string.
Proof.
  intros HN Hmax. rewrite writer_lines. cbn [nth app]. do 2 f_equal.
  pose proof (reduce_loop_next (clauses F) (numVars F + 1)) as Hn.
  pose proof (reduce_loop_length (clauses F) (wrap32 (numVars F + 1))) as Hl.
  pose proof (aux_minus_out (clauses F)) as Ha.
  pose proof (aux_total_nonneg (clauses F)) as Ha0.
  pose proof HN as HNr. apply in_int_spec in HNr.
  unfold reduce. cbv zeta. rewrite (wrap32_id _ HN).
  destruct (reduce_loop (wrap32 (numVars F + 1)) (clauses F)) as [out n2].
  cbn [fst snd numVars clauses] in *. subst n2. rewrite wrap32_sub_l.
  rewrite wrap32_id by (apply in_int_spec; unfold INT_MIN, INT_MAX in *; lia).
  f_equal. lia.
Qed.

Lemma reduced_file_original_vars_witness :
  let F := mkCNF 3 2 [[1]; [-2; 3; 1; 2]] in
  (in_int (numVars F) = true /\ numVars F + aux_total (clauses F) <= INT_MAX) /\
  nth 1 (getlines (ReducerIO.CNFWriter_write (fst (reduce F)))) EmptyString =
  ("c Variables originales: " ++
     show_nonneg ((numVars F - Z.of_nat (List.length (List.filter nonempty (clauses F)))
                   - unit_clauses (clauses F)) mod 2 ^ 64))%string.
Proof.
  intros F.
  assert (H1 : in_int (numVars F) = true) by reflexivity.
  assert (H2 : numVars F + aux_total (clauses F) <= INT_MAX) by (vm_compute; discriminate).
  split; [auto|]. exact (reduced_file_original_vars F H1 H2).
Defined.

End ReducerPipelineExtras.

Module FindFacts.
Import String Ascii TextIO VerifierIO.

(** The entries [findCNFFiles] keeps: a regular file whose name is longer
    than 4 characters and ends in [.cnf]. *)
Definition cnf_entry (e : Entry) : bool :=
  is_regular_file e && (4 <? String.length (filename e))%nat &&
  match suffix 4 (filename e) with Some s => String.eqb s ".cnf" | None => false end.

(** The longest prefix of [l] whose elements satisfy [p]. *)
Fixpoint take_while {A} (p : A -> bool) (l : list A) : list A :=
  match l with
  | [] => []
  | x :: l' => if p x then x :: take_while p l' else []
  end.

Lemma substr_some (p : nat) (s : string) :
  (p <= String.length s)%nat -> exists r, ReducerIO.substr p s = Some r /\
    String.length r = (String.length s - p)%nat.
Proof.
  revert s. induction p as [|p IH]; intros s Hp; [exists s; split; [done|cbn; lia]|].
  destruct s as [|c s]; cbn in Hp; [lia|]. cbn [ReducerIO.substr String.length].
  apply IH. lia.
Qed.

Lemma substr_add (a b : nat) (s : string) :
  ReducerIO.substr (a + b) s =
    match ReducerIO.substr a s with Some r => ReducerIO.substr b r | None => None end.
Proof.
  revert s. induction a as [|a IH]; intros s; [done|].
  destruct s as [|c s]; [done|]. cbn [Nat.add ReducerIO.substr]. apply IH.
Qed.

Lemma suffix_none (n : nat) (s : string) :
  suffix n s = None <-> (String.length s < n)%nat.
Proof.
  unfold suffix. destruct (Nat.leb_spec n (String.length s)) as [H|H].
  - destruct (substr_some (String.length s - n) s ltac:(lia)) as (r & -> & _).
    split; [discriminate|lia].
  - split; [lia|done].
Qed.

(** A name whose last 4 characters are [.cnf] never has [.cnf.sol] as its
    last 8. *)
Lemma suffix_cnf_not_sol (f s4 s8 : string) :
  suffix 4 f = Some s4 -> suffix 8 f = Some s8 -> String.eqb s4 ".cnf" = true ->
  String.eqb s8 ".cnf.sol" = false.
Proof.
  unfold suffix. intros H4 H8 Hc.
  destruct (Nat.leb_spec 8 (String.length f)) as [Hl|Hl]; [|discriminate].
  destruct (Nat.leb_spec 4 (String.length f)) as [_|]; [|lia].
  replace (String.length f - 4)%nat with ((String.length f - 8) + 4)%nat in H4 by lia.
  rewrite substr_add, H8 in H4. apply String.eqb_eq in Hc. subst s4.
  apply String.eqb_neq. intros ->. discriminate.
Qed.

Lemma scan_entries_cons (e : Entry) (es : list Entry) :
  scan_entries (e :: es) =
    if cnf_entry e then
      (if (String.length (filename e) <? 8)%nat then [] else path e :: scan_entries es)
    else scan_entries es.
Proof.
  cbn [scan_entries]. unfold cnf_entry.
  destruct (is_regular_file e); cbn [andb]; [|done].
  destruct (Nat.ltb_spec 4 (String.length (filename e))) as [Hl|Hl]; cbn [andb]; [|done].
  destruct (suffix 4 (filename e)) as [s4|] eqn:E4; [|apply suffix_none in E4; lia].
  destruct (String.eqb s4 ".cnf") eqn:Ec; [|done].
  destruct (suffix 8 (filename e)) as [s8|] eqn:E8.
  - assert (Hl8 : (String.length (filename e) <? 8)%nat = false)
      by (destruct (Nat.ltb_spec (String.length (filename e)) 8) as [Hlt|];
          [apply suffix_none in Hlt; congruence|done]).
    rewrite Hl8, (suffix_cnf_not_sol (filename e) s4 s8 E4 E8 Ec). done.
  - apply suffix_none in E8. rewrite (proj2 (Nat.ltb_lt _ _) E8). done.
Qed.

Lemma scan_entries_spec (es : list Entry) :
  scan_entries es =
    map path (List.filter cnf_entry
      (take_while (fun e => negb (cnf_entry e && (String.length (filename e) <? 8)%nat)) es)).
Proof.
  induction es as [|e es IH]; [done|]. rewrite scan_entries_cons. cbn [take_while].
  destruct (cnf_entry e) eqn:Ee; cbn [andb negb]; [|cbn [List.filter]; rewrite Ee; exact IH].
  destruct (String.length (filename e) <? 8)%nat; cbn [negb]; [done|].
  cbn [List.filter]. rewrite Ee, IH. done.
Qed.

Lemma insert_sorted_perm (x : string) (l : list string) : Permutation (insert_sorted x l) (x :: l).
Proof.
  induction l as [|y l IH]; cbn; [done|]. destruct (String.leb x y); [done|].
  rewrite IH. apply perm_swap.
Qed.

Lemma sort_strings_perm (l : list string) : Permutation (sort_strings l) l.
Proof.
  induction l as [|x l IH]; [done|]. cbn [sort_strings fold_right].
  change (fold_right insert_sorted [] l) with (sort_strings l).
  rewrite insert_sorted_perm, IH. done.
Qed.

Lemma insert_sorted_sorted (x : string) (l : list string) :
  Sorted (fun a b => String.leb a b = true) l ->
  Sorted (fun a b => String.leb a b = true) (insert_sorted x l).
Proof.
  induction 1 as [|y l Hl IH Hy]; cbn; [by repeat constructor|].
  destruct (String.leb x y) eqn:Exy; [by repeat constructor|].
  constructor; [exact IH|].
  assert (Hyx : String.leb y x = true)
    by (destruct (String.leb_total x y); congruence).
  destruct l as [|z l]; cbn; [by constructor|].
  inversion Hy; subst. destruct (String.leb x z); constructor; done.
Qed.

Lemma sort_strings_sorted (l : list string) :
  Sorted (fun a b => String.leb a b = true) (sort_strings l).
Proof.
  induction l as [|x l IH]; [constructor|]. cbn [sort_strings fold_right].
  apply insert_sorted_sorted. exact IH.
Qed.

End FindFacts.

Module FindExtras.
Import String Ascii TextIO VerifierIO FindFacts.

(** [FileUtils::findCNFFiles] returns, in increasing order of
    [std::string], the paths of the regular files whose name is longer
    than 4 characters and ends in [.cnf], among the entries before the
    first such file whose name has fewer than 8 characters: on that one
    [filename.substr(filename.size() - 8)] throws, the exception is
    caught and the scan stops, that file excluded. The [.cnf.sol] test
    excludes nothing. *)
Theorem find_cnf_files_spec (entries : list Entry) :
  Permutation (findCNFFiles entries)
    (map path (List.filter cnf_entry
      (take_while (fun e => negb (cnf_entry e && (String.length (filename e) <? 8)%nat)) entries))) /\
  Sorted (fun a b => String.leb a b = true) (findCNFFiles entries).
Proof.
  unfold findCNFFiles. rewrite <- scan_entries_spec. split.
  - apply sort_strings_perm.
  - apply sort_strings_sorted.
Qed.

End FindExtras.

Module VerifyReportFacts.
Import Verifier.

(** Indices, from [i], of the clauses of [cs] that [a] does not satisfy. *)
Fixpoint unsat_indices (a : list Z) (i : Z) (cs : list Clause) : list Z :=
  match cs with
  | [] => []
  | c :: cs' =>
      if isSatisfied c a then unsat_indices a (i + 1) cs'
      else i :: unsat_indices a (i + 1) cs'
  end.

Definition count_sat (a : list Z) (cs : list Clause) : nat :=
  length (List.filter (fun c => isSatisfied c a) cs).

Lemma count_sat_unsat (a : list Z) (cs : list Clause) : forall i : Z,
  (count_sat a cs + length (unsat_indices a i cs) = length cs)%nat.
Proof.
  unfold count_sat. induction cs as [|c cs IH]; intros i; [done|]. cbn [List.filter unsat_indices length].
  destruct (isSatisfied c a); cbn [length]; rewrite <- (IH (i + 1)); lia.
Qed.

Lemma verify_loop_report (a : list Z) (cs : list Clause) : forall i sat unsat idx,
  (length idx <= 10)%nat ->
  let '(s, u, x) := verify_loop a i cs sat unsat idx in
  x = firstn 11 (idx ++ unsat_indices a i cs) /\
  u = unsat + Z.of_nat (length x) - Z.of_nat (length idx) /\
  ((length (idx ++ unsat_indices a i cs) <= 10)%nat -> s = sat + Z.of_nat (count_sat a cs)).
Proof.
  unfold count_sat.
  induction cs as [|c cs IH]; intros i sat unsat idx Hl; cbn [verify_loop unsat_indices].
  - rewrite app_nil_r, firstn_all2 by lia. cbn. split; [done|]. split; lia.
  - destruct (isSatisfied c a) eqn:Ec.
    + specialize (IH (i + 1) (sat + 1) unsat idx Hl).
      destruct (verify_loop a (i + 1) cs (sat + 1) unsat idx) as [[s u] x].
      destruct IH as (Hx & Hu & Hs). split; [done|]. split; [done|].
      intros H. cbn [List.filter]. rewrite Ec. cbn [length]. rewrite Hs by done. lia.
    + rewrite length_app. cbn [length].
      destruct (Nat.ltb_spec 10 (length idx + 1)) as [Hb|Hb].
      * assert (Hi : length idx = 10%nat) by lia.
        rewrite firstn_app, Hi, firstn_all2 by lia. cbn [Nat.sub firstn].
        split; [done|]. split; [rewrite length_app; cbn [length]; lia|].
        rewrite length_app. cbn [length]. lia.
      * specialize (IH (i + 1) sat (unsat + 1) (idx ++ [i]) ltac:(rewrite length_app; cbn; lia)).
        destruct (verify_loop a (i + 1) cs sat (unsat + 1) (idx ++ [i])) as [[s u] x].
        rewrite <- app_assoc in IH. cbn [app] in IH.
        destruct IH as (Hx & Hu & Hs). split; [done|].
        split; [rewrite Hu, length_app; cbn [length]; lia|].
        intros H. cbn [List.filter]. rewrite Ec. apply Hs. done.
Qed.

End VerifyReportFacts.

Module VerifyReportExtras.
Import Verifier VerifyReportFacts.

(** What [SATVerifier::verify] reports: with [bad] the indices of the
    clauses the solution does not satisfy, in order, the index list is
    the first 11 of them, the count of unsatisfied clauses is the length
    of that list, the verdict is true exactly when [bad] is empty, and
    the count of satisfied clauses is the number of clauses minus
    [length bad] when at most 10 clauses are unsatisfied (the loop stops
    at the 11th). *)
Theorem verify_report (inst : CNFInstance) (sol : Solution) :
  let bad := unsat_indices (assignment sol) 0 (iclauses inst) in
  let r := verify inst sol in
  unsatisfiedIndices r = firstn 11 bad /\
  unsatisfiedClauses r = Z.of_nat (length (firstn 11 bad)) /\
  isSat r = Nat.eqb (length bad) 0 /\
  ((length bad <= 10)%nat ->
   satisfiedClauses r = Z.of_nat (length (iclauses inst)) - Z.of_nat (length bad)).
Proof.
  cbv zeta. unfold verify.
  pose proof (count_sat_unsat (assignment sol) (iclauses inst) 0) as Hc.
  destruct (iclauses inst) as [|c cs] eqn:E; [cbn; repeat split; lia|].
  pose proof (verify_loop_report (assignment sol) (c :: cs) 0 0 0 [] ltac:(cbn; lia)) as H.
  destruct (verify_loop (assignment sol) 0 (c :: cs) 0 0 []) as [[s u] x].
  cbn [app length] in H. destruct H as (Hx & Hu & Hs). cbn [unsatisfiedIndices unsatisfiedClauses isSat satisfiedClauses].
  split; [done|]. split; [rewrite Hu, Hx; lia|]. split.
  - rewrite Hu, Hx, length_firstn.
    destruct (length (unsat_indices (assignment sol) 0 (c :: cs))) as [|k]; [done|].
    cbn [Nat.min Nat.eqb]. apply Z.eqb_neq. lia.
  - intros Hb. rewrite Hs by done. lia.
Qed.

End VerifyReportExtras.
